(** * Empirical: selection schemes and the random number generator

    A shallow embedding of [include/emp/math/Random.hpp] and
    [source/Evolve/World_select.h], with the properties of the design
    document stated and proved (or refuted) over it.

    Conventions.
    - [uint32_t]/[uint64_t]/[size_t] values are [Z] with the wrap-around
      written out ([uint32], [uint64]); loop counters and vector indices
      are [nat].
    - A [double] is a pair mantissa/exponent denoting [mant * 2^expo];
      arithmetic is the exact operation followed by rounding to 53
      significant bits, ties to even.  That is what binary64 does for a
      result in its normal range, [2^-1022 <= |x| < 2^1024].  NaN,
      infinities, overflow and the coarser grid of the subnormal numbers
      are not part of the model, so a property that rests on the product
      or the quotient of doubles that can leave the normal range states
      the range it is proved for ([Double.at_least]).
    - [emp_assert] is modelled as active: a failed assertion aborts the
      call and hands back the state at the point of failure. *)

From Stdlib Require Import ZArith QArith Qpower Qabs Qround Lia Bool List Sorted.
From stdpp Require Import base list.
Import ListNotations.

(** ** Outcomes of a call: normal return, failed assertion, or a [while]
    loop that did not finish within the fuel it was given. *)

Inductive outcome (S A : Type) : Type :=
| Done (a : A) (s : S)
| Aborted (s : S)
| OutOfFuel.
Arguments Done {S A} a s.
Arguments Aborted {S A} s.
Arguments OutOfFuel {S A}.

(** ** IEEE-754 binary64 values, finite part *)

Module Double.
Local Open Scope Z_scope.

Record t : Type := mk { mant : Z; expo : Z }.

(** The rational a double denotes. *)
Definition value (d : t) : Q := (inject_Z (mant d) * 2 ^ expo d)%Q.

(** C++ [<], [<=] and [==] on doubles. *)
Definition ltb (a b : t) : bool := negb (Qle_bool (value b) (value a)).
Definition leb (a b : t) : bool := Qle_bool (value a) (value b).
Definition eqb (a b : t) : bool := Qeq_bool (value a) (value b).

(** Nearest integer with at most 53 significant bits, ties to even
    ([m] is non-negative). *)
Definition round53 (m : Z) : Z :=
  let e := Z.log2 m - 52 in
  if e <=? 0 then m
  else
    let q := m / 2 ^ e in
    let r := m mod 2 ^ e in
    let h := 2 ^ (e - 1) in
    if r <? h then q * 2 ^ e
    else if h <? r then (q + 1) * 2 ^ e
    else if Z.even q then q * 2 ^ e
    else (q + 1) * 2 ^ e.

Definition rnd (d : t) : t :=
  {| mant := Z.sgn (mant d) * round53 (Z.abs (mant d)); expo := expo d |}.

Definition mul (a b : t) : t :=
  rnd {| mant := mant a * mant b; expo := expo a + expo b |}.

Definition add (a b : t) : t :=
  let e := Z.min (expo a) (expo b) in
  rnd {| mant := mant a * 2 ^ (expo a - e) + mant b * 2 ^ (expo b - e);
         expo := e |}.

(** Division keeps 56 or more quotient bits and a sticky bit below them,
    which is enough for the final rounding to be the correctly rounded
    quotient.  The divisor is non-zero wherever the sources divide. *)
Definition div (a b : t) : t :=
  let A := Z.abs (mant a) in
  let B := Z.abs (mant b) in
  let sh := Z.max 0 (56 + Z.log2 B - Z.log2 A) in
  let N := A * 2 ^ sh in
  let sticky := if N mod B =? 0 then 0 else 1 in
  rnd {| mant := Z.sgn (mant a) * Z.sgn (mant b) * (2 * (N / B) + sticky);
         expo := expo a - expo b - sh - 1 |}.

(** [static_cast<double>(n)] for an integer [n]. *)
Definition of_Z (n : Z) : t := rnd {| mant := n; expo := 0 |}.

(** Integer part, rounding toward zero (the value of a
    double-to-integer cast before it is narrowed). *)
Definition trunc (d : t) : Z :=
  if 0 <=? expo d then mant d * 2 ^ expo d
  else Z.quot (mant d) (2 ^ (- expo d)).

Definition zero : t := {| mant := 0; expo := 0 |}.
Definition one : t := {| mant := 1; expo := 0 |}.

#[global] Instance inhabited : Inhabited t := populate zero.

(** A mantissa that fits the 53-bit significand. *)
Definition normal (d : t) : Prop := Z.abs (mant d) < 2 ^ 53.

(** A finite binary64 value of magnitude at least [2^lo].  For
    [lo >= -1022] it lies in the normal range, where binary64 rounds to
    53 significant bits as [rnd] does. *)
Definition at_least (lo : Z) (d : t) : Prop :=
  normal d /\ (2 ^ lo <= Qabs (value d))%Q /\ (Qabs (value d) < 2 ^ 1024)%Q.

End Double.

(** ** [emp::Random]: the middle-square Weyl-sequence generator *)

Module Random.
Local Open Scope Z_scope.

Definition uint64 (x : Z) : Z := x mod 2 ^ 64.
Definition uint32 (x : Z) : Z := x mod 2 ^ 32.

Definition RAND_CAP : Z := 4294967296.
Definition STEP_SIZE : Z := 0xb5ad4eceda1ce2a9.

Record t : Type := mk {
  value : Z;          (* current squaring value *)
  weyl_state : Z;     (* Weyl sequence state *)
  original_seed : Z;  (* seed that started the sequence *)
  expRV : Double.t    (* carried exponential variate of GetRandNormal *)
}.

(** [uint32_t Get()] *)
Definition Get (r : t) : Z * t :=
  let value1 := uint64 (value r * value r) in
  let weyl1 := uint64 (weyl_state r + STEP_SIZE) in
  let value2 := uint64 (value1 + weyl1) in
  let value3 := Z.lor (Z.shiftr value2 32) (uint64 (Z.shiftl value2 32)) in
  (uint32 value3,
   {| value := value3; weyl_state := weyl1;
      original_seed := original_seed r; expRV := expRV r |}).

(** [void ResetSeed(const int64_t seed)].  [seed_time] is what [time(NULL)]
    returns and [seed_mem] the address of the object; both are read only
    when [seed <= 0].  The field [value] is left as it is. *)
Definition ResetSeed (seed_time seed_mem : Z) (seed : Z) (r : t) : t :=
  let weyl :=
    if seed <=? 0 then Z.lxor (uint64 seed_time) (uint64 seed_mem)
    else uint64 seed in
  {| value := value r; weyl_state := uint64 (weyl * 2);
     original_seed := weyl; expRV := expRV r |}.

(** The member initialisers of the class. *)
Definition fresh : t :=
  {| value := 0; weyl_state := 0; original_seed := 0; expRV := Double.zero |}.

(** [Random(const int seed = -1)] *)
Definition new (seed_time seed_mem : Z) (seed : Z) : t :=
  ResetSeed seed_time seed_mem seed fresh.

Definition GetSeed (r : t) : Z := original_seed r.

(** [double GetDouble()]: [Get() / (double) RAND_CAP] *)
Definition GetDouble (r : t) : Double.t * t :=
  let (g, r1) := Get r in
  (Double.div (Double.of_Z g) (Double.of_Z RAND_CAP), r1).

(** [double GetDouble(const double max)] *)
Definition GetDouble_max (max : Double.t) (r : t) : Double.t * t :=
  let (d, r1) := GetDouble r in
  (Double.mul d max, r1).

(** [uint32_t GetUInt(const T max)] for an unsigned integer type [T].  A
    double outside the range of [uint32_t] has no defined conversion in
    C++; the model wraps it. *)
Definition GetUInt (max : Z) (r : t) : Z * t :=
  let (d, r1) := GetDouble r in
  (uint32 (Double.trunc (Double.mul d (Double.of_Z max))), r1).

(** [bool P(const double p)] *)
Definition P (p : Double.t) (r : t) : outcome t bool :=
  if Double.leb Double.zero p && Double.leb p Double.one then
    let (g, r1) := Get r in
    Done (Double.ltb (Double.of_Z g) (Double.mul p (Double.of_Z RAND_CAP))) r1
  else Aborted r.

(** [std::numeric_limits<uint32_t>::infinity()]: [uint32_t] has no
    infinity, and for such types the standard makes this member return
    [T()], which is zero. *)
Definition uint32_infinity : Z := 0.

(** The loop [while (!P(p)) { result++; }] of [GetRandGeometric]. *)
Fixpoint geometric_loop (fuel : nat) (p : Double.t) (result : Z) (r : t)
  : outcome t Z :=
  match fuel with
  | O => OutOfFuel
  | S fuel' =>
      match P p r with
      | Done true r1 => Done result r1
      | Done false r1 => geometric_loop fuel' p (uint32 (result + 1)) r1
      | Aborted r1 => Aborted r1
      | OutOfFuel => OutOfFuel
      end
  end.

(** [uint32_t GetRandGeometric(double p)] *)
Definition GetRandGeometric (fuel : nat) (p : Double.t) (r : t) : outcome t Z :=
  if Double.leb Double.zero p && Double.leb p Double.one then
    if Double.eqb p Double.zero then Done uint32_infinity r
    else geometric_loop fuel p 1 r
  else Aborted r.

(** The generator after [n] calls of [Get], and the value the next call
    returns. *)
Fixpoint after (n : nat) (r : t) : t :=
  match n with
  | O => r
  | S n' => after n' (snd (Get r))
  end.

Definition nth_Get (n : nat) (r : t) : Z := fst (Get (after n r)).

Definition half : Double.t := Double.mk 1 (-1).

(** The [i]-th Bernoulli trial (counting from zero) of a run of [P p]
    calls started in [r]: what the call [P(p)] answers after [i] earlier
    draws. *)
Definition trial (p : Double.t) (r : t) (i : nat) : bool :=
  match P p (after i r) with
  | Done b _ => b
  | _ => false
  end.

(** [uint32_t] to [int32_t], as two's complement. *)
Definition int32 (x : Z) : Z :=
  if uint32 x <? 2 ^ 31 then uint32 x else uint32 x - 2 ^ 32.

(** [uint32_t GetUInt(const T1 min, const T2 max)]:
    [GetUInt<uint32_t>((uint32_t) max - (uint32_t) min) + (uint32_t) min] *)
Definition GetUInt_between (min max : Z) (r : t) : Z * t :=
  let (x, r1) := GetUInt (uint32 (uint32 max - uint32 min)) r in
  (uint32 (x + uint32 min), r1).

(** [int32_t GetInt(const int32_t max)] *)
Definition GetInt (max : Z) (r : t) : Z * t :=
  let (x, r1) := GetUInt (uint32 max) r in
  (int32 x, r1).

(** [int32_t GetInt(const int min, const int max)]: [GetInt(max - min) + min].
    Signed overflow is undefined in C++; the model wraps. *)
Definition GetInt_between (min max : Z) (r : t) : Z * t :=
  let (x, r1) := GetInt (int32 (max - min)) r in
  (int32 (x + min), r1).

(** [GetBits12_5], [GetBits25], [GetBits50], [GetBits75], [GetBits87_5].
    The order in which C++ evaluates the calls of one expression is not
    fixed, but [&] and [|] alone do not depend on it.  ([GetBits37_5]
    and [GetBits62_5] mix the two operators and [GetUInt64()] shifts one
    of its two draws, so their results depend on the order and they are
    left out.) *)
Definition GetBits12_5 (r : t) : Z * t :=
  let (a, r1) := Get r in
  let (b, r2) := Get r1 in
  let (c, r3) := Get r2 in
  (Z.land (Z.land a b) c, r3).

Definition GetBits25 (r : t) : Z * t :=
  let (a, r1) := Get r in
  let (b, r2) := Get r1 in
  (Z.land a b, r2).

Definition GetBits50 (r : t) : Z * t := Get r.

Definition GetBits75 (r : t) : Z * t :=
  let (a, r1) := Get r in
  let (b, r2) := Get r1 in
  (Z.lor a b, r2).

Definition GetBits87_5 (r : t) : Z * t :=
  let (a, r1) := Get r in
  let (b, r2) := Get r1 in
  let (c, r3) := Get r2 in
  (Z.lor (Z.lor a b) c, r3).

(** The loop [for (uint32_t i = 0; i < n; ++i) if (P(p)) k++;] of
    [GetRandBinomial]. *)
Fixpoint binomial_loop (fuel : nat) (n p : Double.t) (i k : Z) (r : t)
  : outcome t Z :=
  match fuel with
  | O => OutOfFuel
  | S fuel' =>
      if Double.ltb (Double.of_Z i) n then
        match P p r with
        | Done b r1 =>
            binomial_loop fuel' n p (uint32 (i + 1))
              (if b then uint32 (k + 1) else k) r1
        | Aborted r1 => Aborted r1
        | OutOfFuel => OutOfFuel
        end
      else Done k r
  end.

(** [uint32_t GetRandBinomial(const double n, const double p)] *)
Definition GetRandBinomial (fuel : nat) (n p : Double.t) (r : t) : outcome t Z :=
  if Double.leb Double.zero p && Double.leb p Double.one then
    if Double.leb Double.zero n then binomial_loop fuel n p 0 0 r
    else Aborted r
  else Aborted r.

(** The number of successes among the first [n] trials. *)
Fixpoint successes (p : Double.t) (r : t) (n : nat) : Z :=
  match n with
  | O => 0
  | S n' => successes p r n' + (if trial p r n' then 1 else 0)
  end.

(** [RandomStdAdaptor::operator()(int n)] *)
Definition RandomStdAdaptor (n : Z) (r : t) : Z * t := GetInt n r.

(** [sample_with_replacement(first, last, ofirst, olast, rng)]: [input]
    is the range [first, last), [count] the length of the output range,
    and the result what the output range holds afterwards.  [rng] is
    called with [std::distance(first, last)]; reading [*(first + k)]
    outside the range has no defined behaviour, which is [None] here. *)
Fixpoint sample_with_replacement {A : Type} (input : list A) (count : nat)
  (rng : Z -> t -> Z * t) (r : t) : option (list A) * t :=
  match count with
  | O => (Some [], r)
  | S count' =>
      let (k, r1) := rng (Z.of_nat (length input)) r in
      match (if 0 <=? k then input !! Z.to_nat k else None) with
      | None => (None, r1)
      | Some x =>
          match sample_with_replacement input count' rng r1 with
          | (Some out, r2) => (Some (x :: out), r2)
          | (None, r2) => (None, r2)
          end
      end
  end.

End Random.

(** ** Weighted index *)

(** Modelled from the spec: [tools/IndexMap.h] is not among the sources.
    The design document (section 4.2) gives the contract: a dense id
    space, [Adjust(id, weight)] creates or updates an item's weight,
    [GetWeight()] is the total weight, and [Index(position)] is the id
    whose half-open cumulative-weight interval contains [position], which
    must satisfy [0 <= position < total]. *)
Module IndexMap.

Abbreviation t := (list Double.t).

Definition make (num_items : nat) : t := replicate num_items Double.zero.

Definition Adjust (id : nat) (weight : Double.t) (m : t) : t :=
  if decide (id < length m)%nat then <[id := weight]> m
  else m ++ replicate (id - length m) Double.zero ++ [weight].





End IndexMap.

(** ** Selection schemes of [World_select.h] *)

Module WorldSelect.

(** The population the selection schemes act on.  [World.h] is not among
    the sources, so the class [emp::World<ORG>] is taken as a parameter:
    the operations below are the members the selection code calls.
    Queries are functions of the world; members that change it return
    the new world.  [GetRandom] hands out a reference to the world's
    generator, so a draw writes the advanced generator back with
    [SetRandom]. *)
Class World (W ORG GENOME : Type) : Type := {
  GetSize : W -> nat;
  GetNumOrgs : W -> nat;
  IsOccupied : W -> nat -> bool;
  GetOrg : W -> nat -> ORG;
  GetGenomeAt : W -> nat -> GENOME;
  genome_eqb : GENOME -> GENOME -> bool;
  CalcFitnessID : W -> nat -> Double.t;
  GetFitFun : W -> bool;
  IsCacheOn : W -> bool;
  ClearCache : W -> W;
  IsSynchronous : W -> bool;
  GetRandom : W -> Random.t;
  SetRandom : Random.t -> W -> W;
  GetRandomOrgID : W -> nat * W;
  DoBirth : GENOME -> nat -> nat -> W -> nat * W;
  TriggerOnLexicaseSelect : list nat -> Z -> W -> W
}.

(** [MapElitesPhenotype<ORG>]: a [std::function] may be empty. *)
Record MapElitesPhenotype (ORG : Type) : Type := {
  pheno_fun : option (ORG -> nat);
  id_count : nat
}.
Arguments pheno_fun {ORG} _.
Arguments id_count {ORG} _.

Section Selection.
Context {W ORG GENOME : Type} `{World W ORG GENOME}.

(** [emp::GetPermutation] lives in a header that is not among the
    sources; it is a parameter. *)
Variable GetPermutation : Random.t -> nat -> list nat * Random.t.

(** *** The state-and-assertion monad of a selection call *)

Definition M (A : Type) : Type := W -> outcome W A.

Definition ret {A : Type} (a : A) : M A := fun w => Done a w.

Definition bind {A B : Type} (m : M A) (f : A -> M B) : M B :=
  fun w =>
    match m w with
    | Done a w1 => f a w1
    | Aborted w1 => Aborted w1
    | OutOfFuel => OutOfFuel
    end.

Notation "'let*' x ':=' c1 'in' c2" := (bind c1 (fun x => c2))
  (at level 10, x name, c1 at level 100, c2 at level 200).

Definition emp_assert (b : bool) : M unit :=
  fun w => if b then Done tt w else Aborted w.

(** A query, a member that changes the world, and one that does both. *)
Definition ask {A : Type} (f : W -> A) : M A := fun w => Done (f w) w.
Definition act (f : W -> W) : M unit := fun w => Done tt (f w).
Definition call {A : Type} (f : W -> A * W) : M A :=
  fun w => let (a, w1) := f w in Done a w1.

(** A draw from the world's generator. *)
Definition draw {A : Type} (f : Random.t -> A * Random.t) : M A :=
  fun w => let (a, r1) := f (GetRandom w) in Done a (SetRandom r1 w).

(** An [emp::vector] read; the index is checked by an assertion. *)
Definition at_index {A : Type} (v : list A) (i : nat) : M A :=
  fun w => match v !! i with Some a => Done a w | None => Aborted w end.

(** [for (x : l) body], threading the variables the body updates. *)
Fixpoint for_each {A S : Type} (l : list A) (body : A -> S -> M S) (s : S) : M S :=
  match l with
  | [] => ret s
  | x :: l' => let* s1 := body x s in for_each l' body s1
  end.

Definition for_range {S : Type} (n : nat) (body : nat -> S -> M S) (s : S) : M S :=
  for_each (seq 0 n) body s.

(** *** Elite selection *)

(** [std::multimap::insert]: after the entries whose key is not greater. *)
Fixpoint multimap_insert (kv : Double.t * nat) (m : list (Double.t * nat))
  : list (Double.t * nat) :=
  match m with
  | [] => [kv]
  | kv' :: m' =>
      if Double.ltb (fst kv) (fst kv') then kv :: m
      else kv' :: multimap_insert kv m'
  end.

Definition elite_fit_map (w : W) : list (Double.t * nat) :=
  foldl (fun fit_map id =>
           if IsOccupied w id
           then multimap_insert (CalcFitnessID w id, id) fit_map
           else fit_map)
        [] (seq 0 (GetSize w)).

Definition EliteSelect (e_count copy_count : nat) : M unit :=
  let* n := ask GetNumOrgs in
  let* _ := emp_assert ((0 <? e_count)%nat && (e_count <=? n)%nat) in
  let* _ := emp_assert (0 <? copy_count)%nat in
  let* fit_map := ask elite_fit_map in
  for_range e_count
    (fun i _ =>
       let* m := at_index (rev fit_map) i in
       let repro_id := snd m in
       let* g := ask (fun w => GetGenomeAt w repro_id) in
       let* _ := call (DoBirth g repro_id copy_count) in
       ret tt)
    tt.

(** *** Tournament selection *)

(** The search for the fittest entry: [best_fit]/[best_id] start at
    [entries[0]] and move only on a strictly greater fitness. *)
Definition tournament_step (fit : nat -> Double.t)
  (best : Double.t * nat) (entry : nat) : Double.t * nat :=
  let cur_fit := fit entry in
  if Double.ltb (fst best) cur_fit then (cur_fit, entry) else best.

Definition tournament_winner (fit : nat -> Double.t) (entries : list nat)
  : option nat :=
  match entries with
  | [] => None
  | e0 :: rest => Some (snd (foldl (tournament_step fit) (fit e0, e0) rest))
  end.

(** [for (i < t_size) entries.push_back(world.GetRandomOrgID())] *)
Definition draw_entries (t_size : nat) : M (list nat) :=
  for_range t_size
    (fun _ entries => let* id := call GetRandomOrgID in ret (entries ++ [id]))
    [].

Definition tournament (t_size : nat) : M unit :=
  let* entries := draw_entries t_size in
  let* fit := ask CalcFitnessID in
  match tournament_winner fit entries with
  | None => fun w => Aborted w
  | Some best_id =>
      let* g := ask (fun w => GetGenomeAt w best_id) in
      let* _ := call (DoBirth g best_id 1) in
      ret tt
  end.

Definition TournamentSelect (t_size tourny_count : nat) : M unit :=
  let* _ := emp_assert (0 <? t_size)%nat in
  let* _ := emp_assert (0 <? tourny_count)%nat in
  for_range tourny_count (fun _ _ => tournament t_size) tt.

(** *** Roulette selection *)





(** *** Lexicase selection *)

(** [genotype_counts] is a [std::map] from genome to position; the code
    only looks genomes up in it and asks for its size, so it is kept as
    an association list in order of insertion. *)
Definition find_genotype (gen : GENOME) (genotype_counts : list (GENOME * nat))
  : option nat :=
  match List.find (fun kv => genome_eqb gen (fst kv)) genotype_counts with
  | Some kv => Some (snd kv)
  | None => None
  end.

(** One pass of the loop that groups the organisms by genotype:
    [genotype_counts] maps a genome to its position in [genotype_lists]. *)
Definition group_step (w : W)
  (acc : list (GENOME * nat) * list (list nat)) (org_id : nat)
  : list (GENOME * nat) * list (list nat) :=
  let (genotype_counts, genotype_lists) := acc in
  if IsOccupied w org_id then
    let gen := GetGenomeAt w org_id in
    match find_genotype gen genotype_counts with
    | Some k => (genotype_counts, alter (fun l => l ++ [org_id]) k genotype_lists)
    | None => (genotype_counts ++ [(gen, length genotype_lists)],
               genotype_lists ++ [[org_id]])
    end
  else acc.

Definition group_genotypes (w : W) : list (GENOME * nat) * list (list nat) :=
  foldl (group_step w) ([], []) (seq 0 (GetSize w)).

(** [fitnesses[fit_id][id] = fit_funs[fit_id](world.GetOrg(gen[0]))] *)
Definition lexicase_fitnesses (w : W) (fit_funs : list (ORG -> Double.t))
  (genotype_lists : list (list nat)) : list (list Double.t) :=
  map (fun f => map (fun gen : list nat => f (GetOrg w (gen !!! 0%nat))) genotype_lists)
      fit_funs.

(** The body of [for (size_t gen_id : cur_gens)]; [None] is a vector
    index out of range. *)
Definition lexicase_scan (fit : list Double.t)
  (acc : option (Double.t * list nat)) (gen_id : nat)
  : option (Double.t * list nat) :=
  match acc with
  | None => None
  | Some (max_fit, next_gens) =>
      match fit !! gen_id with
      | None => None
      | Some cur_fit =>
          if Double.ltb max_fit cur_fit then Some (cur_fit, [gen_id])
          else if Double.eqb cur_fit max_fit then Some (max_fit, next_gens ++ [gen_id])
          else Some (max_fit, next_gens)
      end
  end.

(** One fitness function applied to the survivors: [max_fit] starts at
    the fitness of [cur_gens[0]], which is pushed onto [next_gens], and
    then every element of [cur_gens] is scanned. *)
Definition lexicase_step (fit : list Double.t) (cur_gens : list nat)
  : option (list nat) :=
  match cur_gens !! 0%nat with
  | None => None
  | Some g0 =>
      match fit !! g0 with
      | None => None
      | Some max_fit =>
          match foldl (lexicase_scan fit) (Some (max_fit, [g0])) cur_gens with
          | Some (_, next_gens) => Some next_gens
          | None => None
          end
      end
  end.

(** [for (size_t fit_id : order)] with its [break]; returns the
    survivors and [depth]. *)
Fixpoint lexicase_filter (fitnesses : list (list Double.t)) (order : list nat)
  (cur_gens : list nat) (depth : Z) : option (list nat * Z) :=
  match order with
  | [] => Some (cur_gens, depth)
  | fit_id :: order' =>
      match fitnesses !! fit_id with
      | None => None
      | Some fit =>
          match lexicase_step fit cur_gens with
          | None => None
          | Some next_gens =>
              if (length next_gens =? 1)%nat then Some (next_gens, depth + 1)%Z
              else lexicase_filter fitnesses order' next_gens (depth + 1)%Z
          end
      end
  end.

(** For stating what the filter computes: the members of a set of
    genotypes that are best on the first function of [used], among those
    the ones that are best on the second, and so on. *)
Fixpoint lexicase_maxima (fitnesses : list (list Double.t)) (used : list nat)
  (S : nat -> Prop) : nat -> Prop :=
  match used with
  | [] => S
  | fit_id :: rest =>
      lexicase_maxima fitnesses rest
        (fun g => S g /\
                  forall g', S g' ->
                    (Double.value ((fitnesses !!! fit_id) !!! g')
                     <= Double.value ((fitnesses !!! fit_id) !!! g))%Q)
  end.

(** The search for the organism number [winner] among the survivors;
    [-1] when it runs off the end. *)
Fixpoint pick_winner (genotype_lists : list (list nat)) (cur_gens : list nat)
  (winner : nat) : Z :=
  match cur_gens with
  | [] => (-1)%Z
  | gen :: rest =>
      let l := genotype_lists !!! gen in
      if (winner <? length l)%nat then Z.of_nat (l !!! winner)
      else pick_winner genotype_lists rest (winner - length l)
  end.

Definition lexicase_options (genotype_lists : list (list nat)) (cur_gens : list nat)
  : nat :=
  foldl (fun options gen => (options + length (genotype_lists !!! gen))%nat)
        0%nat cur_gens.

Definition lexicase_order (num_funs max_funs : nat) : M (list nat) :=
  if (max_funs =? num_funs)%nat then draw (fun r => GetPermutation r num_funs)
  else
    for_range max_funs
      (fun _ order =>
         let* x := draw (Random.GetUInt (Z.of_nat num_funs)) in
         ret (order ++ [Z.to_nat x]))
      [].

(** One pass of [for (repro < repro_count)]. *)
Definition lexicase_round (fitnesses : list (list Double.t))
  (genotype_lists : list (list nat)) (all_gens : list nat)
  (num_funs max_funs : nat) : M unit :=
  let* order := lexicase_order num_funs max_funs in
  match lexicase_filter fitnesses order all_gens (-1) with
  | None => fun w => Aborted w
  | Some (cur_gens, depth) =>
      let* _ := emp_assert (0 <? length cur_gens)%nat in
      let options := lexicase_options genotype_lists cur_gens in
      let* winner := draw (Random.GetUInt (Z.of_nat options)) in
      let repro_id := pick_winner genotype_lists cur_gens (Z.to_nat winner) in
      let* _ := emp_assert (negb (repro_id =? -1)%Z) in
      let used := take (Z.to_nat (depth + 1)) order in
      let* _ := act (TriggerOnLexicaseSelect used repro_id) in
      let* g := ask (fun w => GetGenomeAt w (Z.to_nat repro_id)) in
      let* _ := call (DoBirth g (Z.to_nat repro_id) 1) in
      ret tt
  end.

Definition LexicaseSelect (fit_funs : list (ORG -> Double.t))
  (repro_count max_funs : nat) : M unit :=
  let* size := ask GetSize in
  let* _ := emp_assert (0 <? size)%nat in
  let* _ := emp_assert (0 <? length fit_funs)%nat in
  let* groups := ask group_genotypes in
  let genotype_lists := snd groups in
  let all_gens := seq 0 (length genotype_lists) in
  let max_funs := if (max_funs =? 0)%nat then length fit_funs else max_funs in
  let* fitnesses := ask (fun w => lexicase_fitnesses w fit_funs genotype_lists) in
  for_range repro_count
    (fun _ _ => lexicase_round fitnesses genotype_lists all_gens
                  (length fit_funs) max_funs)
    tt.

(** *** EcoSelect *)

(** The vectors the collection loop fills. *)
Record eco_info : Type := {
  base_fitness : list Double.t;
  extra_fitnesses : list (list Double.t);
  max_extra_fit : list Double.t;
  max_count : list nat
}.

Definition eco_init (size num_extra : nat) : eco_info :=
  {| base_fitness := replicate size Double.zero;
     extra_fitnesses := replicate num_extra (replicate size Double.zero);
     max_extra_fit := replicate num_extra Double.zero;
     max_count := replicate num_extra 0%nat |}.

(** The body of [for (ex_id < extra_funs.size())] in the collection
    loop, for organism [org_id] whose value for the function is
    [cur_fit]. *)
Definition eco_collect_extra (org_id : nat) (cur_fit : Double.t)
  (info : eco_info) (ex_id : nat) : eco_info :=
  let extra :=
    <[ex_id := <[org_id := cur_fit]> (extra_fitnesses info !!! ex_id)]>
      (extra_fitnesses info) in
  if Double.ltb (max_extra_fit info !!! ex_id) cur_fit then
    {| base_fitness := base_fitness info;
       extra_fitnesses := extra;
       max_extra_fit := <[ex_id := cur_fit]> (max_extra_fit info);
       max_count := <[ex_id := 1%nat]> (max_count info) |}
  else if Double.eqb cur_fit (max_extra_fit info !!! ex_id) then
    {| base_fitness := base_fitness info;
       extra_fitnesses := extra;
       max_extra_fit := max_extra_fit info;
       max_count := <[ex_id := S (max_count info !!! ex_id)]> (max_count info) |}
  else
    {| base_fitness := base_fitness info;
       extra_fitnesses := extra;
       max_extra_fit := max_extra_fit info;
       max_count := max_count info |}.

(** The body of [for (org_id < world.GetSize())] in the collection loop. *)
Definition eco_collect_org (w : W) (extra_funs : list (ORG -> Double.t))
  (info : eco_info) (org_id : nat) : eco_info :=
  let info1 :=
    {| base_fitness := <[org_id := CalcFitnessID w org_id]> (base_fitness info);
       extra_fitnesses := extra_fitnesses info;
       max_extra_fit := max_extra_fit info;
       max_count := max_count info |} in
  foldl (fun info ex_id =>
           match extra_funs !! ex_id with
           | Some f => eco_collect_extra org_id (f (GetOrg w org_id)) info ex_id
           | None => info
           end)
        info1 (seq 0 (length extra_funs)).

Definition eco_collect (w : W) (extra_funs : list (ORG -> Double.t)) : eco_info :=
  foldl (eco_collect_org w extra_funs)
        (eco_init (GetSize w) (length extra_funs)) (seq 0 (GetSize w)).

(** The body of the loop that hands out the bonus of function [ex_id];
    [None] is the out-of-range read of [pool_sizes]. *)
Definition eco_readjust (info : eco_info) (pool_sizes : list Double.t)
  (base : option (list Double.t)) (ex_id : nat) : option (list Double.t) :=
  match base with
  | None => None
  | Some base =>
      if (max_count info !!! ex_id =? 0)%nat then Some base
      else
        match pool_sizes !! ex_id with
        | None => None
        | Some pool =>
            let cur_bonus :=
              Double.div pool (Double.of_Z (Z.of_nat (max_count info !!! ex_id))) in
            Some (imap (fun org_id b =>
                          if Double.eqb ((extra_fitnesses info !!! ex_id) !!! org_id)
                                        (max_extra_fit info !!! ex_id)
                          then Double.add b cur_bonus else b)
                       base)
        end
  end.

(** [base_fitness] as the tournaments of [EcoSelect] see it. *)
Definition eco_fitness (w : W) (extra_funs : list (ORG -> Double.t))
  (pool_sizes : list Double.t) : option (list Double.t) :=
  let info := eco_collect w extra_funs in
  foldl (eco_readjust info pool_sizes) (Some (base_fitness info))
        (seq 0 (length extra_funs)).

(** For stating what the two loops compute: the values of one
    supplemental function over the population, the number of organisms
    whose value equals [v], and the running maximum and tie count after
    one more value. *)
Definition extra_values (w : W) (f : ORG -> Double.t) : list Double.t :=
  map (fun org_id => f (GetOrg w org_id)) (seq 0 (GetSize w)).

Definition num_tied (vals : list Double.t) (v : Double.t) : nat :=
  length (List.filter (fun u => Double.eqb u v) vals).

Definition scan_step (st : Double.t * nat) (v : Double.t) : Double.t * nat :=
  if Double.ltb (fst st) v then (v, 1%nat)
  else if Double.eqb v (fst st) then (fst st, S (snd st))
  else st.

(** The adjusted fitness as the design document describes it, for
    comparison with [eco_fitness]: a function is rewarded when its value
    is at least 0 for some organism (the amendment C3 needs: the running
    maximum of the code starts from 0.0); an organism is best when no
    organism has a greater value; the share is the pool size divided by
    the number of organisms tied with it; and the fitness of an organism
    is [CalcFitnessID] plus, function after function, its share of every
    rewarded function it is best at. *)
Definition eco_rewarded (w : W) (f : ORG -> Double.t) : bool :=
  existsb (fun org_id => Double.leb Double.zero (f (GetOrg w org_id)))
          (seq 0 (GetSize w)).

Definition eco_is_best (w : W) (f : ORG -> Double.t) (org_id : nat) : bool :=
  forallb (fun other => Double.leb (f (GetOrg w other)) (f (GetOrg w org_id)))
          (seq 0 (GetSize w)).

Definition eco_share (w : W) (f : ORG -> Double.t) (pool : Double.t) (org_id : nat)
  : Double.t :=
  Double.div pool
    (Double.of_Z (Z.of_nat (num_tied (extra_values w f) (f (GetOrg w org_id))))).

Definition eco_adjusted (w : W) (extra_funs : list (ORG -> Double.t))
  (pool_sizes : list Double.t) (org_id : nat) : Double.t :=
  foldl (fun b fp =>
           if eco_rewarded w (fst fp) && eco_is_best w (fst fp) org_id
           then Double.add b (eco_share w (fst fp) (snd fp) org_id)
           else b)
        (CalcFitnessID w org_id) (zip extra_funs pool_sizes).

Definition eco_view (info : eco_info) (ex_id : nat)
  : Double.t * nat * list Double.t :=
  (max_extra_fit info !!! ex_id, max_count info !!! ex_id,
   extra_fitnesses info !!! ex_id).

Definition eco_wf (size num_extra : nat) (info : eco_info) : Prop :=
  length (base_fitness info) = size /\
  length (extra_fitnesses info) = num_extra /\
  length (max_extra_fit info) = num_extra /\
  length (max_count info) = num_extra.

Definition eco_tournament (base_fitness : list Double.t) (t_size : nat) : M unit :=
  let* entries := draw_entries t_size in
  if forallb (fun e => (e <? length base_fitness)%nat) entries then
    match tournament_winner (fun id => base_fitness !!! id) entries with
    | None => fun w => Aborted w
    | Some best_id =>
        let* g := ask (fun w => GetGenomeAt w best_id) in
        let* _ := call (DoBirth g best_id 1) in
        ret tt
    end
  else fun w => Aborted w.

Definition EcoSelect (extra_funs : list (ORG -> Double.t))
  (pool_sizes : list Double.t) (t_size tourny_count : nat) : M unit :=
  let* has_fit := ask GetFitFun in
  let* _ := emp_assert has_fit in
  let* size := ask GetSize in
  let* _ := emp_assert (0 <? size)%nat in
  let* _ := emp_assert ((0 <? t_size)%nat && (t_size <=? size)%nat) in
  let* cache := ask IsCacheOn in
  let* _ := (if cache then act ClearCache else ret tt) in
  let* fitness := ask (fun w => eco_fitness w extra_funs pool_sizes) in
  match fitness with
  | None => fun w => Aborted w
  | Some base_fitness =>
      for_range tourny_count (fun _ _ => eco_tournament base_fitness t_size) tt
  end.

(** [EcoSelect] with one pool size for every function. *)
Definition EcoSelect_uniform (extra_funs : list (ORG -> Double.t))
  (pool_sizes : Double.t) (t_size tourny_count : nat) : M unit :=
  EcoSelect extra_funs (replicate (length extra_funs) pool_sizes) t_size tourny_count.

(** *** MAP-Elites *)

Definition MapElitesPhenotype_OK (p : MapElitesPhenotype ORG) : bool :=
  match pheno_fun p with
  | Some _ => negb (id_count p =? 0)%nat
  | None => false
  end.

Definition MapElitesConfig_OK (phenotypes : list (MapElitesPhenotype ORG)) : bool :=
  forallb MapElitesPhenotype_OK phenotypes.

(** The mixed-radix id of the design document,
    [id = sum of classifier_i(org) * product of the earlier bucket
    counts], over the natural numbers, for comparison with the [size_t]
    code below; [None] when a phenotype function is empty or classifies
    the organism at or above its [id_count]. *)
Definition MapElitesConfig_GetID (phenotypes : list (MapElitesPhenotype ORG))
  (org : ORG) : option nat :=
  match
    foldl (fun acc p =>
             match acc, pheno_fun p with
             | Some (id, scale), Some f =>
                 let pid := f org in
                 if (pid <? id_count p)%nat
                 then Some (id + pid * scale, scale * id_count p)%nat
                 else None
             | _, _ => None
             end)
          (Some (0%nat, 1%nat)) phenotypes
  with
  | Some (id, _) => Some id
  | None => None
  end.

Definition MapElitesConfig_GetIDCount (phenotypes : list (MapElitesPhenotype ORG))
  : nat :=
  foldl (fun n p => (n * id_count p)%nat) 1%nat phenotypes.

(** [MapElitesConfig::GetID] and [MapElitesConfig::GetIDCount] as the
    source has them: [id], [scale] and the running product are [size_t],
    64-bit words, and [+=] and [*=] wrap.  [None] is an empty phenotype
    function or a failed assertion [id < id_count]. *)
Definition size_t (x : Z) : Z := x mod 2 ^ 64.

Definition MapElitesConfig_GetID_size_t (phenotypes : list (MapElitesPhenotype ORG))
  (org : ORG) : option Z :=
  match
    foldl (fun acc p =>
             match acc, pheno_fun p with
             | Some (id, scale), Some f =>
                 let pid := f org in
                 if (pid <? id_count p)%nat
                 then Some (size_t (id + size_t (Z.of_nat pid * scale)),
                            size_t (scale * Z.of_nat (id_count p)))
                 else None
             | _, _ => None
             end)
          (Some (0%Z, 1%Z)) phenotypes
  with
  | Some (id, _) => Some id
  | None => None
  end.

Definition MapElitesConfig_GetIDCount_size_t
  (phenotypes : list (MapElitesPhenotype ORG)) : Z :=
  foldl (fun n p => size_t (n * Z.of_nat (id_count p))) 1%Z phenotypes.

Definition MapElitesSeed (config : list (MapElitesPhenotype ORG)) (org : ORG)
  : M unit :=
  let* size := ask GetSize in
  let* _ := emp_assert (0 <? size)%nat in
  let* _ := emp_assert (MapElitesConfig_OK config) in
  ret tt.

Definition MapElitesGrow (config : list (MapElitesPhenotype ORG))
  (repro_count : nat) : M unit :=
  let* size := ask GetSize in
  let* _ := emp_assert (0 <? size)%nat in
  let* _ := emp_assert (MapElitesConfig_OK config) in
  ret tt.

End Selection.
End WorldSelect.

(** ** A concrete population *)

(** Modelled from the spec: [emp::World] is not among the sources.  This
    is a small population with the interface of section 6 of the design
    document, used to run the selection schemes on concrete inputs: an
    organism is its genome (an integer), the world keeps a fitness value
    per slot, offspring of a synchronous world go to a next-generation
    buffer and offspring of an asynchronous one into the first free slot
    (or a new one), inheriting the parent's fitness value. *)
Module Population.
Import WorldSelect.

Record t : Type := {
  slots : list (option Z);
  slot_fitness : list Double.t;
  rng : Random.t;
  synchronous : bool;
  cache_on : bool;
  next_pop : list Z;
  births : list (nat * nat);     (* parent id and copy count of each DoBirth *)
  lexicase_log : list (list nat * Z)  (* what OnLexicaseSelect was told *)
}.

Definition occupied (w : t) (id : nat) : bool :=
  match slots w !! id with
  | Some (Some _) => true
  | _ => false
  end.

Definition genome_at (w : t) (id : nat) : Z :=
  match slots w !! id with
  | Some (Some g) => g
  | _ => 0%Z
  end.

Definition set_rng (r : Random.t) (w : t) : t :=
  {| slots := slots w; slot_fitness := slot_fitness w; rng := r;
     synchronous := synchronous w; cache_on := cache_on w;
     next_pop := next_pop w; births := births w;
     lexicase_log := lexicase_log w |}.

(** Uniform slot ids until an occupied one comes up. *)
Fixpoint random_org_id (fuel : nat) (w : t) : nat * t :=
  match fuel with
  | O => (0%nat, w)
  | S fuel' =>
      let (pos, r1) := Random.GetUInt (Z.of_nat (length (slots w))) (rng w) in
      let w1 := set_rng r1 w in
      if occupied w1 (Z.to_nat pos) then (Z.to_nat pos, w1)
      else random_org_id fuel' w1
  end.

Fixpoint first_free (l : list (option Z)) : nat :=
  match l with
  | None :: _ => 0%nat
  | Some _ :: l' => S (first_free l')
  | [] => 0%nat
  end.

Definition place (genome : Z) (f : Double.t) (w : t) : nat * t :=
  if synchronous w then
    (length (next_pop w),
     {| slots := slots w; slot_fitness := slot_fitness w; rng := rng w;
        synchronous := synchronous w; cache_on := cache_on w;
        next_pop := next_pop w ++ [genome]; births := births w;
        lexicase_log := lexicase_log w |})
  else
    let id := first_free (slots w) in
    (id,
     {| slots := if decide (id < length (slots w))%nat
                 then <[id := Some genome]> (slots w)
                 else slots w ++ [Some genome];
        slot_fitness := IndexMap.Adjust id f (slot_fitness w);
        rng := rng w; synchronous := synchronous w; cache_on := cache_on w;
        next_pop := next_pop w; births := births w;
     lexicase_log := lexicase_log w |}).

Fixpoint place_copies (count : nat) (genome : Z) (f : Double.t) (last : nat) (w : t)
  : nat * t :=
  match count with
  | O => (last, w)
  | S count' =>
      let (id, w1) := place genome f w in
      place_copies count' genome f id w1
  end.

Definition do_birth (genome : Z) (parent_id copy_count : nat) (w : t) : nat * t :=
  let f := slot_fitness w !!! parent_id in
  let (id, w1) := place_copies copy_count genome f 0%nat w in
  (id,
   {| slots := slots w1; slot_fitness := slot_fitness w1; rng := rng w1;
      synchronous := synchronous w1; cache_on := cache_on w1;
      next_pop := next_pop w1;
      births := births w1 ++ [(parent_id, copy_count)];
      lexicase_log := lexicase_log w1 |}).

Definition on_lexicase_select (used : list nat) (repro_id : Z) (w : t) : t :=
  {| slots := slots w; slot_fitness := slot_fitness w; rng := rng w;
     synchronous := synchronous w; cache_on := cache_on w;
     next_pop := next_pop w; births := births w;
     lexicase_log := lexicase_log w ++ [(used, repro_id)] |}.

#[global] Instance world : World t Z Z := {|
  GetSize := fun w => length (slots w);
  GetNumOrgs := fun w => length (filter (fun s => is_Some s) (slots w));
  IsOccupied := occupied;
  GetOrg := genome_at;
  GetGenomeAt := genome_at;
  genome_eqb := Z.eqb;
  CalcFitnessID := fun w id => slot_fitness w !!! id;
  GetFitFun := fun _ => true;
  IsCacheOn := cache_on;
  ClearCache := fun w => w;
  IsSynchronous := synchronous;
  GetRandom := rng;
  SetRandom := set_rng;
  GetRandomOrgID := random_org_id 64;
  DoBirth := do_birth;
  TriggerOnLexicaseSelect := on_lexicase_select
|}.

(** The permutation drawn for the concrete runs: the identity, leaving
    the generator as it is. *)
Definition identity_permutation (r : Random.t) (n : nat) : list nat * Random.t :=
  (seq 0 n, r).

Definition make (slots : list (option Z)) (slot_fitness : list Double.t)
  (seed : Z) (synchronous : bool) : t :=
  {| slots := slots; slot_fitness := slot_fitness;
     rng := Random.new 0 0 seed; synchronous := synchronous;
     cache_on := false; next_pop := []; births := []; lexicase_log := [] |}.

Definition dbl (n : Z) : Double.t := Double.mk n 0.

(** Two organisms in a synchronous world; the one in slot 0 is the
    fitter. *)
Definition two_orgs : t := make [Some 10%Z; Some 20%Z] [dbl 2; dbl 1] 1 true.


(** Fitness functions on the integer genomes. *)
Definition by_genome (g : Z) : Double.t := dbl g.
Definition by_distance (g : Z) : Double.t := dbl (30 - g).
Definition negated (g : Z) : Double.t := dbl (- g).

End Population.

(** * Properties *)

(** ** Rounding and comparison of doubles *)

Module DoubleFacts.
Import Double.
Local Open Scope Z_scope.

Lemma round53_small (m : Z) : 0 <= m < 2 ^ 53 -> round53 m = m.
Proof.
  intros [H0 H1]. unfold round53.
  destruct (Z.eq_dec m 0) as [->|Hm]; [reflexivity|].
  assert (Z.log2 m < 53) by (apply Z.log2_lt_pow2; lia).
  destruct (Z.leb_spec (Z.log2 m - 52) 0); [reflexivity | lia].
Qed.

Lemma round53_shift (m t : Z) :
  0 <= m < 2 ^ 53 -> 0 <= t -> round53 (m * 2 ^ t) = m * 2 ^ t.
Proof.
  intros [H0 H1] Ht. unfold round53. cbv zeta.
  destruct (Z.leb_spec (Z.log2 (m * 2 ^ t) - 52) 0) as [|He]; [reflexivity|].
  destruct (Z.eq_dec m 0) as [->|Hm]; [rewrite Z.mul_0_l in He; simpl in He; lia|].
  rewrite Z.log2_mul_pow2 in * by lia.
  assert (Z.log2 m < 53) by (apply Z.log2_lt_pow2; lia).
  set (e := t + Z.log2 m - 52) in *.
  assert (Hsplit : m * 2 ^ t = m * 2 ^ (t - e) * 2 ^ e).
  { rewrite <- Z.mul_assoc, <- Z.pow_add_r by lia. f_equal. f_equal. lia. }
  assert (Hpos : 0 < 2 ^ e) by (apply Z.pow_pos_nonneg; lia).
  assert (Hr : (m * 2 ^ t) mod 2 ^ e = 0) by (rewrite Hsplit; apply Z.mod_mul; lia).
  assert (Hq : (m * 2 ^ t) / 2 ^ e = m * 2 ^ (t - e)) by (rewrite Hsplit; apply Z.div_mul; lia).
  rewrite Hr, Hq.
  assert (0 < 2 ^ (e - 1)) by (apply Z.pow_pos_nonneg; lia).
  destruct (Z.ltb_spec 0 (2 ^ (e - 1))); [|lia].
  symmetry; exact Hsplit.
Qed.

(** Rounding commutes with scaling by a power of two. *)
Lemma round53_scale (m t : Z) :
  0 <= m -> 0 <= t -> round53 (m * 2 ^ t) = round53 m * 2 ^ t.
Proof.
  intros Hm Ht.
  destruct (Z.eq_dec m 0) as [->|Hm0]; [reflexivity|].
  destruct (Z_lt_le_dec m (2 ^ 53)) as [Hsmall | Hbig].
  { rewrite round53_shift, round53_small by lia. reflexivity. }
  assert (Hlog : 53 <= Z.log2 m) by (apply Z.log2_le_pow2; lia).
  unfold round53. cbv zeta. rewrite Z.log2_mul_pow2 by lia.
  destruct (Z.leb_spec (t + Z.log2 m - 52) 0) as [|_]; [lia|].
  destruct (Z.leb_spec (Z.log2 m - 52) 0) as [|_]; [lia|].
  set (e := Z.log2 m - 52) in *.
  replace (t + Z.log2 m - 52) with (e + t) by lia.
  replace (e + t - 1) with ((e - 1) + t) by lia.
  rewrite !Z.pow_add_r by lia.
  assert (HT : 0 < 2 ^ t) by (apply Z.pow_pos_nonneg; lia).
  assert (HE : 0 < 2 ^ e) by (apply Z.pow_pos_nonneg; lia).
  assert (HH : 0 < 2 ^ (e - 1)) by (apply Z.pow_pos_nonneg; lia).
  rewrite Z.div_mul_cancel_r by lia.
  rewrite Z.mul_mod_distr_r by lia.
  set (q := m / 2 ^ e). set (r := m mod 2 ^ e). set (h := 2 ^ (e - 1)) in *.
  assert (Hlt : (r * 2 ^ t <? h * 2 ^ t) = (r <? h)).
  { destruct (Z.ltb_spec r h), (Z.ltb_spec (r * 2 ^ t) (h * 2 ^ t)); try reflexivity; nia. }
  assert (Hgt : (h * 2 ^ t <? r * 2 ^ t) = (h <? r)).
  { destruct (Z.ltb_spec h r), (Z.ltb_spec (h * 2 ^ t) (r * 2 ^ t)); try reflexivity; nia. }
  rewrite Hlt, Hgt.
  destruct (r <? h); [ring|]. destruct (h <? r); [ring|]. destruct (Z.even q); ring.
Qed.

Lemma round53_nonneg (m : Z) : 0 <= m -> 0 <= round53 m.
Proof.
  intros Hm. unfold round53. cbv zeta.
  destruct (Z.leb_spec (Z.log2 m - 52) 0) as [|He]; [assumption|].
  set (e := Z.log2 m - 52) in *.
  assert (0 < 2 ^ e) by (apply Z.pow_pos_nonneg; lia).
  assert (0 <= m / 2 ^ e) by (apply Z.div_pos; lia).
  repeat match goal with |- context [if ?b then _ else _] => destruct b end; nia.
Qed.

Lemma round53_upper (m : Z) :
  0 <= m -> 2 ^ 53 * round53 m <= (2 ^ 53 + 1) * m.
Proof.
  intros Hm. unfold round53. cbv zeta.
  destruct (Z.leb_spec (Z.log2 m - 52) 0) as [|He]; [lia|].
  set (e := Z.log2 m - 52) in *.
  assert (Hm0 : 0 < m).
  { destruct (Z.eq_dec m 0) as [->|]; [simpl in e; lia | lia]. }
  destruct (Z.log2_spec m Hm0) as [Hlo _].
  replace (Z.log2 m) with ((e - 1) + 53) in Hlo by lia.
  rewrite Z.pow_add_r in Hlo by lia.
  assert (HE : 2 ^ e = 2 * 2 ^ (e - 1)).
  { replace e with (1 + (e - 1)) at 1 by lia. rewrite Z.pow_add_r by lia. reflexivity. }
  assert (Hh : 0 < 2 ^ (e - 1)) by (apply Z.pow_pos_nonneg; lia).
  pose proof (Z.div_mod m (2 ^ e) ltac:(lia)) as Hdm.
  pose proof (Z.mod_pos_bound m (2 ^ e) ltac:(lia)) as Hr.
  set (q := m / 2 ^ e) in *. set (r := m mod 2 ^ e) in *.
  set (h := 2 ^ (e - 1)) in *.
  rewrite HE in *. change (2 ^ 53) with 9007199254740992 in *.
  destruct (Z.ltb_spec r h); [nia|].
  destruct (Z.ltb_spec h r); [nia|].
  destruct (Z.even q); nia.
Qed.

Lemma sgn_mul_abs (a : Z) : Z.sgn a * Z.abs a = a.
Proof. destruct a; reflexivity. Qed.

Lemma rnd_shift (m t e : Z) :
  Z.abs m < 2 ^ 53 -> 0 <= t -> rnd (mk (m * 2 ^ t) e) = mk (m * 2 ^ t) e.
Proof.
  intros Hm Ht. unfold rnd; simpl. f_equal.
  assert (0 < 2 ^ t) by (apply Z.pow_pos_nonneg; lia).
  rewrite Z.abs_mul, (Z.abs_eq (2 ^ t)) by lia.
  rewrite round53_shift by lia.
  replace (Z.abs m * 2 ^ t) with (Z.abs (m * 2 ^ t))
    by (rewrite Z.abs_mul, (Z.abs_eq (2 ^ t)); lia).
  apply sgn_mul_abs.
Qed.

Lemma rnd_small (m e : Z) : Z.abs m < 2 ^ 53 -> rnd (mk m e) = mk m e.
Proof.
  intros Hm. pose proof (rnd_shift m 0 e Hm ltac:(lia)) as H.
  rewrite Z.pow_0_r, Z.mul_1_r in H. exact H.
Qed.

Lemma of_Z_small (n : Z) : Z.abs n < 2 ^ 53 -> of_Z n = mk n 0.
Proof. apply rnd_small. Qed.

Lemma ltb_lt (a b : t) : ltb a b = true <-> (value a < value b)%Q.
Proof.
  unfold ltb. rewrite negb_true_iff, <- not_true_iff_false, Qle_bool_iff.
  split; [apply Qnot_le_lt | apply Qlt_not_le].
Qed.

Lemma leb_le (a b : t) : leb a b = true <-> (value a <= value b)%Q.
Proof. apply Qle_bool_iff. Qed.

Lemma eqb_eq (a b : t) : eqb a b = true <-> (value a == value b)%Q.
Proof. apply Qeq_bool_iff. Qed.

Lemma value_zero : (value zero == 0)%Q.
Proof. reflexivity. Qed.

Lemma value_one : (value one == 1)%Q.
Proof. reflexivity. Qed.

Lemma value_int (n : Z) : (value (mk n 0) == inject_Z n)%Q.
Proof. unfold value; simpl. ring. Qed.

Lemma ltb_ge (a b : t) : ltb a b = false <-> (value b <= value a)%Q.
Proof. unfold ltb. rewrite negb_false_iff. apply Qle_bool_iff. Qed.

(** Dividing by a power of two is exact: only the exponent moves. *)
Lemma div_pow2_form (p : t) (j : Z) :
  normal p -> 0 <= j ->
  exists k, 0 <= k /\ div p (mk (2 ^ j) 0) = mk (mant p * 2 ^ k) (expo p - j - k).
Proof.
  intros Hp Hj. unfold normal in Hp. destruct p as [m e]. cbn [mant expo] in *.
  unfold div; cbn [mant expo].
  assert (Hpow : 0 < 2 ^ j) by (apply Z.pow_pos_nonneg; lia).
  rewrite (Z.abs_eq (2 ^ j)), (Z.sgn_pos (2 ^ j)), Z.log2_pow2 by lia.
  assert (Hlg : 0 <= Z.log2 (Z.abs m) < 53).
  { split; [apply Z.log2_nonneg|].
    destruct (Z.eq_dec (Z.abs m) 0) as [->|]; [reflexivity|].
    apply Z.log2_lt_pow2; lia. }
  rewrite Z.max_r by lia.
  set (sh := 56 + j - Z.log2 (Z.abs m)).
  assert (Hsplit : Z.abs m * 2 ^ sh = Z.abs m * 2 ^ (sh - j) * 2 ^ j).
  { rewrite <- Z.mul_assoc, <- Z.pow_add_r by lia. do 2 f_equal. lia. }
  rewrite Hsplit, Z.mod_mul, Z.div_mul by lia. simpl (if 0 =? 0 then 0 else 1).
  exists (sh - j + 1). split; [lia|].
  replace (Z.sgn m * 1 * (2 * (Z.abs m * 2 ^ (sh - j)) + 0)) with (m * 2 ^ (sh - j + 1)).
  2:{ rewrite Z.pow_add_r by lia. rewrite <- (sgn_mul_abs m) at 1. ring. }
  replace (e - 0 - sh - 1) with (e - j - (sh - j + 1)) by lia.
  apply rnd_shift; lia.
Qed.

Lemma div_pow2_value (p : t) (j : Z) :
  normal p -> 0 <= j ->
  (value (div p (mk (2 ^ j) 0)) == value p / inject_Z (2 ^ j))%Q.
Proof.
  intros Hp Hj. destruct (div_pow2_form p j Hp Hj) as (k & Hk & ->).
  unfold value; cbn [mant expo].
  replace (expo p - j - k) with (expo p + (- (k + j))) by lia.
  rewrite inject_Z_mult, Qpower_plus, Qpower_opp, Qpower_plus by discriminate.
  rewrite (Zpower_Qpower 2 k), (Zpower_Qpower 2 j) by assumption.
  change (inject_Z 2) with 2%Q.
  assert (Hx : ~ (2 ^ k == 0)%Q) by (apply Qpower_not_0; discriminate).
  assert (Hy : ~ (2 ^ j == 0)%Q) by (apply Qpower_not_0; discriminate).
  set (x := (2 ^ k)%Q) in *. set (y := (2 ^ j)%Q) in *. set (z := (2 ^ expo p)%Q).
  clearbody x y z. field. split; assumption.
Qed.

End DoubleFacts.

Module RandomFacts.
Import Random DoubleFacts.
Local Open Scope Z_scope.

Lemma uint32_range (x : Z) : 0 <= uint32 x < 2 ^ 32.
Proof. unfold uint32. apply Z.mod_pos_bound. lia. Qed.

Lemma Get_range (r : t) : 0 <= fst (Get r) < 2 ^ 32.
Proof. unfold Get; simpl. apply uint32_range. Qed.

Lemma of_Z_draw (g : Z) : 0 <= g < 2 ^ 32 -> Double.of_Z g = Double.mk g 0.
Proof. intros Hg. apply of_Z_small. lia. Qed.

Lemma of_Z_RAND_CAP : Double.of_Z RAND_CAP = Double.mk RAND_CAP 0.
Proof. reflexivity. Qed.

(** The threshold [p * RAND_CAP] of [P] is computed without rounding. *)
Lemma threshold_exact (p : Double.t) :
  Double.normal p ->
  Double.mul p (Double.of_Z RAND_CAP)
  = Double.mk (Double.mant p * 2 ^ 32) (Double.expo p + 0).
Proof.
  intros Hp. rewrite of_Z_RAND_CAP. unfold Double.mul; simpl Double.mant; simpl Double.expo.
  change RAND_CAP with (2 ^ 32). apply rnd_shift; [exact Hp | lia].
Qed.

Lemma value_threshold (p : Double.t) :
  (Double.value (Double.mk (Double.mant p * 2 ^ 32) (Double.expo p + 0))
   == Double.value p * inject_Z RAND_CAP)%Q.
Proof.
  unfold Double.value; simpl Double.mant; simpl Double.expo.
  rewrite Z.add_0_r, inject_Z_mult. change (inject_Z (2 ^ 32)) with (inject_Z RAND_CAP).
  ring.
Qed.

(** [Get() / (double) RAND_CAP] is exact: the quotient is the draw scaled
    by [2^-32]. *)
Lemma GetDouble_form (r : t) :
  exists k, 0 <= k /\
    fst (GetDouble r) = Double.mk (fst (Get r) * 2 ^ k) (- (k + 32)) /\
    snd (GetDouble r) = snd (Get r).
Proof.
  unfold GetDouble. pose proof (Get_range r) as Hg.
  destruct (Get r) as [g r1]. cbn [fst snd] in *.
  rewrite of_Z_draw, of_Z_RAND_CAP by assumption.
  destruct (div_pow2_form (Double.mk g 0) 32) as (k & Hk & Hdiv);
    [unfold Double.normal; cbn; lia | lia |].
  exists k. split; [exact Hk|]. split; [|reflexivity].
  change RAND_CAP with (2 ^ 32). rewrite Hdiv. cbn [Double.mant Double.expo].
  f_equal. lia.
Qed.

Lemma GetDouble_value (r : t) :
  (Double.value (fst (GetDouble r)) == inject_Z (fst (Get r)) / inject_Z RAND_CAP)%Q.
Proof.
  destruct (GetDouble_form r) as (k & Hk & -> & _).
  generalize (fst (Get r)); intros g.
  unfold Double.value; cbn [Double.mant Double.expo].
  rewrite inject_Z_mult, Qpower_opp, Qpower_plus by discriminate.
  rewrite (Zpower_Qpower 2 k) by assumption.
  change (inject_Z 2) with 2%Q. change (inject_Z RAND_CAP) with (2 ^ 32)%Q.
  assert (Hx : ~ (2 ^ k == 0)%Q) by (apply Qpower_not_0; discriminate).
  set (x := (2 ^ k)%Q) in *. clearbody x.
  field. exact Hx.
Qed.

(** [GetDouble(max)] in the arithmetic of [Double]: the product of the
    uniform double and a positive [max], rounded to 53 significant bits,
    is below [max]. *)
Lemma GetDouble_max_below (max : Double.t) (r : t) :
  (0 < Double.value max)%Q ->
  (0 <= Double.value (fst (GetDouble_max max r)) < Double.value max)%Q /\
  snd (GetDouble_max max r) = snd (Get r).
Proof.
  intros Hmax. pose proof (Get_range r) as Hg. unfold GetDouble_max.
  destruct (GetDouble_form r) as (k & Hk & Hd & Hs).
  destruct (GetDouble r) as [d r1]. cbn [fst snd] in *. subst d. split; [|exact Hs].
  set (g := fst (Get r)) in *. clearbody g.
  destruct max as [m e]. unfold Double.value in Hmax. cbn [Double.mant Double.expo] in Hmax.
  assert (Hpow : forall z, (0 < 2 ^ z)%Q) by (intros z; apply Qpower_0_lt; reflexivity).
  assert (Hm : 0 < m).
  { destruct (Z_lt_le_dec 0 m) as [|Hle]; [assumption|]. exfalso.
    apply (Qlt_not_le _ _ Hmax).
    assert (Hneg : (inject_Z m * 2 ^ e <= 0 * 2 ^ e)%Q).
    { apply Qmult_le_compat_r; [|apply Qlt_le_weak, Hpow].
      change 0%Q with (inject_Z 0). rewrite <- Zle_Qle. exact Hle. }
    rewrite Qmult_0_l in Hneg. exact Hneg. }
  unfold Double.mul, Double.rnd, Double.value. cbn [Double.mant Double.expo].
  assert (HX : 0 < 2 ^ k) by (apply Z.pow_pos_nonneg; lia).
  set (M := g * 2 ^ k * m).
  assert (HM : 0 <= M) by (unfold M; nia).
  rewrite (Z.abs_eq M) by assumption.
  pose proof (round53_nonneg M HM) as Hr0.
  pose proof (round53_upper M HM) as Hr1.
  assert (Hmant : Z.sgn M * Double.round53 M = Double.round53 M).
  { destruct (Z.eq_dec M 0) as [->|]; [reflexivity|]. rewrite Z.sgn_pos by lia. lia. }
  rewrite Hmant.
  assert (Hlt : Double.round53 M < m * 2 ^ (k + 32)).
  { rewrite Z.pow_add_r by lia.
    assert (M <= (2 ^ 32 - 1) * (2 ^ k * m)) by (unfold M; nia).
    change (2 ^ 53) with 9007199254740992 in *.
    change (2 ^ 32) with 4294967296 in *. nia. }
  split.
  - apply Qmult_le_0_compat; [|apply Qlt_le_weak, Hpow].
    change 0%Q with (inject_Z 0). rewrite <- Zle_Qle. exact Hr0.
  - assert (He : (2 ^ e == 2 ^ (k + 32) * 2 ^ (- (k + 32) + e))%Q).
    { rewrite <- Qpower_plus by discriminate.
      replace (k + 32 + (- (k + 32) + e)) with e by lia. reflexivity. }
    rewrite He. rewrite Qmult_assoc. apply Qmult_lt_compat_r; [apply Hpow|].
    rewrite <- (Zpower_Qpower 2 (k + 32)) by lia.
    change (inject_Z 2) with 2%Q. rewrite <- inject_Z_mult, <- Zlt_Qlt. exact Hlt.
Qed.

End RandomFacts.

Module RandomSpec.
Import Random DoubleFacts RandomFacts.
Local Open Scope Z_scope.

Lemma P_accepts (p : Double.t) (r : t) :
  (0 <= Double.value p <= 1)%Q ->
  P p r = Done (Double.ltb (Double.of_Z (fst (Get r)))
                  (Double.mul p (Double.of_Z RAND_CAP))) (snd (Get r)).
Proof.
  intros [H0 H1]. unfold P.
  assert (Hc : Double.leb Double.zero p && Double.leb p Double.one = true).
  { apply andb_true_iff; split; apply leb_le.
    - rewrite value_zero; exact H0.
    - rewrite value_one; exact H1. }
  rewrite Hc. destruct (Get r); reflexivity.
Qed.

Lemma P_rejects (p : Double.t) (r : t) :
  (Double.value p < 0 \/ 1 < Double.value p)%Q -> P p r = Aborted r.
Proof.
  intros H. unfold P.
  assert (Hc : Double.leb Double.zero p && Double.leb p Double.one = false).
  { apply andb_false_iff. destruct H as [H|H]; [left|right];
      apply not_true_iff_false; rewrite leb_le; apply Qlt_not_le.
    - rewrite value_zero; exact H.
    - rewrite value_one; exact H. }
  rewrite Hc. reflexivity.
Qed.

Lemma ltb_threshold (p : Double.t) (r : t) :
  Double.normal p ->
  Double.ltb (Double.of_Z (fst (Get r))) (Double.mul p (Double.of_Z RAND_CAP)) = true
  <-> (inject_Z (fst (Get r)) < Double.value p * inject_Z RAND_CAP)%Q.
Proof.
  intros Hn. rewrite ltb_lt, threshold_exact, value_threshold by assumption.
  rewrite of_Z_draw by apply Get_range. rewrite value_int. reflexivity.
Qed.

(** C5. For a probability [p] in [0,1], [P(p)] passes its assertion,
    consumes exactly one raw draw, and answers [true] exactly when that
    draw is strictly below [p * 2^32] (as exact numbers); hence [P(0.0)]
    is always [false] and [P(1.0)] always [true], whatever the generator
    state. *)
Theorem P_threshold (r : t) :
  (forall p : Double.t,
      Double.normal p -> (0 <= Double.value p <= 1)%Q ->
      exists b : bool,
        P p r = Done b (snd (Get r)) /\
        (b = true <->
         (inject_Z (fst (Get r)) < Double.value p * inject_Z RAND_CAP)%Q))
  /\ P Double.zero r = Done false (snd (Get r))
  /\ P Double.one r = Done true (snd (Get r)).
Proof.
  split; [|split].
  - intros p Hn H01. eexists. split; [apply P_accepts; exact H01|].
    apply ltb_threshold; exact Hn.
  - rewrite P_accepts by (rewrite value_zero; split; discriminate).
    f_equal. apply not_true_iff_false. rewrite ltb_threshold by (vm_compute; reflexivity).
    rewrite value_zero. apply Qle_not_lt.
    rewrite Qmult_0_l. change 0%Q with (inject_Z 0). rewrite <- Zle_Qle. apply Get_range.
  - rewrite P_accepts by (rewrite value_one; split; discriminate).
    f_equal. rewrite ltb_threshold by (vm_compute; reflexivity).
    rewrite value_one, Qmult_1_l. rewrite <- Zlt_Qlt. apply Get_range.
Qed.



Lemma P_threshold_witness :
  exists b : bool,
    P half (new 0 0 1) = Done b (snd (Get (new 0 0 1))) /\
    (b = true <->
     (inject_Z (fst (Get (new 0 0 1))) < Double.value half * inject_Z RAND_CAP)%Q).
Proof.
  apply (proj1 (P_threshold (new 0 0 1)) half).
  - vm_compute; reflexivity.
  - split; vm_compute; discriminate.
Defined.

Lemma scaled_trunc_bound (g k n : Z) :
  0 <= g < 2 ^ 32 -> 0 <= k -> 0 < n <= 2 ^ 32 ->
  0 <= Double.trunc (Double.mul (Double.mk (g * 2 ^ k) (- (k + 32))) (Double.of_Z n)) < n.
Proof.
  intros Hg Hk Hn. rewrite of_Z_small by lia.
  unfold Double.mul, Double.rnd, Double.trunc; cbn [Double.mant Double.expo].
  destruct (Z.leb_spec 0 (- (k + 32) + 0)) as [|_]; [lia|].
  replace (- (- (k + 32) + 0)) with (k + 32) by lia.
  assert (HX : 0 < 2 ^ k) by (apply Z.pow_pos_nonneg; lia).
  set (M := g * 2 ^ k * n).
  assert (HM : 0 <= M) by (unfold M; nia).
  rewrite (Z.abs_eq M) by assumption.
  pose proof (round53_nonneg M HM) as Hr0.
  pose proof (round53_upper M HM) as Hr1.
  assert (Hmant : Z.sgn M * Double.round53 M = Double.round53 M).
  { destruct (Z.eq_dec M 0) as [->|]; [reflexivity|]. rewrite Z.sgn_pos by lia. lia. }
  rewrite Hmant.
  assert (Hden : 0 < 2 ^ (k + 32)) by (apply Z.pow_pos_nonneg; lia).
  rewrite Z.quot_div_nonneg by lia.
  split; [apply Z.div_pos; lia|].
  apply Z.div_lt_upper_bound; [lia|].
  rewrite Z.pow_add_r by lia.
  assert (M <= (2 ^ 32 - 1) * (2 ^ k * n)) by (unfold M; nia).
  change (2 ^ 53) with 9007199254740992 in *.
  change (2 ^ 32) with 4294967296 in *.
  nia.
Qed.

(** The integer part of the double product [uniform * n], in integer
    arithmetic: the product of the raw draw and [n], rounded to 53
    significant bits, divided by [2^32] and rounded down. *)
Lemma scaled_trunc_value (g k n : Z) :
  0 <= g < 2 ^ 32 -> 0 <= k -> 0 < n <= 2 ^ 32 ->
  Double.trunc (Double.mul (Double.mk (g * 2 ^ k) (- (k + 32))) (Double.of_Z n))
  = Double.round53 (g * n) / 2 ^ 32.
Proof.
  intros Hg Hk Hn. rewrite of_Z_small by lia.
  unfold Double.mul, Double.rnd, Double.trunc; cbn [Double.mant Double.expo].
  destruct (Z.leb_spec 0 (- (k + 32) + 0)) as [|_]; [lia|].
  replace (- (- (k + 32) + 0)) with (k + 32) by lia.
  assert (HX : 0 < 2 ^ k) by (apply Z.pow_pos_nonneg; lia).
  replace (g * 2 ^ k * n) with (g * n * 2 ^ k) by ring.
  assert (HM : 0 <= g * n) by nia.
  rewrite (Z.abs_eq (g * n * 2 ^ k)) by nia.
  rewrite round53_scale by lia.
  pose proof (round53_nonneg (g * n) HM) as Hr0.
  assert (Hmant : Z.sgn (g * n * 2 ^ k) * (Double.round53 (g * n) * 2 ^ k)
                  = Double.round53 (g * n) * 2 ^ k).
  { destruct (Z.eq_dec (g * n) 0) as [Hz|Hnz].
    - rewrite Hz. reflexivity.
    - rewrite Z.sgn_pos by nia. lia. }
  rewrite Hmant, Z.quot_div_nonneg by nia.
  rewrite Z.pow_add_r, (Z.mul_comm (2 ^ k)) by lia.
  apply Z.div_mul_cancel_r; lia.
Qed.

(** C6. For every [n > 0], [GetUInt(n)] consumes one raw draw [g] and
    returns a value in [[0, n)].  The uniform double it scales is exactly
    [g / 2^32], and for [n] up to [2^32] the value returned is the
    product [g * n], rounded to a double (53 significant bits), divided
    by [2^32] and rounded down.  Whenever [g * n] is below [2^53] -- for
    every [n] up to [2^21] -- nothing is rounded and the value is the
    floor of [uniform_double * n] taken over the rationals. *)
Theorem GetUInt_range (n : Z) (r : t) :
  0 < n ->
  0 <= fst (GetUInt n r) < n /\
  snd (GetUInt n r) = snd (Get r) /\
  (Double.value (fst (GetDouble r))
   == inject_Z (fst (Get r)) / inject_Z RAND_CAP)%Q /\
  (n <= RAND_CAP ->
   fst (GetUInt n r) = Double.round53 (fst (Get r) * n) / 2 ^ 32) /\
  (n <= RAND_CAP -> fst (Get r) * n < 2 ^ 53 ->
   fst (GetUInt n r) = Qfloor (Double.value (fst (GetDouble r)) * inject_Z n)).
Proof.
  intros Hn. pose proof (GetDouble_value r) as Hval.
  destruct (GetDouble_form r) as (k & Hk & Hd & Hs).
  pose proof (Get_range r) as Hg.
  assert (Hform : n <= RAND_CAP ->
                  fst (GetUInt n r) = Double.round53 (fst (Get r) * n) / 2 ^ 32).
  { intros Hcap. change RAND_CAP with (2 ^ 32) in Hcap.
    pose proof (scaled_trunc_bound _ k n Hg Hk ltac:(lia)) as Hb.
    pose proof (scaled_trunc_value _ k n Hg Hk ltac:(lia)) as Hv.
    unfold GetUInt. destruct (GetDouble r) as [d r1]. cbn [fst snd] in *.
    rewrite <- Hd in Hb, Hv. rewrite <- Hv.
    unfold uint32. apply Z.mod_small. lia. }
  split; [|split; [|split; [exact Hval | split; [exact Hform|]]]].
  - unfold GetUInt. destruct (GetDouble r) as [d r1]. cbn [fst snd] in *.
    destruct (Z_lt_le_dec n (2 ^ 32)) as [Hsmall | Hbig].
    2:{ pose proof (uint32_range (Double.trunc (Double.mul d (Double.of_Z n)))). lia. }
    pose proof (scaled_trunc_bound _ k n Hg Hk ltac:(lia)) as Hb.
    rewrite <- Hd in Hb. unfold uint32. rewrite Z.mod_small; lia.
  - unfold GetUInt. destruct (GetDouble r) as [d r1]. exact Hs.
  - intros Hcap Hexact. rewrite (Hform Hcap).
    rewrite round53_small by nia.
    assert (Hq : (Double.value (fst (GetDouble r)) * inject_Z n
                  == (fst (Get r) * n) # 4294967296)%Q).
    { rewrite Hval. change (inject_Z RAND_CAP) with (4294967296 # 1)%Q.
      unfold Qeq, Qdiv, Qmult, Qinv, inject_Z; cbn [Qnum Qden].
      change (Z.pos (1 * 4294967296 * 1)) with 4294967296. ring. }
    rewrite (Qfloor_comp _ _ Hq). reflexivity.
Qed.

Lemma GetUInt_range_witness :
  0 <= fst (GetUInt 10 (new 0 0 1)) < 10 /\
  snd (GetUInt 10 (new 0 0 1)) = snd (Get (new 0 0 1)) /\
  (Double.value (fst (GetDouble (new 0 0 1)))
   == inject_Z (fst (Get (new 0 0 1))) / inject_Z RAND_CAP)%Q /\
  (10 <= RAND_CAP ->
   fst (GetUInt 10 (new 0 0 1)) = Double.round53 (fst (Get (new 0 0 1)) * 10) / 2 ^ 32) /\
  (10 <= RAND_CAP -> fst (Get (new 0 0 1)) * 10 < 2 ^ 53 ->
   fst (GetUInt 10 (new 0 0 1))
   = Qfloor (Double.value (fst (GetDouble (new 0 0 1))) * inject_Z 10)).
Proof. apply (GetUInt_range 10 (new 0 0 1)). lia. Defined.


Lemma trial_eq (p : Double.t) (r : t) (i : nat) :
  (0 <= Double.value p <= 1)%Q ->
  P p (after i r) = Done (trial p r i) (after (S i) r).
Proof.
  intros Hp. unfold trial. rewrite (P_accepts p (after i r) Hp).
  f_equal. revert r. induction i as [|i IH]; intros r; [reflexivity|].
  simpl. apply IH.
Qed.

Lemma uint32_succ (c : Z) : uint32 (uint32 c + 1) = uint32 (c + 1).
Proof. unfold uint32. apply Zplus_mod_idemp_l. Qed.

Lemma geometric_loop_first_success (p : Double.t) :
  (0 <= Double.value p <= 1)%Q ->
  forall (k : nat) (r : t) (c : Z) (fuel : nat),
    (forall i, (i < k)%nat -> trial p r i = false) ->
    trial p r k = true ->
    (k < fuel)%nat ->
    geometric_loop fuel p (uint32 c) r
    = Done (uint32 (c + Z.of_nat k)) (after (S k) r).
Proof.
  intros Hp. induction k as [|k IH]; intros r c fuel Hfail Hsucc Hfuel.
  - destruct fuel as [|fuel]; [lia|]. simpl geometric_loop.
    pose proof (trial_eq p r 0 Hp) as HP. cbn [after] in HP. rewrite HP, Hsucc.
    rewrite Z.add_0_r. reflexivity.
  - destruct fuel as [|fuel]; [lia|]. simpl geometric_loop.
    pose proof (trial_eq p r 0 Hp) as HP. cbn [after] in HP.
    rewrite HP, (Hfail 0%nat) by lia.
    rewrite uint32_succ.
    rewrite (IH (snd (Get r)) (c + 1) fuel).
    + do 2 f_equal. lia.
    + intros i Hi. apply (Hfail (S i)). lia.
    + exact Hsucc.
    + lia.
Qed.

(** C7 (as amended). [GetRandGeometric] accepts [0 <= p <= 1] and
    rejects anything else by assertion.  Called with [p = 0] it returns
    at once, without drawing, the value of
    [numeric_limits<uint32_t>::infinity()], which is 0, as its "infinite"
    marker.  For [0 < p <= 1], when the first successful Bernoulli([p])
    trial is trial number [k+1], the loop terminates after exactly [k+1]
    draws and returns [k+1] modulo [2^32], the counter being a
    [uint32_t]: for a count below [2^32] that is the number of trials up
    to and including the first success, at least 1 and different from
    the marker; a count of exactly [2^32] comes back as the marker. *)
Theorem GetRandGeometric_spec :
  (forall (fuel : nat) (r : t),
      GetRandGeometric fuel Double.zero r = Done uint32_infinity r) /\
  (forall (p : Double.t) (r : t) (k fuel : nat),
      (0 < Double.value p <= 1)%Q ->
      (forall i, (i < k)%nat -> trial p r i = false) ->
      trial p r k = true ->
      (k < fuel)%nat ->
      GetRandGeometric fuel p r
      = Done (uint32 (Z.of_nat (S k))) (after (S k) r) /\
      (Z.of_nat (S k) < 2 ^ 32 ->
       uint32 (Z.of_nat (S k)) = Z.of_nat (S k) /\
       1 <= uint32 (Z.of_nat (S k)) /\
       uint32 (Z.of_nat (S k)) <> uint32_infinity) /\
      (Z.of_nat (S k) = 2 ^ 32 ->
       uint32 (Z.of_nat (S k)) = uint32_infinity)) /\
  (forall (p : Double.t) (r : t) (fuel : nat),
      (Double.value p < 0 \/ 1 < Double.value p)%Q ->
      GetRandGeometric fuel p r = Aborted r).
Proof.
  split; [|split].
  - intros fuel r. reflexivity.
  - intros p r k fuel [Hp0 Hp1] Hfail Hsucc Hfuel.
    assert (Hp : (0 <= Double.value p <= 1)%Q) by (split; [apply Qlt_le_weak|]; assumption).
    split.
    + unfold GetRandGeometric.
      assert (Hc : Double.leb Double.zero p && Double.leb p Double.one = true).
      { apply andb_true_iff; split; apply leb_le.
        - rewrite value_zero; apply Hp.
        - rewrite value_one; apply Hp. }
      assert (Hz : Double.eqb p Double.zero = false).
      { apply not_true_iff_false. rewrite eqb_eq, value_zero. intros Heq.
        rewrite Heq in Hp0. exact (Qlt_irrefl _ Hp0). }
      rewrite Hc, Hz. change 1 with (uint32 1) at 1.
      rewrite (geometric_loop_first_success p Hp k r 1 fuel) by assumption.
      do 2 f_equal. lia.
    + split.
      * intros Hfit.
        assert (Hid : uint32 (Z.of_nat (S k)) = Z.of_nat (S k))
          by (unfold uint32; apply Z.mod_small; lia).
        rewrite Hid. unfold uint32_infinity. lia.
      * intros Hwrap. rewrite Hwrap. reflexivity.
  - intros p r fuel Hout. unfold GetRandGeometric.
    assert (Hc : Double.leb Double.zero p && Double.leb p Double.one = false).
    { apply andb_false_iff. destruct Hout as [Hout|Hout]; [left|right];
        apply not_true_iff_false; rewrite leb_le; apply Qlt_not_le.
      - rewrite value_zero; exact Hout.
      - rewrite value_one; exact Hout. }
    rewrite Hc. reflexivity.
Qed.

Lemma GetRandGeometric_spec_witness :
  GetRandGeometric 2 half (new 0 0 3) = Done (uint32 2) (after 2 (new 0 0 3)) /\
  (2 < 2 ^ 32 -> uint32 2 = 2 /\ 1 <= uint32 2 /\ uint32 2 <> uint32_infinity) /\
  (2 = 2 ^ 32 -> uint32 2 = uint32_infinity).
Proof.
  apply (proj1 (proj2 GetRandGeometric_spec) half (new 0 0 3) 1%nat 2%nat).
  - split; vm_compute; [reflexivity | discriminate].
  - intros i Hi. assert (i = 0%nat) as -> by lia. vm_compute. reflexivity.
  - vm_compute. reflexivity.
  - lia.
Defined.

(** C7 fails as stated, in two ways.  A probability above 1 is above
    0, and the call fails its assertion instead of returning a count.
    And the counter of the loop is a [uint32_t]: when it stands at
    [2^32 - 1] -- after [2^32 - 2] failed trials -- and one more trial
    fails before the next succeeds, the count of [2^32] trials comes back
    as 0, which is not at least 1 and is the very value returned for
    [p = 0]. *)
Lemma GetRandGeometric_leaves_its_range :
  (0 < Double.value (Double.mk 2 0))%Q /\
  GetRandGeometric 1 (Double.mk 2 0) (new 0 0 3) = Aborted (new 0 0 3) /\
  trial half (new 0 0 3) 0 = false /\
  trial half (new 0 0 3) 1 = true /\
  geometric_loop 2 half (2 ^ 32 - 1) (new 0 0 3)
  = Done uint32_infinity (after 2 (new 0 0 3)).
Proof. repeat split; vm_compute; reflexivity. Qed.

Lemma Get_congr (r1 r2 : t) :
  value r1 = value r2 -> weyl_state r1 = weyl_state r2 ->
  fst (Get r1) = fst (Get r2) /\
  value (snd (Get r1)) = value (snd (Get r2)) /\
  weyl_state (snd (Get r1)) = weyl_state (snd (Get r2)).
Proof. intros Hv Hw. unfold Get; simpl. rewrite Hv, Hw. auto. Qed.

Lemma nth_Get_congr (n : nat) :
  forall r1 r2 : t,
    value r1 = value r2 -> weyl_state r1 = weyl_state r2 ->
    nth_Get n r1 = nth_Get n r2.
Proof.
  induction n as [|n IH]; intros r1 r2 Hv Hw.
  - unfold nth_Get; simpl. apply Get_congr; assumption.
  - destruct (Get_congr r1 r2 Hv Hw) as (_ & Hv' & Hw').
    unfold nth_Get in *; simpl. apply IH; assumption.
Qed.

(** C9 (as amended). For a seed greater than zero, two generators whose
    squaring values agree -- two freshly constructed ones in particular --
    and that are reset with that seed return the same value from the
    [n]-th call of [Get], for every [n], whatever the clock and the
    addresses of the two objects: the sequence is a function of the seed. *)
Theorem same_seed_same_draws
  (seed seed_time1 seed_mem1 seed_time2 seed_mem2 : Z) (r1 r2 : t) (n : nat) :
  0 < seed ->
  value r1 = value r2 ->
  nth_Get n (ResetSeed seed_time1 seed_mem1 seed r1)
  = nth_Get n (ResetSeed seed_time2 seed_mem2 seed r2).
Proof.
  intros Hs Hv. apply nth_Get_congr.
  - exact Hv.
  - unfold ResetSeed; simpl. destruct (Z.leb_spec seed 0); [lia | reflexivity].
Qed.


Lemma same_seed_same_draws_witness :
  nth_Get 3 (ResetSeed 100 4096 42 fresh) = nth_Get 3 (ResetSeed 200 8192 42 fresh).
Proof.
  apply (same_seed_same_draws 42 100 4096 200 8192 fresh fresh 3).
  - lia.
  - reflexivity.
Defined.

(** C9 fails as stated: constructed at the same second with the default
    seed -1, two generators that live at different addresses differ in
    their second draw. *)
Lemma default_seed_draws_differ :
  nth_Get 1 (new 1700000000 140737488347136 (-1))
  <> nth_Get 1 (new 1700000000 140737488347200 (-1)).
Proof. intros Heq. vm_compute in Heq. discriminate Heq. Qed.

End RandomSpec.

Module SelectSpec.
Import WorldSelect DoubleFacts.

Section Facts.
Context {W ORG GENOME : Type} `{World W ORG GENOME}.
Variable GetPermutation : Random.t -> nat -> list nat * Random.t.

Lemma for_each_cons {A S : Type} (x : A) (l : list A) (body : A -> S -> M S)
  (s : S) (w : W) :
  for_each (x :: l) body s w
  = match body x s w with
    | Done s1 w1 => for_each l body s1 w1
    | Aborted w1 => Aborted w1
    | OutOfFuel => OutOfFuel
    end.
Proof. reflexivity. Qed.

(** *** Assertions *)

(** C8 (as amended). A zero elite count in [EliteSelect], a zero
    tournament size in [TournamentSelect] or [EcoSelect] and an empty list
    of fitness functions in [LexicaseSelect] each fail an assertion while
    the world is still as the caller passed it: nothing was born and
    nothing else changed. *)
Theorem contract_errors_abort_before_birth (w : W) :
  (forall copy_count, EliteSelect 0 copy_count w = Aborted w) /\
  (forall tourny_count, TournamentSelect 0 tourny_count w = Aborted w) /\
  (forall extra_funs pool_sizes tourny_count,
      EcoSelect extra_funs pool_sizes 0 tourny_count w = Aborted w) /\
  (forall repro_count max_funs,
      LexicaseSelect GetPermutation [] repro_count max_funs w = Aborted w).
Proof.
  split; [|split; [|split]].
  - intros. unfold EliteSelect, bind, ask, emp_assert. reflexivity.
  - intros. unfold TournamentSelect, bind, ask, emp_assert. reflexivity.
  - intros. unfold EcoSelect, bind, ask, emp_assert.
    destruct (GetFitFun w); [|reflexivity].
    destruct (0 <? GetSize w)%nat; reflexivity.
  - intros. unfold LexicaseSelect, bind, ask, emp_assert.
    destruct (0 <? GetSize w)%nat; reflexivity.
Qed.

(** C10. When their two assertions hold (a world with at least one slot
    and a configuration whose phenotypes are all usable),
    [MapElitesSeed] and [MapElitesGrow] return with the world exactly as
    it was: no birth, no insertion, no change of any state. *)
Theorem MapElites_leave_world_unchanged
  (w : W) (config : list (MapElitesPhenotype ORG)) (org : ORG) (repro_count : nat) :
  (0 < GetSize w)%nat ->
  MapElitesConfig_OK config = true ->
  MapElitesSeed config org w = Done tt w /\
  MapElitesGrow config repro_count w = Done tt w.
Proof.
  intros Hsize Hok. unfold MapElitesSeed, MapElitesGrow, bind, ask, emp_assert, ret.
  rewrite Hok. destruct (Nat.ltb_spec 0 (GetSize w)); [split; reflexivity | lia].
Qed.

(** *** Tournament *)

Lemma tournament_fold (fit : nat -> Double.t) (rest : list nat) :
  forall (seen pre post : list nat) (b : nat),
    seen = pre ++ b :: post ->
    (forall e, In e pre -> (Double.value (fit e) < Double.value (fit b))%Q) ->
    (forall e, In e post -> (Double.value (fit e) <= Double.value (fit b))%Q) ->
    exists (pre' post' : list nat) (b' : nat),
      foldl (tournament_step fit) (fit b, b) rest = (fit b', b') /\
      seen ++ rest = pre' ++ b' :: post' /\
      (forall e, In e pre' -> (Double.value (fit e) < Double.value (fit b'))%Q) /\
      (forall e, In e post' -> (Double.value (fit e) <= Double.value (fit b'))%Q).
Proof.
  induction rest as [|x rest IH]; intros seen pre post b Hseen Hpre Hpost.
  - exists pre, post, b. rewrite app_nil_r. auto.
  - simpl foldl. unfold tournament_step at 2. cbn [fst snd].
    destruct (Double.ltb (fit b) (fit x)) eqn:Hlt.
    + apply ltb_lt in Hlt.
      destruct (IH (seen ++ [x]) (pre ++ b :: post) [] x) as (pre' & post' & b' & Hf & Hs & H1 & H2).
      * rewrite Hseen. reflexivity.
      * intros e He. apply in_app_or in He. destruct He as [He | [<- | He]].
        -- eapply Qlt_trans; [apply Hpre; exact He | exact Hlt].
        -- exact Hlt.
        -- eapply Qle_lt_trans; [apply Hpost; exact He | exact Hlt].
      * intros e [].
      * exists pre', post', b'. rewrite <- app_assoc in Hs. auto.
    + apply ltb_ge in Hlt.
      destruct (IH (seen ++ [x]) pre (post ++ [x]) b) as (pre' & post' & b' & Hf & Hs & H1 & H2).
      * rewrite Hseen, <- app_assoc. reflexivity.
      * exact Hpre.
      * intros e He. apply in_app_or in He. destruct He as [He | [<- | []]]; auto.
      * exists pre', post', b'. rewrite <- app_assoc in Hs. auto.
Qed.

Lemma tournament_winner_first_best (fit : nat -> Double.t) (entries : list nat) :
  entries <> [] ->
  exists (pre post : list nat) (best_id : nat),
    tournament_winner fit entries = Some best_id /\
    entries = pre ++ best_id :: post /\
    (forall e, In e pre -> (Double.value (fit e) < Double.value (fit best_id))%Q) /\
    (forall e, In e post -> (Double.value (fit e) <= Double.value (fit best_id))%Q).
Proof.
  destruct entries as [|e0 rest]; [congruence|]. intros _.
  destruct (tournament_fold fit rest [e0] [] [] e0 eq_refl) as (pre & post & b & Hf & Hs & H1 & H2).
  - intros e [].
  - intros e [].
  - exists pre, post, b. simpl. rewrite Hf. auto.
Qed.

Lemma draw_entries_loop (n : nat) :
  forall (a : nat) (acc : list nat) (w : W),
    exists (es : list nat) (w1 : W),
      for_each (seq a n)
        (fun _ entries => bind (call GetRandomOrgID) (fun id => ret (entries ++ [id])))
        acc w = Done (acc ++ es) w1 /\ length es = n.
Proof.
  induction n as [|n IH]; intros a acc w.
  - exists [], w. rewrite app_nil_r. split; reflexivity.
  - simpl seq. rewrite for_each_cons. cbv beta.
    replace (bind (call GetRandomOrgID) (fun id => ret (acc ++ [id])) w)
      with (let (id, w0) := GetRandomOrgID w in @Done W _ (acc ++ [id]) w0)
      by (unfold bind, call, ret; destruct (GetRandomOrgID w); reflexivity).
    destruct (GetRandomOrgID w) as [id w0].
    destruct (IH (S a) (acc ++ [id]) w0) as (es & w1 & Hrun & Hlen).
    exists (id :: es), w1. rewrite Hrun, <- app_assoc. split; [reflexivity | simpl; lia].
Qed.

(** C2 (as amended). With any tournament size [t_size > 0] -- the
    population size included -- a tournament draws [t_size] contestants
    and births one offspring of the drawn contestant with the highest
    fitness, the first drawn among equals: every contestant drawn before
    the winner is strictly less fit and every later one is no fitter.  An
    organism that is strictly fitter than every other one therefore
    reproduces exactly when it is among the contestants drawn. *)
Theorem tournament_births_fittest_entry (t_size : nat) (w : W) :
  (0 < t_size)%nat ->
  exists (entries : list nat) (w1 : W) (pre post : list nat) (best_id : nat),
    draw_entries t_size w = Done entries w1 /\
    length entries = t_size /\
    tournament t_size w
    = (let (_, w2) := DoBirth (GetGenomeAt w1 best_id) best_id 1 w1 in Done tt w2) /\
    entries = pre ++ best_id :: post /\
    (forall e, In e pre ->
       (Double.value (CalcFitnessID w1 e) < Double.value (CalcFitnessID w1 best_id))%Q) /\
    (forall e, In e post ->
       (Double.value (CalcFitnessID w1 e) <= Double.value (CalcFitnessID w1 best_id))%Q) /\
    (forall m : nat,
       (forall id, id <> m ->
          (Double.value (CalcFitnessID w1 id) < Double.value (CalcFitnessID w1 m))%Q) ->
       (In m entries <-> best_id = m)) /\
    TournamentSelect t_size 1 w = tournament t_size w.
Proof.
  intros Ht.
  destruct (draw_entries_loop t_size 0 [] w) as (entries & w1 & Hrun & Hlen).
  simpl app in Hrun.
  assert (Hne : entries <> []) by (intros ->; simpl in Hlen; lia).
  destruct (tournament_winner_first_best (CalcFitnessID w1) entries Hne)
    as (pre & post & best_id & Hwin & Hsplit & Hpre & Hpost).
  exists entries, w1, pre, post, best_id.
  split; [exact Hrun|]. split; [exact Hlen|]. split.
  { unfold tournament, bind at 1. unfold draw_entries, for_range. rewrite Hrun.
    unfold bind at 1, ask. rewrite Hwin.
    unfold bind, ask, call, ret. destruct (DoBirth _ _ _ _); reflexivity. }
  split; [exact Hsplit|]. split; [exact Hpre|]. split; [exact Hpost|]. split.
  - intros m Hmax. split.
    + intros Hin. destruct (Nat.eq_dec best_id m) as [|Hneq]; [assumption|].
      exfalso. specialize (Hmax best_id Hneq).
      rewrite Hsplit in Hin. apply in_app_or in Hin. destruct Hin as [Hin | [Heq | Hin]].
      * exact (Qlt_irrefl _ (Qlt_trans _ _ _ (Hpre m Hin) Hmax)).
      * congruence.
      * exact (Qlt_irrefl _ (Qle_lt_trans _ _ _ (Hpost m Hin) Hmax)).
    + intros <-. rewrite Hsplit. apply in_or_app. right. left. reflexivity.
  - unfold TournamentSelect, bind at 1, emp_assert.
    destruct (Nat.ltb_spec 0 t_size) as [_|]; [|lia].
    unfold bind at 1. cbn [Nat.ltb Nat.leb]. unfold for_range. simpl seq.
    rewrite for_each_cons. destruct (tournament t_size w) as [[] w2 | w2 |]; reflexivity.
Qed.

(** *** Roulette *)







End Facts.

(** *** EcoSelect *)

Section Eco.
Context {W ORG GENOME : Type} `{World W ORG GENOME}.
Variables (w : W) (extra_funs : list (ORG -> Double.t)).

Let size : nat := GetSize w.
Let num_extra : nat := length extra_funs.

Let extra_at (ex_id org_id : nat) : Double.t :=
  match extra_funs !! ex_id with
  | Some f => f (GetOrg w org_id)
  | None => Double.zero
  end.

Lemma triple_eq {A B C : Type} (a a' : A) (b b' : B) (c c' : C) :
  (a, b, c) = (a', b', c') -> a = a' /\ b = b' /\ c = c'.
Proof. intros Heq. inversion Heq. auto. Qed.

Lemma collect_extra_wf (org_id : nat) (v : Double.t) (info : eco_info) (ex_id : nat) :
  eco_wf size num_extra info ->
  eco_wf size num_extra (eco_collect_extra org_id v info ex_id) /\
  base_fitness (eco_collect_extra org_id v info ex_id) = base_fitness info.
Proof.
  intros (Hb & He & Hm & Hc). unfold eco_collect_extra, eco_wf.
  destruct (Double.ltb _ _); [|destruct (Double.eqb _ _)]; cbn;
    rewrite ?length_insert; auto.
Qed.

Lemma collect_extra_same (org_id : nat) (v : Double.t) (info : eco_info) (ex_id : nat) :
  eco_wf size num_extra info -> (ex_id < num_extra)%nat ->
  eco_view (eco_collect_extra org_id v info ex_id) ex_id
  = (scan_step (max_extra_fit info !!! ex_id, max_count info !!! ex_id) v,
     <[org_id := v]> (extra_fitnesses info !!! ex_id)).
Proof.
  intros (Hb & He & Hm & Hc) Hex. unfold eco_collect_extra, eco_view, scan_step. cbn [fst snd].
  destruct (Double.ltb _ _); [|destruct (Double.eqb _ _)]; cbn;
    rewrite ?list_lookup_total_insert_eq by lia; reflexivity.
Qed.

Lemma collect_extra_other (org_id : nat) (v : Double.t) (info : eco_info) (ex_id ex' : nat) :
  ex_id <> ex' ->
  eco_view (eco_collect_extra org_id v info ex_id) ex' = eco_view info ex'.
Proof.
  intros Hne. unfold eco_collect_extra, eco_view.
  destruct (Double.ltb _ _); [|destruct (Double.eqb _ _)]; cbn;
    rewrite ?list_lookup_total_insert_ne by assumption; reflexivity.
Qed.

Let collect_body (org_id : nat) (info : eco_info) (ex_id : nat) : eco_info :=
  match extra_funs !! ex_id with
  | Some f => eco_collect_extra org_id (f (GetOrg w org_id)) info ex_id
  | None => info
  end.

Lemma collect_inner (org_id : nat) (k : nat) :
  forall (a : nat) (info : eco_info),
    eco_wf size num_extra info -> (a + k <= num_extra)%nat ->
    let info' := foldl (collect_body org_id) info (seq a k) in
    eco_wf size num_extra info' /\
    base_fitness info' = base_fitness info /\
    forall ex, (ex < num_extra)%nat ->
      eco_view info' ex
      = if decide (a <= ex < a + k)%nat
        then (scan_step (max_extra_fit info !!! ex, max_count info !!! ex) (extra_at ex org_id),
              <[org_id := extra_at ex org_id]> (extra_fitnesses info !!! ex))
        else eco_view info ex.
Proof.
  induction k as [|k IH]; intros a info Hwf Hle; cbn zeta.
  - simpl. split; [assumption|]. split; [reflexivity|].
    intros ex _. destruct (decide _); [lia | reflexivity].
  - simpl seq. simpl foldl.
    assert (Ha : (a < length extra_funs)%nat) by (unfold num_extra in Hle; lia).
    destruct (lookup_lt_is_Some_2 extra_funs a Ha) as [f Hf].
    assert (Hbody : collect_body org_id info a
                    = eco_collect_extra org_id (extra_at a org_id) info a).
    { unfold collect_body, extra_at. rewrite Hf. reflexivity. }
    rewrite Hbody.
    destruct (collect_extra_wf org_id (extra_at a org_id) info a Hwf) as [Hwf1 Hb1].
    destruct (IH (S a) _ Hwf1 ltac:(lia)) as (Hwf2 & Hb2 & Hv2).
    split; [exact Hwf2|]. split; [congruence|].
    intros ex Hex. rewrite (Hv2 ex Hex).
    destruct (decide (S a <= ex < S a + k)%nat) as [Hin|Hout].
    + rewrite decide_True by lia.
      pose proof (collect_extra_other org_id (extra_at a org_id) info a ex ltac:(lia)) as Ho.
      unfold eco_view in Ho. apply triple_eq in Ho. destruct Ho as (-> & -> & ->).
      reflexivity.
    + destruct (decide (a <= ex < a + S k)%nat) as [Hin'|Hout'].
      * assert (ex = a) as -> by lia. apply collect_extra_same; assumption.
      * apply collect_extra_other. lia.
Qed.

Lemma collect_org_spec (info : eco_info) (org_id : nat) :
  eco_wf size num_extra info ->
  let info' := eco_collect_org w extra_funs info org_id in
  eco_wf size num_extra info' /\
  base_fitness info' = <[org_id := CalcFitnessID w org_id]> (base_fitness info) /\
  forall ex, (ex < num_extra)%nat ->
    eco_view info' ex
    = (scan_step (max_extra_fit info !!! ex, max_count info !!! ex) (extra_at ex org_id),
       <[org_id := extra_at ex org_id]> (extra_fitnesses info !!! ex)).
Proof.
  intros (Hb & He & Hm & Hc). cbn zeta. unfold eco_collect_org.
  set (info1 := {| base_fitness := <[org_id := CalcFitnessID w org_id]> (base_fitness info);
                   extra_fitnesses := extra_fitnesses info;
                   max_extra_fit := max_extra_fit info;
                   max_count := max_count info |}).
  assert (Hwf1 : eco_wf size num_extra info1).
  { unfold eco_wf, info1; cbn. rewrite length_insert. auto. }
  destruct (collect_inner org_id num_extra 0 info1 Hwf1 ltac:(lia)) as (Hwf2 & Hb2 & Hv2).
  fold num_extra. fold (collect_body org_id).
  split; [exact Hwf2|]. split; [exact Hb2|].
  intros ex Hex. rewrite (Hv2 ex Hex). rewrite decide_True by lia. reflexivity.
Qed.

Lemma insert_prefix {A : Type} (l : list A) (x y : A) (n : nat) :
  <[length l := x]> (l ++ replicate (S n) y) = (l ++ [x]) ++ replicate n y.
Proof.
  rewrite insert_app_r_alt by lia. rewrite Nat.sub_diag, <- app_assoc. reflexivity.
Qed.

Lemma collect_prefix (k : nat) :
  (k <= size)%nat ->
  let info := foldl (eco_collect_org w extra_funs) (eco_init size num_extra) (seq 0 k) in
  eco_wf size num_extra info /\
  base_fitness info
  = map (CalcFitnessID w) (seq 0 k) ++ replicate (size - k) Double.zero /\
  forall ex, (ex < num_extra)%nat ->
    eco_view info ex
    = (foldl scan_step (Double.zero, 0%nat) (map (extra_at ex) (seq 0 k)),
       map (extra_at ex) (seq 0 k) ++ replicate (size - k) Double.zero).
Proof.
  induction k as [|k IH]; intros Hk; cbn zeta.
  - simpl. rewrite Nat.sub_0_r. split; [|split].
    + unfold eco_wf, eco_init; cbn. rewrite !length_replicate. auto.
    + reflexivity.
    + intros ex Hex. unfold eco_view, eco_init; cbn.
      rewrite !lookup_total_replicate_2 by assumption. reflexivity.
  - rewrite seq_S, foldl_snoc. simpl (0 + k)%nat.
    destruct (IH ltac:(lia)) as (Hwf & Hb & Hv).
    set (info := foldl (eco_collect_org w extra_funs) (eco_init size num_extra) (seq 0 k)) in *.
    destruct (collect_org_spec info k Hwf) as (Hwf' & Hb' & Hv').
    split; [exact Hwf'|]. split.
    + rewrite Hb', Hb, map_app. simpl map.
      replace (size - k)%nat with (S (size - S k)) by lia.
      rewrite <- (insert_prefix (map (CalcFitnessID w) (seq 0 k))).
      rewrite length_map, length_seq. reflexivity.
    + intros ex Hex. rewrite (Hv' ex Hex).
      pose proof (Hv ex Hex) as Hvx. unfold eco_view in Hvx.
      destruct (foldl scan_step (Double.zero, 0%nat) (map (extra_at ex) (seq 0 k))) as [mx c] eqn:Hscan.
      apply triple_eq in Hvx. destruct Hvx as (-> & -> & ->).
      rewrite map_app. simpl map. rewrite foldl_snoc, Hscan. f_equal.
      replace (size - k)%nat with (S (size - S k)) by lia.
      rewrite <- (insert_prefix (map (extra_at ex) (seq 0 k))).
      rewrite length_map, length_seq. reflexivity.
Qed.

(** What the collection loop leaves behind. *)
Lemma eco_collect_spec (ex_id : nat) (f : ORG -> Double.t) :
  extra_funs !! ex_id = Some f ->
  let info := eco_collect w extra_funs in
  base_fitness info = map (CalcFitnessID w) (seq 0 size) /\
  (max_extra_fit info !!! ex_id, max_count info !!! ex_id)
  = foldl scan_step (Double.zero, 0%nat) (extra_values w f) /\
  extra_fitnesses info !!! ex_id = extra_values w f.
Proof.
  intros Hf. cbn zeta.
  destruct (collect_prefix size (le_n _)) as (_ & Hb & Hv).
  assert (Hex : (ex_id < num_extra)%nat) by (eapply lookup_lt_Some; exact Hf).
  specialize (Hv ex_id Hex). rewrite Nat.sub_diag in *. simpl replicate in *.
  rewrite app_nil_r in *.
  assert (Hvals : map (extra_at ex_id) (seq 0 size) = extra_values w f).
  { unfold extra_values. apply map_ext. intros org. unfold extra_at. rewrite Hf. reflexivity. }
  rewrite Hvals in Hv. unfold eco_view in Hv.
  destruct (foldl scan_step (Double.zero, 0%nat) (extra_values w f)) as [mx c].
  apply triple_eq in Hv. destruct Hv as (H1 & H2 & H3).
  unfold eco_collect. fold size. fold num_extra.
  split; [exact Hb|]. split; [|exact H3]. rewrite H1, H2. reflexivity.
Qed.

End Eco.

(** *** The running maximum and its tie count *)

Lemma eqb_value_l (u v v' : Double.t) :
  (Double.value v == Double.value v')%Q -> Double.eqb u v = Double.eqb u v'.
Proof.
  intros Hv. destruct (Double.eqb u v') eqn:H2.
  - apply eqb_eq. apply eqb_eq in H2. rewrite Hv. exact H2.
  - apply not_true_iff_false. intros H1. apply eqb_eq in H1.
    apply not_true_iff_false in H2. apply H2. apply eqb_eq. rewrite <- Hv. exact H1.
Qed.

Lemma num_tied_snoc (s : list Double.t) (x v : Double.t) :
  num_tied (s ++ [x]) v = (num_tied s v + if Double.eqb x v then 1 else 0)%nat.
Proof.
  unfold num_tied. rewrite List.filter_app, length_app. simpl.
  destruct (Double.eqb x v); reflexivity.
Qed.

Lemma num_tied_ext (s : list Double.t) (v v' : Double.t) :
  (Double.value v == Double.value v')%Q -> num_tied s v = num_tied s v'.
Proof.
  intros Hv. unfold num_tied. f_equal. apply List.filter_ext.
  intros u. apply eqb_value_l. exact Hv.
Qed.

Lemma num_tied_below (s : list Double.t) (v : Double.t) :
  (forall u, In u s -> (Double.value u < Double.value v)%Q) -> num_tied s v = 0%nat.
Proof.
  induction s as [|u s IH]; intros Hs; [reflexivity|].
  unfold num_tied in *. simpl.
  assert (Hu : Double.eqb u v = false).
  { apply not_true_iff_false. intros Heq. apply eqb_eq in Heq.
    specialize (Hs u (or_introl eq_refl)). rewrite Heq in Hs. exact (Qlt_irrefl _ Hs). }
  rewrite Hu. apply IH. intros u' Hu'. apply Hs. right. exact Hu'.
Qed.

Lemma num_tied_pos (s : list Double.t) (u v : Double.t) :
  In u s -> (Double.value u == Double.value v)%Q -> (0 < num_tied s v)%nat.
Proof.
  induction s as [|x s IH]; intros Hin Heq; [destruct Hin|].
  unfold num_tied in *. simpl. destruct Hin as [->|Hin].
  - assert (Double.eqb u v = true) as -> by (apply eqb_eq; exact Heq). simpl. lia.
  - specialize (IH Hin Heq). destruct (Double.eqb x v); simpl; lia.
Qed.

Lemma scan_invariant (vals : list Double.t) :
  let st := foldl scan_step (Double.zero, 0%nat) vals in
  (forall v, In v vals -> (Double.value v <= Double.value (fst st))%Q) /\
  (0 <= Double.value (fst st))%Q /\
  snd st = num_tied vals (fst st) /\
  (snd st = 0%nat -> fst st = Double.zero).
Proof.
  induction vals as [|x s IH] using rev_ind; cbn zeta.
  - simpl. split; [intros v []|]. split; [discriminate|]. split; reflexivity.
  - rewrite foldl_snoc. cbn zeta in IH.
    destruct (foldl scan_step (Double.zero, 0%nat) s) as [mx c].
    cbn [fst snd] in IH. destruct IH as (Hub & H0 & Hc & Hz).
    unfold scan_step; cbn [fst snd].
    destruct (Double.ltb mx x) eqn:Hlt; [|destruct (Double.eqb x mx) eqn:Heq]; cbn [fst snd].
    + apply ltb_lt in Hlt. split; [|split; [|split]].
      * intros v Hv. apply in_app_or in Hv. destruct Hv as [Hv | [<- | []]].
        -- apply Qlt_le_weak. eapply Qle_lt_trans; [apply Hub; exact Hv | exact Hlt].
        -- apply Qle_refl.
      * apply Qlt_le_weak. eapply Qle_lt_trans; [exact H0 | exact Hlt].
      * rewrite num_tied_snoc, num_tied_below.
        -- assert (Double.eqb x x = true) as -> by (apply eqb_eq; reflexivity). reflexivity.
        -- intros u Hu. eapply Qle_lt_trans; [apply Hub; exact Hu | exact Hlt].
      * discriminate.
    + apply ltb_ge in Hlt. split; [|split; [|split]].
      * intros v Hv. apply in_app_or in Hv. destruct Hv as [Hv | [<- | []]]; auto.
      * exact H0.
      * rewrite num_tied_snoc, Heq, <- Hc. lia.
      * discriminate.
    + apply ltb_ge in Hlt. split; [|split; [|split]].
      * intros v Hv. apply in_app_or in Hv. destruct Hv as [Hv | [<- | []]]; auto.
      * exact H0.
      * rewrite num_tied_snoc, Heq, <- Hc. lia.
      * exact Hz.
Qed.

Lemma In_extra_values {W ORG GENOME : Type} `{World W ORG GENOME}
  (w : W) (f : ORG -> Double.t) (v : Double.t) :
  In v (extra_values w f) <-> exists org, (org < GetSize w)%nat /\ v = f (GetOrg w org).
Proof.
  unfold extra_values. rewrite in_map_iff. split.
  - intros (org & <- & Hin). apply in_seq in Hin. exists org. split; [lia | reflexivity].
  - intros (org & Hlt & ->). exists org. split; [reflexivity | apply in_seq; lia].
Qed.

Lemma extra_values_at {W ORG GENOME : Type} `{World W ORG GENOME}
  (w : W) (f : ORG -> Double.t) (org : nat) :
  (org < GetSize w)%nat -> extra_values w f !!! org = f (GetOrg w org).
Proof.
  intros Hlt. apply list_lookup_total_correct. unfold extra_values.
  rewrite list_lookup_fmap, lookup_seq_lt by assumption. reflexivity.
Qed.


Section EcoBonus.
Context {W ORG GENOME : Type} `{World W ORG GENOME}.

Lemma eco_rewarded_spec (w : W) (f : ORG -> Double.t) :
  eco_rewarded w f = true <->
  exists org, (org < GetSize w)%nat /\ (0 <= Double.value (f (GetOrg w org)))%Q.
Proof.
  unfold eco_rewarded. rewrite existsb_exists. split.
  - intros (org & Hin & Hle). apply in_seq in Hin. apply leb_le in Hle.
    rewrite value_zero in Hle. exists org. split; [lia | exact Hle].
  - intros (org & Hlt & Hle). exists org. split; [apply in_seq; lia|].
    apply leb_le. rewrite value_zero. exact Hle.
Qed.

Lemma eco_is_best_spec (w : W) (f : ORG -> Double.t) (org : nat) :
  eco_is_best w f org = true <->
  forall other, (other < GetSize w)%nat ->
    (Double.value (f (GetOrg w other)) <= Double.value (f (GetOrg w org)))%Q.
Proof.
  unfold eco_is_best. rewrite forallb_forall. split.
  - intros Hall other Hlt. apply leb_le. apply Hall. apply in_seq. lia.
  - intros Hall other Hin. apply in_seq in Hin. apply leb_le. apply Hall. lia.
Qed.

(** One pass of the readjusting loop, on a vector with one entry per
    slot. *)
Lemma readjust_pass (w : W) (extra_funs : list (ORG -> Double.t))
  (pool_sizes : list Double.t) (ex_id : nat) (f : ORG -> Double.t)
  (pool : Double.t) (base : list Double.t) :
  extra_funs !! ex_id = Some f ->
  pool_sizes !! ex_id = Some pool ->
  length base = GetSize w ->
  eco_readjust (eco_collect w extra_funs) pool_sizes (Some base) ex_id
  = Some (imap (fun org b =>
                  if eco_rewarded w f && eco_is_best w f org
                  then Double.add b (eco_share w f pool org) else b)
               base).
Proof.
  intros Hf Hpool Hlen.
  destruct (eco_collect_spec w extra_funs ex_id f Hf) as (_ & Hscan & Hrow).
  pose proof (scan_invariant (extra_values w f)) as Hinv. cbn zeta in Hinv.
  rewrite <- Hscan in Hinv. cbn [fst snd] in Hinv.
  destruct Hinv as (Hub & H0 & Hc & Hz).
  set (info := eco_collect w extra_funs) in *.
  set (vals := extra_values w f) in *.
  set (mx := max_extra_fit info !!! ex_id) in *.
  set (c := max_count info !!! ex_id) in *.
  unfold eco_readjust. fold c. fold mx.
  destruct (Nat.eqb_spec c 0) as [Hc0 | Hcpos].
  - (* nobody reaches the running maximum: every value is negative *)
    assert (Hno : eco_rewarded w f = false).
    { apply not_true_iff_false. intros Hr. apply eco_rewarded_spec in Hr.
      destruct Hr as (org & Hlt & Hnn).
      assert (Hin : In (f (GetOrg w org)) vals) by (apply In_extra_values; eauto).
      assert (Heq : (Double.value (f (GetOrg w org)) == Double.value mx)%Q).
      { apply Qle_antisym; [apply Hub; exact Hin|].
        rewrite (Hz Hc0), value_zero. exact Hnn. }
      pose proof (num_tied_pos vals _ mx Hin Heq). lia. }
    rewrite Hno. cbn [andb]. f_equal. apply list_eq. intros i.
    rewrite list_lookup_imap. destruct (base !! i); reflexivity.
  - rewrite Hpool. f_equal. apply imap_ext. intros org b Hb.
    assert (Hlt : (org < GetSize w)%nat) by (rewrite <- Hlen; eapply lookup_lt_Some; exact Hb).
    assert (Hatt : exists u, In u vals /\ (Double.value u == Double.value mx)%Q).
    { assert (Hpos : (0 < num_tied vals mx)%nat) by lia. unfold num_tied in Hpos.
      destruct (List.filter (fun u => Double.eqb u mx) vals) as [|u l] eqn:Hfl;
        [simpl in Hpos; lia|].
      assert (Hu : In u (List.filter (fun u => Double.eqb u mx) vals))
        by (rewrite Hfl; left; reflexivity).
      apply List.filter_In in Hu. destruct Hu as [Hu1 Hu2]. exists u. split; [exact Hu1|].
      apply eqb_eq. exact Hu2. }
    assert (Hyes : eco_rewarded w f = true).
    { apply eco_rewarded_spec. destruct Hatt as (u & Hu & Hum).
      apply In_extra_values in Hu. destruct Hu as (o & Ho & ->).
      exists o. split; [exact Ho|]. rewrite Hum. exact H0. }
    rewrite Hyes. cbn [andb]. rewrite Hrow. fold vals.
    unfold vals at 1. rewrite extra_values_at by exact Hlt.
    set (v := f (GetOrg w org)).
    destruct (eco_is_best w f org) eqn:Hbest.
    + pose proof (proj1 (eco_is_best_spec w f org) Hbest) as Hbest'.
      assert (Hvm : (Double.value v == Double.value mx)%Q).
      { apply Qle_antisym.
        - apply Hub. apply In_extra_values. exists org. auto.
        - destruct Hatt as (u & Hu & Hum). rewrite <- Hum.
          apply In_extra_values in Hu. destruct Hu as (o & Ho & ->). apply Hbest'. exact Ho. }
      assert (Double.eqb v mx = true) as -> by (apply eqb_eq; exact Hvm).
      unfold eco_share. fold vals. fold v.
      rewrite (num_tied_ext vals v mx Hvm), <- Hc. reflexivity.
    + assert (Double.eqb v mx = false) as ->; [|reflexivity].
      apply not_true_iff_false. intros Heq. apply eqb_eq in Heq.
      apply not_true_iff_false in Hbest. apply Hbest.
      apply (proj2 (eco_is_best_spec w f org)).
      intros other Ho. fold v. rewrite Heq. apply Hub.
      apply In_extra_values. exists other. auto.
Qed.

Lemma imap_map_seq {A B : Type} (F : nat -> A -> B) (G : nat -> A) (n : nat) :
  imap F (map G (seq 0 n)) = map (fun i => F i (G i)) (seq 0 n).
Proof.
  apply list_eq. intros i. rewrite list_lookup_imap, !list_lookup_fmap.
  destruct (seq 0 n !! i) as [j|] eqn:Hj; [|reflexivity].
  apply lookup_seq in Hj. destruct Hj as [-> _]. reflexivity.
Qed.

(** The readjusting loop after the first [k] functions. *)
Lemma readjust_prefix (w : W) (extra_funs : list (ORG -> Double.t))
  (pool_sizes : list Double.t) (k : nat) :
  (length extra_funs <= length pool_sizes)%nat ->
  (k <= length extra_funs)%nat ->
  foldl (eco_readjust (eco_collect w extra_funs) pool_sizes)
        (Some (base_fitness (eco_collect w extra_funs))) (seq 0 k)
  = Some (map (fun org =>
                 foldl (fun b fp =>
                          if eco_rewarded w (fst fp) && eco_is_best w (fst fp) org
                          then Double.add b (eco_share w (fst fp) (snd fp) org)
                          else b)
                       (CalcFitnessID w org) (take k (zip extra_funs pool_sizes)))
              (seq 0 (GetSize w))).
Proof.
  intros Hpools. induction k as [|k IH]; intros Hk.
  - simpl. destruct (collect_prefix w extra_funs (GetSize w) (le_n _)) as (_ & Hb & _).
    rewrite Nat.sub_diag, app_nil_r in Hb. unfold eco_collect. rewrite Hb. reflexivity.
  - rewrite seq_S, foldl_snoc, IH by lia. simpl (0 + k)%nat.
    destruct (lookup_lt_is_Some_2 extra_funs k ltac:(lia)) as [f Hf].
    destruct (lookup_lt_is_Some_2 pool_sizes k ltac:(lia)) as [pool Hpool].
    rewrite (readjust_pass w extra_funs pool_sizes k f pool _ Hf Hpool)
      by (rewrite length_map, length_seq; reflexivity).
    f_equal. rewrite imap_map_seq. apply map_ext. intros org.
    assert (Hz : zip extra_funs pool_sizes !! k = Some (f, pool))
      by (apply lookup_zip_Some; auto).
    rewrite (take_S_r _ _ _ Hz), foldl_snoc. reflexivity.
Qed.

Lemma eco_fitness_adjusted (w : W) (extra_funs : list (ORG -> Double.t))
  (pool_sizes : list Double.t) :
  (length extra_funs <= length pool_sizes)%nat ->
  eco_fitness w extra_funs pool_sizes
  = Some (map (eco_adjusted w extra_funs pool_sizes) (seq 0 (GetSize w))).
Proof.
  intros Hpools. unfold eco_fitness. cbv zeta.
  rewrite (readjust_prefix w extra_funs pool_sizes (length extra_funs) Hpools (le_n _)).
  f_equal. apply map_ext. intros org. unfold eco_adjusted.
  rewrite take_ge; [reflexivity|]. rewrite length_zip. lia.
Qed.

(** C3 (as amended).  When there is a pool size for every supplemental
    function, the fitness pass of [EcoSelect] gives every slot the value
    [eco_adjusted]: [CalcFitnessID] of the slot plus, function after
    function, the pool size divided (as doubles) by the number of
    organisms tied with it, for every function that is at least 0 on some
    organism and on which no organism has a greater value than this one;
    for any other function the slot gets nothing.  The tournaments of
    the call read this adjusted fitness, computed once after the cache is
    cleared: each births the first drawn contestant whose adjusted
    fitness no other contestant exceeds.  The share of one maximizer is
    exactly the pool size, and the share of each of two tied maximizers
    exactly half of it when the pool size is a double of magnitude at
    least [2^-1021], so that the half is not below the normal range. *)
Theorem eco_bonus_shares_pool
  (w : W) (extra_funs : list (ORG -> Double.t)) (pool_sizes : list Double.t) :
  (length extra_funs <= length pool_sizes)%nat ->
  eco_fitness w extra_funs pool_sizes
  = Some (map (eco_adjusted w extra_funs pool_sizes) (seq 0 (GetSize w))) /\
  (forall f, eco_rewarded w f = true <->
     exists org, (org < GetSize w)%nat /\ (0 <= Double.value (f (GetOrg w org)))%Q) /\
  (forall f org, eco_is_best w f org = true <->
     forall other, (other < GetSize w)%nat ->
       (Double.value (f (GetOrg w other)) <= Double.value (f (GetOrg w org)))%Q) /\
  (forall t_size tourny_count : nat,
     GetFitFun w = true -> (0 < GetSize w)%nat -> (0 < t_size <= GetSize w)%nat ->
     let w0 := if IsCacheOn w then ClearCache w else w in
     EcoSelect extra_funs pool_sizes t_size tourny_count w
     = for_range tourny_count
         (fun _ _ =>
            eco_tournament
              (map (eco_adjusted w0 extra_funs pool_sizes) (seq 0 (GetSize w0))) t_size)
         tt w0) /\
  (forall (t_size : nat) (w1 : W),
     (0 < t_size)%nat ->
     exists (entries : list nat) (w2 : W),
       draw_entries t_size w1 = Done entries w2 /\
       length entries = t_size /\
       ((forall e, In e entries -> (e < GetSize w)%nat) ->
        exists (pre post : list nat) (best_id : nat),
          entries = pre ++ best_id :: post /\
          eco_tournament
            (map (eco_adjusted w extra_funs pool_sizes) (seq 0 (GetSize w))) t_size w1
          = (let (_, w3) := DoBirth (GetGenomeAt w2 best_id) best_id 1 w2 in Done tt w3) /\
          (forall e, In e pre ->
             (Double.value (eco_adjusted w extra_funs pool_sizes e)
              < Double.value (eco_adjusted w extra_funs pool_sizes best_id))%Q) /\
          (forall e, In e post ->
             (Double.value (eco_adjusted w extra_funs pool_sizes e)
              <= Double.value (eco_adjusted w extra_funs pool_sizes best_id))%Q))) /\
  (forall f pool org,
     Double.normal pool ->
     num_tied (extra_values w f) (f (GetOrg w org)) = 1%nat ->
     (Double.value (eco_share w f pool org) == Double.value pool)%Q) /\
  (forall f pool org,
     Double.at_least (-1021) pool ->
     num_tied (extra_values w f) (f (GetOrg w org)) = 2%nat ->
     (Double.value (eco_share w f pool org) == Double.value pool / 2)%Q).
Proof.
  intros Hpools.
  split; [apply eco_fitness_adjusted; exact Hpools|].
  split; [intros f; apply eco_rewarded_spec|].
  split; [intros f org; apply eco_is_best_spec|].
  split; [|split; [|split]].
  - intros t_size tourny_count Hfun Hsize Ht w0.
    unfold EcoSelect, bind at 1, ask. rewrite Hfun.
    unfold bind at 1, emp_assert. unfold bind at 1, ask.
    unfold bind at 1.
    destruct (Nat.ltb_spec 0 (GetSize w)) as [_|]; [|lia].
    unfold bind at 1.
    destruct (Nat.ltb_spec 0 t_size) as [_|]; [|lia].
    destruct (Nat.leb_spec t_size (GetSize w)) as [_|]; [|lia]. cbn [andb].
    unfold bind at 1, ask. unfold bind at 1.
    assert (Hw0 : (if IsCacheOn w then act ClearCache else ret tt) w = Done tt w0).
    { unfold w0. destruct (IsCacheOn w); reflexivity. }
    rewrite Hw0. unfold bind at 1, ask.
    rewrite (eco_fitness_adjusted w0 extra_funs pool_sizes Hpools). reflexivity.
  - intros t_size w1 Ht.
    destruct (draw_entries_loop t_size 0 [] w1) as (entries & w2 & Hrun & Hlen).
    simpl app in Hrun. exists entries, w2.
    split; [exact Hrun|]. split; [exact Hlen|]. intros Hin.
    assert (Hne : entries <> []) by (intros ->; simpl in Hlen; lia).
    set (fitness := map (eco_adjusted w extra_funs pool_sizes) (seq 0 (GetSize w))).
    destruct (tournament_winner_first_best (fun id => fitness !!! id) entries Hne)
      as (pre & post & best_id & Hwin & Hsplit & Hpre & Hpost).
    assert (Hat : forall e, In e entries ->
                    fitness !!! e = eco_adjusted w extra_funs pool_sizes e).
    { intros e He. apply list_lookup_total_correct. unfold fitness.
      rewrite list_lookup_fmap, lookup_seq_lt by (apply Hin; exact He). reflexivity. }
    assert (Hbest : In best_id entries)
      by (rewrite Hsplit; apply in_or_app; right; left; reflexivity).
    exists pre, post, best_id. split; [exact Hsplit|]. split; [|split].
    + unfold eco_tournament, bind at 1. unfold draw_entries, for_range. rewrite Hrun.
      assert (Hall : forallb (fun e => (e <? length fitness)%nat) entries = true).
      { apply forallb_forall. intros e He. apply Nat.ltb_lt.
        unfold fitness. rewrite length_map, length_seq. apply Hin. exact He. }
      rewrite Hall, Hwin.
      unfold bind, ask, call, ret. destruct (DoBirth _ _ _ _); reflexivity.
    + intros e He. rewrite <- (Hat e), <- (Hat best_id) by
        (try exact Hbest; rewrite Hsplit; apply in_or_app; left; exact He).
      apply Hpre. exact He.
    + intros e He. rewrite <- (Hat e), <- (Hat best_id) by
        (try exact Hbest; rewrite Hsplit; apply in_or_app; right; right; exact He).
      apply Hpost. exact He.
  - intros f pool org Hn Hone. unfold eco_share. rewrite Hone.
    change (Double.of_Z (Z.of_nat 1)) with (Double.mk (2 ^ 0) 0).
    rewrite (div_pow2_value pool 0 Hn (Z.le_refl 0)). change (inject_Z (2 ^ 0)) with 1%Q.
    field.
  - intros f pool org (Hn & _ & _) Htwo. unfold eco_share. rewrite Htwo.
    change (Double.of_Z (Z.of_nat 2)) with (Double.mk (2 ^ 1) 0).
    rewrite (div_pow2_value pool 1 Hn ltac:(lia)). reflexivity.
Qed.

End EcoBonus.

(** *** Lexicase *)

Lemma lexicase_scan_below (fit : list Double.t) (g0 : nat) (m : Double.t) (next : list nat) :
  forall rest : list nat,
    (forall g, In g rest ->
       exists v, fit !! g = Some v /\ (Double.value v < Double.value m)%Q) ->
    foldl (lexicase_scan fit) (Some (m, next)) rest = Some (m, next).
Proof.
  induction rest as [|g rest IH]; intros Hrest; [reflexivity|].
  destruct (Hrest g (or_introl eq_refl)) as (v & Hv & Hlt).
  assert (Hs : lexicase_scan fit (Some (m, next)) g = Some (m, next)).
  { unfold lexicase_scan. rewrite Hv.
    assert (Double.ltb m v = false) as -> by (apply ltb_ge; apply Qlt_le_weak; exact Hlt).
    assert (Double.eqb v m = false) as ->; [|reflexivity].
    apply not_true_iff_false. intros Heq. apply eqb_eq in Heq. rewrite Heq in Hlt.
    exact (Qlt_irrefl _ Hlt). }
  cbn [foldl]. rewrite Hs.
  apply IH. intros g' Hg'. apply Hrest. right. exact Hg'.
Qed.

(** As a set, the survivors of one step are the current survivors whose
    value is the greatest among them. *)
Lemma lexicase_scan_members (fit : list Double.t) (g0 : nat) (rest : list nat) :
  forall (seen : list nat) (m : Double.t) (next : list nat),
    (forall g, In g rest -> is_Some (fit !! g)) ->
    next <> [] ->
    (forall g, In g next <->
               In g (g0 :: seen) /\ (Double.value (fit !!! g) == Double.value m)%Q) ->
    (forall g, In g (g0 :: seen) -> (Double.value (fit !!! g) <= Double.value m)%Q) ->
    exists (m' : Double.t) (next' : list nat),
      foldl (lexicase_scan fit) (Some (m, next)) rest = Some (m', next') /\
      next' <> [] /\
      (forall g, In g next' <->
                 In g (g0 :: seen ++ rest) /\
                 (Double.value (fit !!! g) == Double.value m')%Q) /\
      (forall g, In g (g0 :: seen ++ rest) ->
                 (Double.value (fit !!! g) <= Double.value m')%Q).
Proof.
  induction rest as [|x rest IH]; intros seen m next Hdef Hne Hmem Hub.
  - exists m, next. rewrite app_nil_r. auto.
  - destruct (Hdef x (or_introl eq_refl)) as [v Hv].
    assert (Hx : fit !!! x = v) by (apply list_lookup_total_correct; exact Hv).
    assert (Hdef' : forall g, In g rest -> is_Some (fit !! g))
      by (intros g Hg; apply Hdef; right; exact Hg).
    assert (Hsnoc : forall g, In g (g0 :: seen ++ [x]) <-> In g (g0 :: seen) \/ g = x).
    { intros g. simpl. rewrite in_app_iff. simpl. intuition. }
    cbn [foldl]. unfold lexicase_scan at 2. rewrite Hv.
    replace (seen ++ x :: rest) with ((seen ++ [x]) ++ rest)
      by (rewrite <- app_assoc; reflexivity).
    destruct (Double.ltb m v) eqn:Hlt; [|destruct (Double.eqb v m) eqn:Heq].
    + apply ltb_lt in Hlt. apply IH; [exact Hdef' | discriminate | |].
      * intros g. rewrite Hsnoc. split.
        -- intros [<- | []]. split; [right; reflexivity | rewrite Hx; reflexivity].
        -- intros [[Hold | ->] Hval]; [|left; reflexivity]. exfalso.
           specialize (Hub g Hold). rewrite Hval in Hub.
           exact (Qlt_irrefl _ (Qle_lt_trans _ _ _ Hub Hlt)).
      * intros g Hg. apply Hsnoc in Hg. destruct Hg as [Hold | ->].
        -- apply Qlt_le_weak. eapply Qle_lt_trans; [apply Hub; exact Hold | exact Hlt].
        -- rewrite Hx. apply Qle_refl.
    + apply eqb_eq in Heq. apply IH; [exact Hdef' | | |].
      * intros Hnil. apply app_eq_nil in Hnil. destruct Hnil as [_ Hnil]. discriminate.
      * intros g. rewrite Hsnoc, in_app_iff, Hmem. simpl. split.
        -- intros [[Hold Hval] | [<- | []]]; [auto|]. split; [right; reflexivity|].
           rewrite Hx. exact Heq.
        -- intros [[Hold | ->] Hval]; [left; auto | right; left; reflexivity].
      * intros g Hg. apply Hsnoc in Hg. destruct Hg as [Hold | ->]; [auto|].
        rewrite Hx, Heq. apply Qle_refl.
    + apply ltb_ge in Hlt. apply IH; [exact Hdef' | exact Hne | |].
      * intros g. rewrite Hsnoc, Hmem. split; [intros [Hold Hval]; auto|].
        intros [[Hold | ->] Hval]; [auto|]. exfalso.
        rewrite Hx in Hval. apply not_true_iff_false in Heq. apply Heq.
        apply eqb_eq. exact Hval.
      * intros g Hg. apply Hsnoc in Hg. destruct Hg as [Hold | ->]; [auto|].
        rewrite Hx. exact Hlt.
Qed.

Lemma lexicase_step_keeps_maxima (fit : list Double.t) (g0 : nat) (rest : list nat) :
  (forall g, In g (g0 :: rest) -> is_Some (fit !! g)) ->
  exists (m : Double.t) (next : list nat),
    lexicase_step fit (g0 :: rest) = Some next /\
    next <> [] /\
    (forall g, In g next <->
               In g (g0 :: rest) /\ (Double.value (fit !!! g) == Double.value m)%Q) /\
    (forall g, In g (g0 :: rest) -> (Double.value (fit !!! g) <= Double.value m)%Q).
Proof.
  intros Hdef. destruct (Hdef g0 (or_introl eq_refl)) as [m0 Hm0].
  assert (Hg0 : fit !!! g0 = m0) by (apply list_lookup_total_correct; exact Hm0).
  destruct (lexicase_scan_members fit g0 (g0 :: rest) [] m0 [g0] Hdef)
    as (m & next & Hrun & Hne & Hmem & Hub).
  - discriminate.
  - intros g. simpl. split.
    + intros [<- | []]. split; [left; reflexivity | rewrite Hg0; reflexivity].
    + intros [[<- | []] _]. left; reflexivity.
  - intros g [<- | []]. rewrite Hg0. apply Qle_refl.
  - exists m, next. unfold lexicase_step. cbn [lookup list_lookup]. rewrite Hm0, Hrun.
    split; [reflexivity|]. split; [exact Hne|]. split.
    + intros g. rewrite Hmem. simpl. intuition.
    + intros g Hg. apply Hub. simpl. simpl in Hg. intuition.
Qed.

(** C1 (the defect). When the first of the current survivors is the
    only one with the greatest value for the function applied, the step
    keeps it twice: the survivor list has two entries, its size is not 1,
    and the loop goes on to the next function instead of stopping. *)
Theorem lexicase_sole_leader_kept_twice
  (fitnesses : list (list Double.t)) (fit : list Double.t) (fit_id : nat)
  (order' : list nat) (g0 : nat) (rest : list nat) (m : Double.t) (depth : Z) :
  fitnesses !! fit_id = Some fit ->
  fit !! g0 = Some m ->
  (forall g, In g rest ->
     exists v, fit !! g = Some v /\ (Double.value v < Double.value m)%Q) ->
  lexicase_step fit (g0 :: rest) = Some [g0; g0] /\
  lexicase_filter fitnesses (fit_id :: order') (g0 :: rest) depth
  = lexicase_filter fitnesses order' [g0; g0] (depth + 1).
Proof.
  intros Hfit Hm Hrest.
  assert (Hstep : lexicase_step fit (g0 :: rest) = Some [g0; g0]).
  { assert (Hs : lexicase_scan fit (Some (m, [g0])) g0 = Some (m, [g0; g0])).
    { unfold lexicase_scan. rewrite Hm.
      assert (Double.ltb m m = false) as -> by (apply ltb_ge; apply Qle_refl).
      assert (Double.eqb m m = true) as -> by (apply eqb_eq; reflexivity).
      reflexivity. }
    unfold lexicase_step. cbn [lookup list_lookup]. rewrite Hm. cbn [foldl]. rewrite Hs.
    rewrite (lexicase_scan_below fit g0 m [g0; g0] rest Hrest). reflexivity. }
  split; [exact Hstep|].
  simpl lexicase_filter. rewrite Hfit, Hstep. reflexivity.
Qed.

Lemma lexicase_sole_leader_kept_twice_witness :
  lexicase_step [Population.dbl 5; Population.dbl 3] [0; 1]%nat = Some [0; 0]%nat /\
  lexicase_filter [[Population.dbl 5; Population.dbl 3]; [Population.dbl 1; Population.dbl 1]]
    [0; 1]%nat [0; 1]%nat (-1)
  = lexicase_filter [[Population.dbl 5; Population.dbl 3]; [Population.dbl 1; Population.dbl 1]]
      [1]%nat [0; 0]%nat (-1 + 1).
Proof.
  apply (lexicase_sole_leader_kept_twice
           [[Population.dbl 5; Population.dbl 3]; [Population.dbl 1; Population.dbl 1]]
           [Population.dbl 5; Population.dbl 3] 0 [1]%nat 0 [1]%nat (Population.dbl 5) (-1)).
  - reflexivity.
  - reflexivity.
  - intros g [<- | []]. exists (Population.dbl 3). split; [reflexivity|].
    vm_compute. reflexivity.
Defined.

(** The same on a whole call: function 0 leaves the genotype of slot 0
    as the only survivor, yet the observer is told that functions 0 and 1
    were both used. *)
Example lexicase_observer_sees_extra_function :
  match LexicaseSelect Population.identity_permutation
          [Population.by_distance; Population.by_genome] 1 0 Population.two_orgs with
  | Done _ w' => Population.lexicase_log w'
  | _ => []
  end = [([0; 1]%nat, 0%Z)].
Proof. vm_compute. reflexivity. Qed.

(** *** Concrete runs *)

(** C2 fails as stated: slot 0 holds the single fittest organism and the
    tournament size is the population size, but both contestants drawn
    are slot 1, whose organism is the one that reproduces. *)
Lemma tournament_full_size_misses_maximum :
  GetSize Population.two_orgs = 2%nat /\
  Double.ltb (CalcFitnessID Population.two_orgs 1) (CalcFitnessID Population.two_orgs 0) = true /\
  match TournamentSelect 2 1 Population.two_orgs with
  | Done _ w' => Population.births w'
  | _ => []
  end = [(1%nat, 1%nat)].
Proof. vm_compute. auto. Qed.

Lemma tournament_births_fittest_entry_witness :
  exists (entries : list nat) (w1 : Population.t) (pre post : list nat) (best_id : nat),
    draw_entries 2 Population.two_orgs = Done entries w1 /\
    length entries = 2%nat /\
    tournament 2 Population.two_orgs
    = (let (_, w2) := DoBirth (GetGenomeAt w1 best_id) best_id 1 w1 in Done tt w2) /\
    entries = pre ++ best_id :: post /\
    (forall e, In e pre ->
       (Double.value (CalcFitnessID w1 e) < Double.value (CalcFitnessID w1 best_id))%Q) /\
    (forall e, In e post ->
       (Double.value (CalcFitnessID w1 e) <= Double.value (CalcFitnessID w1 best_id))%Q) /\
    (forall m : nat,
       (forall id, id <> m ->
          (Double.value (CalcFitnessID w1 id) < Double.value (CalcFitnessID w1 m))%Q) ->
       (In m entries <-> best_id = m)) /\
    TournamentSelect 2 1 Population.two_orgs = tournament 2 Population.two_orgs.
Proof. apply (tournament_births_fittest_entry 2 Population.two_orgs). lia. Defined.

(** C3 fails as stated: with every value negative, the organism of slot
    0 has the greatest value of the supplemental function, alone, and
    gains nothing of the pool of 8. *)
Lemma eco_negative_maximum_gets_no_bonus :
  extra_values Population.two_orgs Population.negated
  = [Population.dbl (-10); Population.dbl (-20)] /\
  eco_fitness Population.two_orgs [Population.negated] [Population.dbl 8]
  = Some [Population.dbl 2; Population.dbl 1].
Proof. vm_compute. auto. Qed.

(** The bonus of 8 goes to slot 1, the one organism with the greatest
    genome; and with a function on which the two organisms are tied each
    gets 4. *)
Lemma eco_bonus_shares_pool_witness :
  match eco_fitness Population.two_orgs [Population.by_genome] [Population.dbl 8] with
  | Some [a; b] => Double.eqb a (Population.dbl 2) && Double.eqb b (Population.dbl 9)
  | _ => false
  end = true /\
  match eco_fitness Population.two_orgs [fun _ => Population.dbl 1] [Population.dbl 8] with
  | Some [a; b] => Double.eqb a (Population.dbl 6) && Double.eqb b (Population.dbl 5)
  | _ => false
  end = true.
Proof.
  destruct (eco_bonus_shares_pool Population.two_orgs [Population.by_genome]
              [Population.dbl 8]) as (Hone & _); [simpl; lia|].
  destruct (eco_bonus_shares_pool Population.two_orgs [fun _ => Population.dbl 1]
              [Population.dbl 8]) as (Htied & _); [simpl; lia|].
  split.
  - rewrite Hone. vm_compute. reflexivity.
  - rewrite Htied. vm_compute. reflexivity.
Defined.


(** C8 fails as stated: two pool sizes for one supplemental function is
    no error for [EcoSelect]; the call completes and an organism is born. *)
Lemma eco_accepts_mismatched_pool_sizes :
  match EcoSelect [Population.by_genome] [Population.dbl 8; Population.dbl 9] 1 1
          Population.two_orgs with
  | Done _ w' => Population.births w'
  | _ => []
  end = [(1%nat, 1%nat)].
Proof. vm_compute. reflexivity. Qed.

Lemma MapElites_leave_world_unchanged_witness :
  MapElitesSeed [{| pheno_fun := Some Z.to_nat; id_count := 4 |}] 3%Z Population.two_orgs
  = Done tt Population.two_orgs /\
  MapElitesGrow [{| pheno_fun := Some Z.to_nat; id_count := 4 |}] 1 Population.two_orgs
  = Done tt Population.two_orgs.
Proof.
  apply (MapElites_leave_world_unchanged Population.two_orgs
           [{| pheno_fun := Some Z.to_nat; id_count := 4 |}] 3%Z 1).
  - vm_compute. lia.
  - reflexivity.
Defined.

End SelectSpec.

(** ** Further properties of the generator *)


Module RandomExtra.
Import Random DoubleFacts RandomFacts.
Local Open Scope Z_scope.

Lemma lor_disjoint (a b : Z) :
  0 <= a < 2 ^ 32 -> 0 <= b -> Z.lor a (b * 2 ^ 32) = a + b * 2 ^ 32.
Proof.
  intros Ha Hb. rewrite <- Z.lxor_lor, <- Z.add_nocarry_lxor; try reflexivity.
  all: apply Z.bits_inj'; intros n Hn; rewrite Z.land_spec, Z.bits_0.
  all: destruct (Z_lt_le_dec n 32) as [Hlt|Hge].
  all: try (rewrite Z.mul_pow2_bits_low by lia; apply andb_false_r).
  all: assert (Z.testbit a n = false) as ->; [|reflexivity].
  all: destruct (Z.eq_dec a 0) as [->|]; [apply Z.bits_0|].
  all: apply Z.bits_above_log2; [lia|].
  all: assert (Z.log2 a < 32) by (apply Z.log2_lt_pow2; lia); lia.
Qed.

(** X1. [Get] returns the upper 32 bits of the 64-bit sum of the squared
    value and the advanced Weyl state, and stores that sum with its two
    halves exchanged. *)
Theorem Get_middle (r : t) :
  let s := uint64 (uint64 (value r * value r) + uint64 (weyl_state r + STEP_SIZE)) in
  fst (Get r) = s / 2 ^ 32 /\
  value (snd (Get r)) = s / 2 ^ 32 + (s mod 2 ^ 32) * 2 ^ 32 /\
  0 <= value (snd (Get r)) < 2 ^ 64 /\
  weyl_state (snd (Get r)) = uint64 (weyl_state r + STEP_SIZE).
Proof.
  cbn zeta. unfold Get. cbn [fst snd value weyl_state].
  set (s := uint64 (uint64 (value r * value r) + uint64 (weyl_state r + STEP_SIZE))).
  assert (Hs : 0 <= s < 2 ^ 64) by (unfold s, uint64; apply Z.mod_pos_bound; lia).
  assert (Hhi : 0 <= s / 2 ^ 32 < 2 ^ 32).
  { split; [apply Z.div_pos; lia|]. apply Z.div_lt_upper_bound; lia. }
  pose proof (Z.mod_pos_bound s (2 ^ 32) ltac:(lia)) as Hlo.
  assert (Hshl : uint64 (Z.shiftl s 32) = (s mod 2 ^ 32) * 2 ^ 32).
  { unfold uint64. rewrite Z.shiftl_mul_pow2 by lia.
    change (2 ^ 64) with (2 ^ 32 * 2 ^ 32).
    rewrite Zmult_mod_distr_r. reflexivity. }
  rewrite Hshl, Z.shiftr_div_pow2 by lia.
  rewrite lor_disjoint by lia.
  split; [|split; [reflexivity|split; [|reflexivity]]].
  - unfold uint32. rewrite Z.mod_add by lia. apply Z.mod_small. exact Hhi.
  - change (2 ^ 64) with (2 ^ 32 * 2 ^ 32). nia.
Qed.

Lemma uint64_add_l (x y : Z) : uint64 (uint64 x + y) = uint64 (x + y).
Proof. unfold uint64. apply Zplus_mod_idemp_l. Qed.

Lemma odd_uint64 (x : Z) : Z.odd (uint64 x) = Z.odd x.
Proof.
  unfold uint64. rewrite <- !Z.bit0_odd. apply Z.mod_pow2_bits_low. lia.
Qed.

Lemma odd_of_nat (n : nat) : Z.odd (Z.of_nat n) = Nat.odd n.
Proof.
  induction n as [|n IH]; [reflexivity|].
  rewrite Nat2Z.inj_succ, Z.odd_succ, Nat.odd_succ, <- Z.negb_odd, <- Nat.negb_odd, IH.
  reflexivity.
Qed.

Lemma uint64_idem (x : Z) : uint64 (uint64 x) = uint64 x.
Proof. unfold uint64. apply Zmod_mod. Qed.

Lemma after_S (n : nat) (r : t) : after (S n) r = snd (Get (after n r)).
Proof.
  revert r. induction n as [|n IH]; intros r; [reflexivity|].
  change (after (S (S n)) r) with (after (S n) (snd (Get r))).
  rewrite IH. reflexivity.
Qed.

Lemma weyl_state_after (n : nat) (r : t) :
  uint64 (weyl_state (after n r)) = uint64 (weyl_state r + Z.of_nat n * STEP_SIZE).
Proof.
  induction n as [|n IH].
  - simpl. rewrite Z.add_0_r. reflexivity.
  - rewrite after_S. unfold Get at 1. cbn [snd weyl_state].
    rewrite uint64_idem, <- uint64_add_l, IH, uint64_add_l. f_equal. lia.
Qed.

Lemma ResetSeed_weyl (seed_time seed_mem seed : Z) (r : t) :
  weyl_state (ResetSeed seed_time seed_mem seed r)
  = uint64 (2 * GetSeed (ResetSeed seed_time seed_mem seed r)).
Proof.
  unfold ResetSeed, GetSeed. cbn [weyl_state original_seed]. f_equal. lia.
Qed.

(** X2. [ResetSeed] keeps the seed it used retrievable and starts the
    Weyl sequence at twice that seed, an even state, for every seed; a
    seed above zero (an [int64_t]) is used as it is.  The squaring value
    is not touched. *)
Theorem ResetSeed_start (seed_time seed_mem seed : Z) (r : t) :
  let r0 := ResetSeed seed_time seed_mem seed r in
  weyl_state r0 = uint64 (2 * GetSeed r0) /\
  Z.even (weyl_state r0) = true /\
  0 <= GetSeed r0 < 2 ^ 64 /\
  value r0 = value r /\
  (0 < seed < 2 ^ 63 -> GetSeed r0 = seed /\ weyl_state r0 = 2 * seed).
Proof.
  cbn zeta. unfold ResetSeed, GetSeed. cbn [weyl_state original_seed value].
  set (w := if seed <=? 0 then Z.lxor (uint64 seed_time) (uint64 seed_mem) else uint64 seed).
  assert (Hw : 0 <= w < 2 ^ 64).
  { unfold w. destruct (seed <=? 0).
    - assert (H1 : 0 <= uint64 seed_time < 2 ^ 64) by (apply Z.mod_pos_bound; lia).
      assert (H2 : 0 <= uint64 seed_mem < 2 ^ 64) by (apply Z.mod_pos_bound; lia).
      split; [apply Z.lxor_nonneg; lia|].
      destruct (Z.eq_dec (Z.lxor (uint64 seed_time) (uint64 seed_mem)) 0) as [->|Hne]; [lia|].
      apply Z.log2_lt_pow2; [pose proof (proj2 (Z.lxor_nonneg _ _) (conj (fun _ => proj1 H2) (fun _ => proj1 H1))); lia|].
      eapply Z.le_lt_trans; [apply Z.log2_lxor; lia|].
      apply Z.max_lub_lt.
      + destruct (Z.eq_dec (uint64 seed_time) 0) as [->|]; [reflexivity|]. apply Z.log2_lt_pow2; lia.
      + destruct (Z.eq_dec (uint64 seed_mem) 0) as [->|]; [reflexivity|]. apply Z.log2_lt_pow2; lia.
    - apply Z.mod_pos_bound. lia. }
  split; [f_equal; lia|]. split.
  { rewrite <- Z.negb_odd, odd_uint64, Z.odd_mul. apply negb_true_iff, andb_false_r. }
  split; [exact Hw|]. split; [reflexivity|].
  intros Hs. unfold w. destruct (Z.leb_spec seed 0); [lia|].
  unfold uint64. rewrite (Z.mod_small seed) by lia. split; [reflexivity|].
  rewrite Z.mod_small by lia. lia.
Qed.

(** X3. The Weyl state of a seeded generator advances by the fixed odd
    step on every draw, whatever the squaring value does: after [n]
    draws it is twice the seed plus [n] steps modulo [2^64], so it is
    odd exactly after an odd number of draws. *)
Theorem weyl_sequence (seed_time seed_mem seed : Z) (r : t) (n : nat) :
  let r0 := ResetSeed seed_time seed_mem seed r in
  weyl_state (after n r0) = uint64 (2 * GetSeed r0 + Z.of_nat n * STEP_SIZE) /\
  Z.odd (weyl_state (after n r0)) = Nat.odd n.
Proof.
  cbn zeta. set (r0 := ResetSeed seed_time seed_mem seed r).
  assert (Hrange : uint64 (weyl_state (after n r0)) = weyl_state (after n r0)).
  { destruct n as [|n].
    - simpl. unfold r0, ResetSeed. cbn [weyl_state]. unfold uint64. apply Zmod_mod.
    - rewrite after_S. unfold Get. cbn [snd weyl_state]. unfold uint64. apply Zmod_mod. }
  assert (Hform : weyl_state (after n r0) = uint64 (2 * GetSeed r0 + Z.of_nat n * STEP_SIZE)).
  { rewrite <- Hrange, weyl_state_after.
    pose proof (ResetSeed_weyl seed_time seed_mem seed r) as Hw. fold r0 in Hw.
    rewrite Hw, uint64_add_l. reflexivity. }
  split; [exact Hform|].
  rewrite Hform, odd_uint64, Z.odd_add, !Z.odd_mul, odd_of_nat.
  change (Z.odd 2) with false. change (Z.odd STEP_SIZE) with true.
  rewrite andb_true_r. reflexivity.
Qed.

Lemma ResetSeed_start_witness :
  GetSeed (ResetSeed 100 4096 42 fresh) = 42 /\
  weyl_state (ResetSeed 100 4096 42 fresh) = 2 * 42.
Proof.
  apply (proj2 (proj2 (proj2 (proj2 (ResetSeed_start 100 4096 42 fresh))))). lia.
Defined.

(** X4. [GetDouble()] lies in [[0, 1)], and [GetDouble(max)] in
    [[0, max)] for every positive double [max] of at least [2^-990]: a
    uniform double other than 0 is at least [2^-32], so the product is
    in the normal range of binary64, where it is rounded to 53
    significant bits, and that rounding never reaches [max].  (Below
    that range the product can be subnormal, and binary64 may round it
    up to [max].) *)
Theorem GetDouble_range (r : t) :
  (0 <= Double.value (fst (GetDouble r)) < 1)%Q /\
  (forall max : Double.t,
      Double.at_least (-990) max ->
      (0 < Double.value max)%Q ->
      (0 <= Double.value (fst (GetDouble_max max r)) < Double.value max)%Q /\
      snd (GetDouble_max max r) = snd (Get r)).
Proof.
  pose proof (Get_range r) as Hg. split.
  - rewrite GetDouble_value. change (inject_Z RAND_CAP) with (inject_Z (2 ^ 32)).
    split.
    + apply Qle_shift_div_l; [reflexivity|]. rewrite Qmult_0_l.
      change 0%Q with (inject_Z 0). rewrite <- Zle_Qle. lia.
    + apply Qlt_shift_div_r; [reflexivity|]. rewrite Qmult_1_l. rewrite <- Zlt_Qlt. lia.
  - intros max _ Hmax. apply GetDouble_max_below. exact Hmax.
Qed.

Lemma GetDouble_range_witness :
  (0 <= Double.value (fst (GetDouble_max (Double.mk 3 0) (new 0 0 1)))
   < Double.value (Double.mk 3 0))%Q /\
  snd (GetDouble_max (Double.mk 3 0) (new 0 0 1)) = snd (Get (new 0 0 1)).
Proof.
  apply (proj2 (GetDouble_range (new 0 0 1)) (Double.mk 3 0)).
  - unfold Double.at_least, Double.normal.
    repeat split; vm_compute; first [reflexivity | discriminate].
  - vm_compute. reflexivity.
Defined.

Lemma GetUInt_bound (n : Z) (r : t) :
  0 < n -> 0 <= fst (GetUInt n r) < n /\ snd (GetUInt n r) = snd (Get r).
Proof.
  intros Hn. destruct (GetDouble_form r) as (k & Hk & Hd & Hs).
  pose proof (Get_range r) as Hg.
  unfold GetUInt. destruct (GetDouble r) as [d r1]. cbn [fst snd] in *.
  split; [|exact Hs].
  destruct (Z_lt_le_dec n (2 ^ 32)) as [Hsmall | Hbig].
  - pose proof (RandomSpec.scaled_trunc_bound _ k n Hg Hk ltac:(lia)) as Hb.
    rewrite <- Hd in Hb. unfold uint32. rewrite Z.mod_small; lia.
  - pose proof (uint32_range (Double.trunc (Double.mul d (Double.of_Z n)))). lia.
Qed.

Lemma GetUInt_zero (r : t) : fst (GetUInt 0 r) = 0 /\ snd (GetUInt 0 r) = snd (Get r).
Proof.
  destruct (GetDouble_form r) as (k & Hk & Hd & Hs).
  unfold GetUInt. destruct (GetDouble r) as [d r1]. cbn [fst snd] in *. subst d.
  split; [|exact Hs].
  change (Double.of_Z 0) with (Double.mk 0 0).
  unfold Double.mul, Double.rnd, Double.trunc. cbn [Double.mant Double.expo].
  rewrite Z.mul_0_r. cbn [Z.sgn Z.mul].
  destruct (0 <=? - (k + 32) + 0); [reflexivity|].
  rewrite Z.quot_0_l; [reflexivity|]. apply Z.pow_nonzero; lia.
Qed.

Lemma int32_small (x : Z) : 0 <= x < 2 ^ 31 -> int32 x = x.
Proof.
  intros Hx. unfold int32, uint32. rewrite Z.mod_small by lia.
  destruct (Z.ltb_spec x (2 ^ 31)); [reflexivity | lia].
Qed.

Lemma int32_id (x : Z) : - 2 ^ 31 <= x < 2 ^ 31 -> int32 x = x.
Proof.
  intros Hx. destruct (Z_lt_le_dec x 0) as [Hneg|Hpos]; [|apply int32_small; lia].
  unfold int32, uint32.
  assert (Hm : x mod 2 ^ 32 = x + 2 ^ 32).
  { symmetry. apply (Z.mod_unique_pos _ _ (-1)); lia. }
  rewrite Hm. destruct (Z.ltb_spec (x + 2 ^ 32) (2 ^ 31)); lia.
Qed.

Lemma GetInt_bound (max : Z) (r : t) :
  0 < max < 2 ^ 31 ->
  0 <= fst (GetInt max r) < max /\ snd (GetInt max r) = snd (Get r).
Proof.
  intros Hmax. unfold GetInt.
  assert (Hu : uint32 max = max) by (unfold uint32; apply Z.mod_small; lia).
  rewrite Hu. destruct (GetUInt_bound max r ltac:(lia)) as [Hx Hs].
  destruct (GetUInt max r) as [x r1]. cbn [fst snd] in *.
  rewrite int32_small by lia. auto.
Qed.

(** X5. The ranged integer draws stay in their range and use one raw
    draw each: [GetUInt(min, max)] is in [[min, max)] for
    [0 <= min < max < 2^32] and is [min] when [max = min];
    [GetInt(max)] is in [[0, max)] for [0 < max < 2^31]; and
    [GetInt(min, max)] is in [[min, max)] for [int] bounds [min < max]
    whose difference fits an [int]. *)
Theorem ranged_draws (r : t) :
  (forall min max, 0 <= min < max -> max < 2 ^ 32 ->
     min <= fst (GetUInt_between min max r) < max /\
     snd (GetUInt_between min max r) = snd (Get r)) /\
  (forall min, 0 <= min < 2 ^ 32 -> fst (GetUInt_between min min r) = min) /\
  (forall max, 0 < max < 2 ^ 31 ->
     0 <= fst (GetInt max r) < max /\ snd (GetInt max r) = snd (Get r)) /\
  (forall min max, - 2 ^ 31 <= min -> min < max -> max < 2 ^ 31 ->
     max - min < 2 ^ 31 ->
     min <= fst (GetInt_between min max r) < max /\
     snd (GetInt_between min max r) = snd (Get r)).
Proof.
  assert (HInt : forall max, 0 < max < 2 ^ 31 ->
            0 <= fst (GetInt max r) < max /\ snd (GetInt max r) = snd (Get r))
    by (intros max Hmax; apply GetInt_bound; exact Hmax).
  split; [|split; [|split; [exact HInt|]]].
  - intros min max Hmin Hmax. unfold GetUInt_between.
    assert (Hu : uint32 min = min) by (unfold uint32; apply Z.mod_small; lia).
    assert (Hv : uint32 max = max) by (unfold uint32; apply Z.mod_small; lia).
    assert (Hn : uint32 (max - min) = max - min)
      by (unfold uint32; apply Z.mod_small; lia).
    rewrite Hu, Hv, Hn. destruct (GetUInt_bound (max - min) r ltac:(lia)) as [Hx Hs].
    destruct (GetUInt (max - min) r) as [x r1]. cbn [fst snd] in *.
    unfold uint32. rewrite Z.mod_small by lia. split; [lia | exact Hs].
  - intros min Hmin. unfold GetUInt_between.
    assert (Hn : uint32 (uint32 min - uint32 min) = 0)
      by (rewrite Z.sub_diag; reflexivity).
    rewrite Hn. destruct (GetUInt_zero r) as [Hx _].
    destruct (GetUInt 0 r) as [x r1]. cbn [fst] in *. subst x.
    unfold uint32. rewrite Z.add_0_l, Zmod_mod. apply Z.mod_small. lia.
  - intros min max Hlo Hlt Hhi Hfit. unfold GetInt_between.
    rewrite (int32_small (max - min)) by lia.
    destruct (HInt (max - min) ltac:(lia)) as [Hx Hs].
    destruct (GetInt (max - min) r) as [x r1]. cbn [fst snd] in *.
    rewrite int32_id by lia. split; [lia | exact Hs].
Qed.

Lemma ranged_draws_witness :
  10 <= fst (GetUInt_between 10 20 (new 0 0 1)) < 20 /\
  snd (GetUInt_between 10 20 (new 0 0 1)) = snd (Get (new 0 0 1)).
Proof. apply (proj1 (ranged_draws (new 0 0 1)) 10 20); lia. Defined.

Ltac bitwise :=
  apply Z.bits_inj'; intros ? _; rewrite ?Z.land_spec, ?Z.lor_spec;
  repeat match goal with
         | |- context [Z.testbit ?x ?n] => destruct (Z.testbit x n)
         end; reflexivity.

Lemma lor_range (a b : Z) :
  0 <= a < 2 ^ 32 -> 0 <= b < 2 ^ 32 -> 0 <= Z.lor a b < 2 ^ 32.
Proof.
  intros Ha Hb. assert (H0 : 0 <= Z.lor a b) by (apply Z.lor_nonneg; lia).
  split; [exact H0|].
  destruct (Z.eq_dec (Z.lor a b) 0) as [->|Hne]; [lia|].
  apply Z.log2_lt_pow2; [lia|]. rewrite Z.log2_lor by lia.
  apply Z.max_lub_lt.
  - destruct (Z.eq_dec a 0) as [->|]; [reflexivity|]. apply Z.log2_lt_pow2; lia.
  - destruct (Z.eq_dec b 0) as [->|]; [reflexivity|]. apply Z.log2_lt_pow2; lia.
Qed.

Lemma land_range (a b : Z) :
  0 <= a < 2 ^ 32 -> 0 <= b -> 0 <= Z.land a b < 2 ^ 32.
Proof.
  intros Ha Hb. assert (H0 : 0 <= Z.land a b) by (apply Z.land_nonneg; lia).
  split; [exact H0|].
  destruct (Z.eq_dec (Z.land a b) 0) as [->|Hne]; [lia|].
  apply Z.log2_lt_pow2; [lia|].
  eapply Z.le_lt_trans; [apply Z.log2_land; lia|].
  eapply Z.le_lt_trans; [apply Z.le_min_l|].
  destruct (Z.eq_dec a 0) as [->|]; [reflexivity|]. apply Z.log2_lt_pow2; lia.
Qed.

(** X6. Drawn from the same state, the bit masks are nested: every bit
    set by [GetBits12_5] is set by [GetBits25], every bit of that by
    [GetBits50], of that by [GetBits75], and of that by [GetBits87_5].
    Each mask is a 32-bit value and costs three, two, one, two and three
    raw draws. *)
Theorem bit_masks_nested (r : t) :
  let m12 := fst (GetBits12_5 r) in
  let m25 := fst (GetBits25 r) in
  let m50 := fst (GetBits50 r) in
  let m75 := fst (GetBits75 r) in
  let m87 := fst (GetBits87_5 r) in
  Z.land m12 m25 = m12 /\ Z.land m25 m50 = m25 /\
  Z.land m50 m75 = m50 /\ Z.land m75 m87 = m75 /\
  (0 <= m12 < 2 ^ 32 /\ 0 <= m25 < 2 ^ 32 /\ 0 <= m75 < 2 ^ 32 /\ 0 <= m87 < 2 ^ 32) /\
  snd (GetBits12_5 r) = after 3 r /\ snd (GetBits25 r) = after 2 r /\
  snd (GetBits50 r) = after 1 r /\
  snd (GetBits75 r) = after 2 r /\ snd (GetBits87_5 r) = after 3 r.
Proof.
  cbn zeta. unfold GetBits12_5, GetBits25, GetBits50, GetBits75, GetBits87_5.
  cbn [after].
  pose proof (Get_range r) as Ha.
  pose proof (Get_range (snd (Get r))) as Hb.
  pose proof (Get_range (snd (Get (snd (Get r))))) as Hc.
  destruct (Get r) as [a r1]. cbn [fst snd] in *.
  destruct (Get r1) as [b r2]. cbn [fst snd] in *.
  destruct (Get r2) as [c r3]. cbn [fst snd] in *.
  repeat split; try reflexivity.
  - bitwise.
  - bitwise.
  - bitwise.
  - bitwise.
  - apply land_range; [apply land_range|]; lia.
  - apply land_range; [apply land_range|]; lia.
  - apply land_range; lia.
  - apply land_range; lia.
  - apply lor_range; lia.
  - apply lor_range; lia.
  - apply lor_range; [apply lor_range|]; lia.
  - apply lor_range; [apply lor_range|]; lia.
Qed.

(** X7. On the same draw a larger probability never loses a success:
    for [p <= q] in [0,1], if [P(p)] answers [true] in some state then so
    does [P(q)], and both leave the same state behind. *)
Theorem P_monotone (p q : Double.t) (r : t) :
  Double.normal p -> Double.normal q ->
  (0 <= Double.value p)%Q -> (Double.value p <= Double.value q)%Q ->
  (Double.value q <= 1)%Q ->
  P p r = Done true (snd (Get r)) -> P q r = Done true (snd (Get r)).
Proof.
  intros Hnp Hnq H0 Hpq H1.
  rewrite (RandomSpec.P_accepts p r) by (split; [assumption | eapply Qle_trans; eassumption]).
  rewrite (RandomSpec.P_accepts q r) by (split; [eapply Qle_trans; eassumption | assumption]).
  intros Hp. f_equal.
  assert (Hlt : Double.ltb (Double.of_Z (fst (Get r)))
                  (Double.mul p (Double.of_Z RAND_CAP)) = true) by congruence.
  apply RandomSpec.ltb_threshold in Hlt; [|exact Hnp].
  apply RandomSpec.ltb_threshold; [exact Hnq|].
  eapply Qlt_le_trans; [exact Hlt|].
  apply Qmult_le_compat_r; [exact Hpq | discriminate].
Qed.

Lemma P_monotone_witness :
  P Double.one (new 0 0 1) = Done true (snd (Get (new 0 0 1))).
Proof.
  apply (P_monotone (Double.mk 3 (-2)) Double.one (new 0 0 1)).
  - vm_compute. reflexivity.
  - vm_compute. reflexivity.
  - vm_compute. discriminate.
  - vm_compute. discriminate.
  - vm_compute. discriminate.
  - vm_compute. reflexivity.
Defined.

Lemma successes_range (p : Double.t) (r : t) (n : nat) :
  0 <= successes p r n <= Z.of_nat n.
Proof.
  induction n as [|n IH]; [simpl; lia|].
  cbn [successes]. destruct (trial p r n); lia.
Qed.

Lemma successes_shift (p : Double.t) (r : t) (n : nat) :
  successes p r (S n)
  = (if trial p r 0 then 1 else 0) + successes p (snd (Get r)) n.
Proof.
  induction n as [|n IH]; [cbn [successes]; lia|].
  change (successes p r (S (S n)))
    with (successes p r (S n) + (if trial p r (S n) then 1 else 0)).
  rewrite IH. cbn [successes].
  change (trial p r (S n)) with (trial p (snd (Get r)) n). lia.
Qed.

Lemma binomial_loop_run (p n : Double.t) (N : nat) :
  (0 <= Double.value p <= 1)%Q ->
  (Double.value n == inject_Z (Z.of_nat N))%Q ->
  Z.of_nat N < 2 ^ 32 ->
  forall (m : nat) (i k : Z) (r : t) (fuel : nat),
    0 <= i -> i + Z.of_nat m = Z.of_nat N -> 0 <= k <= i -> (m < fuel)%nat ->
    binomial_loop fuel n p i k r = Done (k + successes p r m) (after m r).
Proof.
  intros Hp Hn HN. induction m as [|m IH]; intros i k r fuel Hi Him Hk Hfuel.
  - destruct fuel as [|fuel]; [lia|]. cbn [binomial_loop].
    assert (Double.ltb (Double.of_Z i) n = false) as ->.
    { apply ltb_ge. rewrite of_Z_small, value_int, Hn by lia. rewrite <- Zle_Qle. lia. }
    cbn [successes after]. f_equal. lia.
  - destruct fuel as [|fuel]; [lia|]. cbn [binomial_loop].
    assert (Double.ltb (Double.of_Z i) n = true) as ->.
    { apply ltb_lt. rewrite of_Z_small, value_int, Hn by lia. rewrite <- Zlt_Qlt. lia. }
    pose proof (RandomSpec.trial_eq p r 0 Hp) as HP. cbn [after] in HP. rewrite HP.
    assert (Hi1 : uint32 (i + 1) = i + 1) by (unfold uint32; apply Z.mod_small; lia).
    assert (Hk1 : uint32 (k + 1) = k + 1) by (unfold uint32; apply Z.mod_small; lia).
    rewrite Hi1, Hk1, successes_shift.
    change (after (S m) r) with (after m (snd (Get r))).
    destruct (trial p r 0).
    + rewrite (IH (i + 1) (k + 1)) by lia. f_equal. lia.
    + rewrite (IH (i + 1) k) by lia. f_equal.
Qed.

(** X8. For a whole number of trials [N] below [2^32] and a probability
    in [0,1], [GetRandBinomial(N, p)] terminates after exactly [N] raw
    draws and returns how many of the [N] Bernoulli trials succeeded, a
    value between 0 and [N]; a negative [n] or a [p] outside [0,1] fails
    the assertions. *)
Theorem GetRandBinomial_counts (p n : Double.t) (N fuel : nat) (r : t) :
  (Double.value n == inject_Z (Z.of_nat N))%Q ->
  Z.of_nat N < 2 ^ 32 ->
  (N < fuel)%nat ->
  ((0 <= Double.value p <= 1)%Q ->
   GetRandBinomial fuel n p r = Done (successes p r N) (after N r) /\
   0 <= successes p r N <= Z.of_nat N) /\
  ((Double.value p < 0 \/ 1 < Double.value p)%Q ->
   GetRandBinomial fuel n p r = Aborted r).
Proof.
  intros Hn HN Hfuel. split.
  - intros Hp. split; [|apply successes_range].
    unfold GetRandBinomial.
    assert (Hc : Double.leb Double.zero p && Double.leb p Double.one = true).
    { apply andb_true_iff; split; apply leb_le.
      - rewrite value_zero; apply Hp.
      - rewrite value_one; apply Hp. }
    assert (Hc' : Double.leb Double.zero n = true).
    { apply leb_le. rewrite value_zero, Hn. change 0%Q with (inject_Z 0).
      rewrite <- Zle_Qle. lia. }
    rewrite Hc, Hc'.
    rewrite (binomial_loop_run p n N Hp Hn HN N 0 0 r fuel) by lia. reflexivity.
  - intros Hout. unfold GetRandBinomial.
    assert (Hc : Double.leb Double.zero p && Double.leb p Double.one = false).
    { apply andb_false_iff. destruct Hout as [Hout|Hout]; [left|right];
        apply not_true_iff_false; rewrite leb_le; apply Qlt_not_le.
      - rewrite value_zero; exact Hout.
      - rewrite value_one; exact Hout. }
    rewrite Hc. reflexivity.
Qed.

Lemma GetRandBinomial_counts_witness :
  GetRandBinomial 6 (Double.mk 5 0) half (new 0 0 1)
  = Done (successes half (new 0 0 1) 5) (after 5 (new 0 0 1)) /\
  0 <= successes half (new 0 0 1) 5 <= Z.of_nat 5.
Proof.
  apply (proj1 (GetRandBinomial_counts half (Double.mk 5 0) 5 6 (new 0 0 1)
                  ltac:(vm_compute; reflexivity) ltac:(vm_compute; reflexivity)
                  ltac:(lia))).
  split; vm_compute; discriminate.
Defined.

Lemma sample_loop {A : Type} (input : list A) (count : nat) :
  (0 < length input)%nat -> Z.of_nat (length input) < 2 ^ 31 ->
  forall r : t,
    exists out : list A,
      sample_with_replacement input count RandomStdAdaptor r = (Some out, after count r) /\
      length out = count /\
      (forall x, In x out -> In x input).
Proof.
  intros Hne Hlen. induction count as [|count IH]; intros r.
  - exists []. simpl. repeat split. intros x [].
  - cbn [sample_with_replacement]. unfold RandomStdAdaptor at 1.
    destruct (GetInt_bound (Z.of_nat (length input)) r ltac:(lia)) as [Hk Hs].
    destruct (GetInt (Z.of_nat (length input)) r) as [k r1]. cbn [fst snd] in *. subst r1.
    destruct (Z.leb_spec 0 k) as [_|]; [|lia].
    destruct (lookup_lt_is_Some_2 input (Z.to_nat k) ltac:(lia)) as [x Hx].
    rewrite Hx. destruct (IH (snd (Get r))) as (out & Hrun & Hlo & Hin).
    rewrite Hrun. exists (x :: out). split; [reflexivity|]. split; [simpl; lia|].
    intros y [<- | Hy]; [|auto].
    apply list_elem_of_In. eapply list_elem_of_lookup_2. exact Hx.
Qed.

(** X9. With [RandomStdAdaptor] as its generator and a non-empty input
    of fewer than [2^31] elements, [sample_with_replacement] fills the
    whole output range with elements of the input, one raw draw per
    element; on an empty input the very first read is outside the range. *)
Theorem sample_with_replacement_members {A : Type} (input : list A) (count : nat) (r : t) :
  ((0 < length input)%nat -> Z.of_nat (length input) < 2 ^ 31 ->
   exists out : list A,
     sample_with_replacement input count RandomStdAdaptor r = (Some out, after count r) /\
     length out = count /\
     (forall x, In x out -> In x input)) /\
  (input = [] -> (0 < count)%nat ->
   fst (sample_with_replacement input count RandomStdAdaptor r) = None).
Proof.
  split; [intros Hne Hlen; apply sample_loop; assumption|].
  intros -> Hcount. destruct count as [|count]; [lia|].
  cbn [sample_with_replacement]. destruct (RandomStdAdaptor _ r) as [k r1].
  destruct (0 <=? k); reflexivity.
Qed.

Lemma sample_with_replacement_members_witness :
  exists out : list Z,
    sample_with_replacement [7; 8; 9] 4 RandomStdAdaptor (new 0 0 1)
    = (Some out, after 4 (new 0 0 1)) /\
    length out = 4%nat /\
    (forall x, In x out -> In x [7; 8; 9]).
Proof.
  apply (proj1 (sample_with_replacement_members [7; 8; 9] 4 (new 0 0 1))).
  - simpl. lia.
  - vm_compute. reflexivity.
Defined.

End RandomExtra.

(** ** Further properties of the selection schemes *)


Module SelectExtra.
Import WorldSelect DoubleFacts.

Section Elite.
Context {W ORG GENOME : Type} `{World W ORG GENOME}.

(** Ascending fitness, and ascending slot id among equal fitness. *)
Let before (a b : Double.t * nat) : Prop :=
  (Double.value (fst a) < Double.value (fst b))%Q \/
  ((Double.value (fst a) == Double.value (fst b))%Q /\ (snd a < snd b)%nat).

Lemma multimap_insert_In (kv : Double.t * nat) (m : list (Double.t * nat)) :
  forall x, In x (multimap_insert kv m) <-> x = kv \/ In x m.
Proof.
  induction m as [|kv' m IH]; intros x; simpl.
  - intuition.
  - destruct (Double.ltb (fst kv) (fst kv')); simpl; [intuition|].
    rewrite IH. intuition.
Qed.

Lemma multimap_insert_perm (kv : Double.t * nat) (m : list (Double.t * nat)) :
  Permutation (multimap_insert kv m) (kv :: m).
Proof.
  induction m as [|kv' m IH]; simpl; [reflexivity|].
  destruct (Double.ltb (fst kv) (fst kv')); [reflexivity|].
  rewrite IH. apply perm_swap.
Qed.

Lemma before_trans_le (a b c : Double.t * nat) :
  before a b -> (Double.value (fst b) <= Double.value (fst c))%Q ->
  (Double.value (fst a) < Double.value (fst c))%Q \/
  (Double.value (fst a) == Double.value (fst c))%Q.
Proof.
  intros [Hlt | [Heq _]] Hle.
  - left. eapply Qlt_le_trans; eassumption.
  - rewrite Heq. apply Qle_lteq. exact Hle.
Qed.

Lemma multimap_insert_sorted (k : Double.t) (id : nat) (m : list (Double.t * nat)) :
  StronglySorted before m ->
  (forall x, In x m -> (snd x < id)%nat) ->
  StronglySorted before (multimap_insert (k, id) m).
Proof.
  induction m as [|kv' m IH]; intros Hs Hid; simpl.
  - constructor; constructor.
  - apply StronglySorted_inv in Hs. destruct Hs as [Hs Hall].
    rewrite List.Forall_forall in Hall.
    destruct (Double.ltb k (fst kv')) eqn:Hlt.
    + apply ltb_lt in Hlt. constructor; [constructor; [exact Hs | apply List.Forall_forall; exact Hall]|].
      apply List.Forall_forall. intros x [<- | Hx].
      * left. exact Hlt.
      * left. cbn [fst]. destruct (Hall x Hx) as [H1 | [H1 _]].
        -- eapply Qlt_trans; eassumption.
        -- rewrite <- H1. exact Hlt.
    + apply ltb_ge in Hlt. constructor.
      * apply IH; [exact Hs|]. intros x Hx. apply Hid. right. exact Hx.
      * apply List.Forall_forall. intros x Hx. apply multimap_insert_In in Hx.
        destruct Hx as [-> | Hx]; [|apply Hall; exact Hx].
        apply Qle_lteq in Hlt. destruct Hlt as [Hlt | Heq].
        -- left. exact Hlt.
        -- right. split; [exact Heq|]. apply Hid. left. reflexivity.
Qed.

Lemma elite_fit_map_prefix (w : W) (n : nat) :
  let fit_map :=
    foldl (fun fit_map id =>
             if IsOccupied w id
             then multimap_insert (CalcFitnessID w id, id) fit_map
             else fit_map) [] (seq 0 n) in
  StronglySorted before fit_map /\
  Permutation (map snd fit_map) (List.filter (IsOccupied w) (seq 0 n)) /\
  (forall x, In x fit_map -> fst x = CalcFitnessID w (snd x) /\ (snd x < n)%nat).
Proof.
  induction n as [|n IH]; cbn zeta.
  - simpl. split; [constructor|]. split; [reflexivity|]. intros x [].
  - rewrite seq_S, foldl_snoc, List.filter_app. simpl (0 + n)%nat.
    cbn zeta in IH. destruct IH as (Hs & Hp & Hk).
    set (fm := foldl _ [] (seq 0 n)) in *. cbn [List.filter].
    destruct (IsOccupied w n).
    + split; [|split].
      * apply multimap_insert_sorted; [exact Hs|]. intros x Hx. apply Hk. exact Hx.
      * rewrite multimap_insert_perm. cbn [map snd]. rewrite Hp.
        apply Permutation_cons_append.
      * intros x Hx. apply multimap_insert_In in Hx. destruct Hx as [-> | Hx].
        -- cbn. split; [reflexivity | lia].
        -- destruct (Hk x Hx). split; [assumption | lia].
    + rewrite app_nil_r. split; [exact Hs|]. split; [exact Hp|].
      intros x Hx. destruct (Hk x Hx). split; [assumption | lia].
Qed.

Lemma sorted_before_split (l1 l2 : list (Double.t * nat)) (p : Double.t * nat) :
  StronglySorted before (l1 ++ p :: l2) -> forall q, In q l1 -> before q p.
Proof.
  induction l1 as [|a l1 IH]; intros Hs q Hq; [destruct Hq|].
  simpl in Hs. apply StronglySorted_inv in Hs. destruct Hs as [Hs Hall].
  destruct Hq as [<- | Hq]; [|apply IH; assumption].
  rewrite List.Forall_forall in Hall. apply Hall. apply in_or_app. right. left. reflexivity.
Qed.

Lemma for_each_at_index {A S : Type} (l : list A) (F : A -> S -> M S) (n : nat) :
  forall (a : nat) (s : S) (w : W),
    (a + n <= length l)%nat ->
    for_each (seq a n) (fun i s => bind (at_index l i) (fun m => F m s)) s w
    = for_each (take n (drop a l)) F s w.
Proof.
  induction n as [|n IH]; intros a s w Hlen; [reflexivity|].
  destruct (lookup_lt_is_Some_2 l a ltac:(lia)) as [x Hx].
  rewrite (drop_S l x a Hx). cbn [seq take].
  rewrite !SelectSpec.for_each_cons.
  assert (Hb : bind (at_index l a) (fun m => F m s) w = F x s w)
    by (unfold bind, at_index; rewrite Hx; reflexivity).
  rewrite Hb.
  destruct (F x s w) as [s1 w1 | w1 |]; [|reflexivity|reflexivity].
  apply IH. lia.
Qed.

Lemma for_each_map {A B S : Type} (f : A -> B) (G : B -> S -> M S) (l : list A) :
  forall (s : S) (w : W),
    for_each (map f l) G s w = for_each l (fun x => G (f x)) s w.
Proof.
  induction l as [|x l IH]; intros s w; [reflexivity|].
  cbn [map]. rewrite !SelectSpec.for_each_cons.
  destruct (G (f x) s w) as [s1 w1 | w1 |]; [apply IH | reflexivity | reflexivity].
Qed.

(** X10. [EliteSelect] reproduces the occupied slots in order of
    descending fitness, the higher slot id first among equal fitness:
    the ids it walks through are exactly the occupied slots, each once,
    every id walked later is less fit (or as fit with a lower id) than
    one walked earlier, and when the assertions hold and [e_count] does
    not exceed the number of occupied slots the call is one
    [DoBirth(genome, id, copy_count)] for each of the first [e_count] of
    them, in that order. *)
Theorem EliteSelect_order (w : W) :
  let ids := map snd (rev (elite_fit_map w)) in
  let fit := CalcFitnessID w in
  Permutation ids (List.filter (IsOccupied w) (seq 0 (GetSize w))) /\
  NoDup ids /\
  (forall pre p post, ids = pre ++ p :: post ->
     forall q, In q post ->
       (Double.value (fit q) < Double.value (fit p))%Q \/
       ((Double.value (fit q) == Double.value (fit p))%Q /\ (q < p)%nat)) /\
  (forall e_count copy_count,
     (0 < e_count <= GetNumOrgs w)%nat -> (0 < copy_count)%nat ->
     (e_count <= length ids)%nat ->
     EliteSelect e_count copy_count w
     = for_each (take e_count ids)
         (fun repro_id _ =>
            bind (ask (fun w => GetGenomeAt w repro_id))
              (fun g => bind (call (DoBirth g repro_id copy_count)) (fun _ => ret tt)))
         tt w).
Proof.
  cbn zeta. destruct (elite_fit_map_prefix w (GetSize w)) as (Hs & Hp & Hk).
  cbn zeta in Hs, Hp, Hk. fold (elite_fit_map w) in Hs, Hp, Hk.
  assert (Hperm : Permutation (map snd (rev (elite_fit_map w)))
                    (List.filter (IsOccupied w) (seq 0 (GetSize w)))).
  { rewrite <- Hp. apply Permutation_map. symmetry. apply Permutation_rev. }
  split; [exact Hperm|]. split; [|split].
  - rewrite Hperm. apply NoDup_ListNoDup. apply List.NoDup_filter.
    apply NoDup_ListNoDup. apply NoDup_seq.
  - intros pre p post Hsplit q Hq.
    rewrite map_rev in Hsplit.
    assert (Hfm : map snd (elite_fit_map w) = rev post ++ p :: rev pre).
    { rewrite <- (rev_involutive (map snd (elite_fit_map w))), Hsplit.
      rewrite rev_app_distr. simpl. rewrite <- app_assoc. reflexivity. }
    apply map_eq_app in Hfm. destruct Hfm as (l1 & l2' & Hfm & Hl1 & Hl2).
    destruct l2' as [|kp l2]; [discriminate|]. simpl in Hl2.
    injection Hl2 as Hkp Hl2.
    rewrite Hfm in Hs.
    assert (Hq' : In q (map snd l1)) by (rewrite Hl1, <- in_rev; exact Hq).
    apply in_map_iff in Hq'. destruct Hq' as (kq & Hkq & Hin).
    pose proof (sorted_before_split l1 l2 kp Hs kq Hin) as Hb.
    assert (Hinq : In kq (elite_fit_map w)) by (rewrite Hfm; apply in_or_app; left; exact Hin).
    assert (Hinp : In kp (elite_fit_map w)) by (rewrite Hfm; apply in_or_app; right; left; reflexivity).
    destruct (Hk kq Hinq) as [Hfq _]. destruct (Hk kp Hinp) as [Hfp _].
    unfold before in Hb. rewrite Hfq, Hfp, Hkq, Hkp in Hb. exact Hb.
  - intros e_count copy_count [He0 He] Hc Hlen.
    unfold EliteSelect, bind at 1, ask at 1.
    unfold bind at 1, emp_assert at 1.
    destruct (Nat.ltb_spec 0 e_count) as [_|]; [|lia].
    destruct (Nat.leb_spec e_count (GetNumOrgs w)) as [_|]; [|lia].
    cbn [andb]. unfold bind at 1, emp_assert at 1.
    destruct (Nat.ltb_spec 0 copy_count) as [_|]; [|lia].
    unfold bind at 1, ask at 1. unfold for_range.
    rewrite length_map in Hlen.
    rewrite (for_each_at_index (rev (elite_fit_map w))
               (fun m _ => bind (ask (fun w0 => GetGenomeAt w0 (snd m)))
                             (fun g => bind (call (DoBirth g (snd m) copy_count))
                                         (fun _ => ret tt)))
               e_count 0 tt w) by lia.
    rewrite drop_0, firstn_map.
    rewrite for_each_map. reflexivity.
Qed.

End Elite.

Lemma EliteSelect_order_witness :
  EliteSelect 1 1 Population.two_orgs
  = for_each (take 1 (map snd (rev (elite_fit_map Population.two_orgs))))
      (fun repro_id _ =>
         bind (ask (fun w => GetGenomeAt w repro_id))
           (fun g => bind (call (DoBirth g repro_id 1)) (fun _ => ret tt)))
      tt Population.two_orgs.
Proof.
  apply (proj2 (proj2 (proj2 (EliteSelect_order Population.two_orgs))) 1%nat 1%nat).
  - vm_compute. lia.
  - lia.
  - vm_compute. lia.
Defined.

Section MapElites.
Context {ORG : Type}.

Let step (org : ORG) (acc : option (nat * nat)) (p : MapElitesPhenotype ORG)
  : option (nat * nat) :=
  match acc, pheno_fun p with
  | Some (id, scale), Some f =>
      let pid := f org in
      if (pid <? id_count p)%nat
      then Some (id + pid * scale, scale * id_count p)%nat
      else None
  | _, _ => None
  end.

Lemma GetID_fold_None (org : ORG) (ps : list (MapElitesPhenotype ORG)) :
  foldl (step org) None ps = None.
Proof. induction ps as [|p ps IH]; [reflexivity|]. simpl. exact IH. Qed.

Lemma GetID_fold (org : ORG) (ps : list (MapElitesPhenotype ORG)) :
  forall id scale id' scale' : nat,
    (id < scale)%nat ->
    foldl (step org) (Some (id, scale)) ps = Some (id', scale') ->
    (id' < scale')%nat /\
    scale' = foldl (fun n p => (n * id_count p)%nat) scale ps /\
    (forall p, In p ps ->
       exists f, pheno_fun p = Some f /\ (f org < id_count p)%nat).
Proof.
  induction ps as [|p ps IH]; intros id scale id' scale' Hlt Hrun.
  - simpl in Hrun. injection Hrun as <- <-. split; [exact Hlt|]. split; [reflexivity|].
    intros p [].
  - cbn [foldl] in Hrun |- *. unfold step at 2 in Hrun.
    destruct (pheno_fun p) as [f|] eqn:Hf; [|rewrite GetID_fold_None in Hrun; discriminate].
    cbn zeta in Hrun.
    destruct (Nat.ltb_spec (f org) (id_count p)) as [Hpid|];
      [|rewrite GetID_fold_None in Hrun; discriminate].
    assert (Hnext : (id + f org * scale < scale * id_count p)%nat) by nia.
    destruct (IH _ _ _ _ Hnext Hrun) as (H1 & H2 & H3).
    split; [exact H1|]. split; [exact H2|].
    intros q [<- | Hq]; [exists f; auto | apply H3; exact Hq].
Qed.

Lemma GetID_fold_defined (org : ORG) (ps : list (MapElitesPhenotype ORG)) :
  (forall p, In p ps -> exists f, pheno_fun p = Some f /\ (f org < id_count p)%nat) ->
  forall id scale : nat, is_Some (foldl (step org) (Some (id, scale)) ps).
Proof.
  induction ps as [|p ps IH]; intros Hall id scale; [eexists; reflexivity|].
  cbn [foldl]. unfold step at 2.
  destruct (Hall p (or_introl eq_refl)) as (f & Hf & Hlt). rewrite Hf. cbn zeta.
  destruct (Nat.ltb_spec (f org) (id_count p)); [|lia].
  apply IH. intros q Hq. apply Hall. right. exact Hq.
Qed.

Lemma GetID_fold_inj (o1 o2 : ORG) (ps : list (MapElitesPhenotype ORG)) :
  forall id1 id2 scale r1 r2 s1 s2 : nat,
    (id1 < scale)%nat -> (id2 < scale)%nat ->
    foldl (step o1) (Some (id1, scale)) ps = Some (r1, s1) ->
    foldl (step o2) (Some (id2, scale)) ps = Some (r2, s2) ->
    r1 = r2 ->
    id1 = id2 /\
    (forall p f, In p ps -> pheno_fun p = Some f -> f o1 = f o2).
Proof.
  induction ps as [|p ps IH]; intros id1 id2 scale r1 r2 s1 s2 H1 H2 Hr1 Hr2 Heq.
  - simpl in Hr1, Hr2. injection Hr1 as <- <-. injection Hr2 as <- <-.
    split; [exact Heq|]. intros p f [].
  - cbn [foldl] in Hr1, Hr2. unfold step at 2 in Hr1. unfold step at 2 in Hr2.
    destruct (pheno_fun p) as [f|] eqn:Hf; [|rewrite GetID_fold_None in Hr1; discriminate].
    cbn zeta in Hr1, Hr2.
    destruct (Nat.ltb_spec (f o1) (id_count p)) as [Hp1|];
      [|rewrite GetID_fold_None in Hr1; discriminate].
    destruct (Nat.ltb_spec (f o2) (id_count p)) as [Hp2|];
      [|rewrite GetID_fold_None in Hr2; discriminate].
    assert (Hn1 : (id1 + f o1 * scale < scale * id_count p)%nat) by nia.
    assert (Hn2 : (id2 + f o2 * scale < scale * id_count p)%nat) by nia.
    destruct (IH _ _ _ _ _ _ _ Hn1 Hn2 Hr1 Hr2 Heq) as [Hid Hrest].
    assert (Hboth : id1 = id2 /\ f o1 = f o2).
    { assert (Hd : ((id1 + f o1 * scale) / scale = (id2 + f o2 * scale) / scale)%nat)
        by (rewrite Hid; reflexivity).
      assert (Hm : ((id1 + f o1 * scale) mod scale = (id2 + f o2 * scale) mod scale)%nat)
        by (rewrite Hid; reflexivity).
      rewrite !Nat.div_add, !Nat.div_small in Hd by lia.
      rewrite !Nat.Div0.mod_add, !Nat.mod_small in Hm by lia.
      split; lia. }
    destruct Hboth as [Hi Hfo]. split; [exact Hi|].
    intros q g [<- | Hq] Hg; [congruence | eapply Hrest; eassumption].
Qed.

Lemma GetID_below_count (phenotypes : list (MapElitesPhenotype ORG)) (org : ORG) (id : nat) :
  MapElitesConfig_GetID phenotypes org = Some id ->
  (id < MapElitesConfig_GetIDCount phenotypes)%nat.
Proof.
  unfold MapElitesConfig_GetID, MapElitesConfig_GetIDCount. intros Hid.
  destruct (foldl _ (Some (0, 1)%nat) phenotypes) as [[id' sc]|] eqn:Hrun;
    [|discriminate].
  injection Hid as <-.
  destruct (GetID_fold org phenotypes 0 1 id' sc Nat.lt_0_1 Hrun) as (H1 & H2 & _).
  rewrite <- H2. exact H1.
Qed.

Lemma GetID_defined_iff (phenotypes : list (MapElitesPhenotype ORG)) (org : ORG) :
  is_Some (MapElitesConfig_GetID phenotypes org) <->
  forall p, In p phenotypes ->
    exists f, pheno_fun p = Some f /\ (f org < id_count p)%nat.
Proof.
  unfold MapElitesConfig_GetID. split.
  - intros [id Hid].
    destruct (foldl _ (Some (0, 1)%nat) phenotypes) as [[id' sc]|] eqn:Hrun;
      [|discriminate].
    apply (GetID_fold org phenotypes 0 1 id' sc Nat.lt_0_1 Hrun).
  - intros Hall. destruct (GetID_fold_defined org phenotypes Hall 0%nat 1%nat) as [[id sc] Hrun].
    change (is_Some match foldl (step org) (Some (0, 1)%nat) phenotypes with
                    | Some (id, _) => Some id
                    | None => None
                    end).
    rewrite Hrun. eexists; reflexivity.
Qed.

Lemma GetID_same_buckets
  (phenotypes : list (MapElitesPhenotype ORG)) (o1 o2 : ORG) (id : nat) :
  MapElitesConfig_GetID phenotypes o1 = Some id ->
  MapElitesConfig_GetID phenotypes o2 = Some id ->
  forall p f, In p phenotypes -> pheno_fun p = Some f -> f o1 = f o2.
Proof.
  unfold MapElitesConfig_GetID.
  intros H1 H2.
  change (match foldl (step o1) (Some (0, 1)%nat) phenotypes with
          | Some (i, _) => Some i
          | None => None
          end = Some id) in H1.
  change (match foldl (step o2) (Some (0, 1)%nat) phenotypes with
          | Some (i, _) => Some i
          | None => None
          end = Some id) in H2.
  destruct (foldl (step o1) (Some (0, 1)%nat) phenotypes) as [[r1 s1]|] eqn:Hr1; [|discriminate].
  destruct (foldl (step o2) (Some (0, 1)%nat) phenotypes) as [[r2 s2]|] eqn:Hr2; [|discriminate].
  injection H1 as ->. injection H2 as ->.
  apply (GetID_fold_inj o1 o2 phenotypes 0 0 1 id id s1 s2 Nat.lt_0_1 Nat.lt_0_1 Hr1 Hr2 eq_refl).
Qed.

Let step_size_t (org : ORG) (acc : option (Z * Z)) (p : MapElitesPhenotype ORG)
  : option (Z * Z) :=
  match acc, pheno_fun p with
  | Some (id, scale), Some f =>
      let pid := f org in
      if (pid <? id_count p)%nat
      then Some (size_t (id + size_t (Z.of_nat pid * scale)),
                 size_t (scale * Z.of_nat (id_count p)))
      else None
  | _, _ => None
  end.

Lemma size_t_step (a s : nat) (pid c : nat) :
  size_t (size_t (Z.of_nat a) + size_t (Z.of_nat pid * size_t (Z.of_nat s)))
  = size_t (Z.of_nat (a + pid * s)) /\
  size_t (size_t (Z.of_nat s) * Z.of_nat c) = size_t (Z.of_nat (s * c)).
Proof.
  unfold size_t. rewrite !Nat2Z.inj_add, !Nat2Z.inj_mul. split.
  - rewrite Z.mul_mod_idemp_r by lia.
    rewrite Z.add_mod_idemp_l, Z.add_mod_idemp_r by lia. reflexivity.
  - rewrite Z.mul_mod_idemp_l by lia. reflexivity.
Qed.

Lemma GetID_size_t_fold (org : ORG) (ps : list (MapElitesPhenotype ORG)) :
  forall acc : option (nat * nat),
    foldl (step_size_t org)
          (option_map (fun st => (size_t (Z.of_nat (fst st)), size_t (Z.of_nat (snd st)))) acc)
          ps
    = option_map (fun st => (size_t (Z.of_nat (fst st)), size_t (Z.of_nat (snd st))))
        (foldl (step org) acc ps).
Proof.
  induction ps as [|p ps IH]; intros acc; [reflexivity|].
  cbn [foldl]. rewrite <- IH. f_equal.
  destruct acc as [[a s]|]; [|reflexivity].
  unfold step, step_size_t. cbn [option_map fst snd].
  destruct (pheno_fun p) as [f|]; [|reflexivity]. cbn zeta.
  destruct (f org <? id_count p)%nat; [|reflexivity].
  cbn [option_map fst snd].
  destruct (size_t_step a s (f org) (id_count p)) as [-> ->]. reflexivity.
Qed.

Lemma GetIDCount_size_t_fold (ps : list (MapElitesPhenotype ORG)) :
  forall n : nat,
    foldl (fun n p => size_t (n * Z.of_nat (id_count p))) (size_t (Z.of_nat n)) ps
    = size_t (Z.of_nat (foldl (fun n p => (n * id_count p)%nat) n ps)).
Proof.
  induction ps as [|p ps IH]; intros n; [reflexivity|].
  cbn [foldl]. rewrite <- IH. f_equal.
  apply (size_t_step 0 n 0 (id_count p)).
Qed.

(** The [size_t] code against the mixed-radix id over the naturals. *)
Lemma GetID_size_t_ideal (phenotypes : list (MapElitesPhenotype ORG)) (org : ORG) :
  MapElitesConfig_GetID_size_t phenotypes org
  = option_map (fun id => size_t (Z.of_nat id)) (MapElitesConfig_GetID phenotypes org).
Proof.
  unfold MapElitesConfig_GetID_size_t, MapElitesConfig_GetID.
  change (match foldl (step_size_t org) (Some (0, 1)%Z) phenotypes with
          | Some (id, _) => Some id
          | None => None
          end
          = option_map (fun id => size_t (Z.of_nat id))
              match foldl (step org) (Some (0, 1)%nat) phenotypes with
              | Some (id, _) => Some id
              | None => None
              end).
  pose proof (GetID_size_t_fold org phenotypes (Some (0, 1)%nat)) as Hfold.
  cbn [option_map fst snd] in Hfold.
  change (size_t (Z.of_nat 0)) with 0%Z in Hfold.
  change (size_t (Z.of_nat 1)) with 1%Z in Hfold.
  rewrite Hfold.
  destruct (foldl (step org) (Some (0, 1)%nat) phenotypes) as [[id sc]|]; reflexivity.
Qed.

Lemma GetID_size_t_no_wrap (phenotypes : list (MapElitesPhenotype ORG)) (org : ORG) :
  (Z.of_nat (MapElitesConfig_GetIDCount phenotypes) < 2 ^ 64)%Z ->
  MapElitesConfig_GetID_size_t phenotypes org
  = option_map Z.of_nat (MapElitesConfig_GetID phenotypes org) /\
  MapElitesConfig_GetIDCount_size_t phenotypes
  = Z.of_nat (MapElitesConfig_GetIDCount phenotypes).
Proof.
  intros Hfits. split.
  - rewrite GetID_size_t_ideal.
    destruct (MapElitesConfig_GetID phenotypes org) as [id|] eqn:Hrun; [|reflexivity].
    pose proof (GetID_below_count phenotypes org id Hrun) as Hlt.
    cbn [option_map]. f_equal. unfold size_t. apply Z.mod_small. lia.
  - assert (Hcount : MapElitesConfig_GetIDCount_size_t phenotypes
                     = size_t (Z.of_nat (MapElitesConfig_GetIDCount phenotypes))).
    { unfold MapElitesConfig_GetIDCount_size_t, MapElitesConfig_GetIDCount.
      rewrite <- GetIDCount_size_t_fold. reflexivity. }
    rewrite Hcount. unfold size_t. apply Z.mod_small. lia.
Qed.

(** X11. [MapElitesConfig::GetID] returns -- no phenotype function is
    empty and no assertion fails -- exactly when every phenotype has a
    function that classifies the organism below its [id_count]; and when
    the product of the [id_count]s fits a [size_t], so that [scale] and
    [GetIDCount()] do not wrap, the id it returns is below
    [GetIDCount()]. *)
Theorem MapElites_GetID_in_range
  (phenotypes : list (MapElitesPhenotype ORG)) (org : ORG) :
  (is_Some (MapElitesConfig_GetID_size_t phenotypes org) <->
   forall p, In p phenotypes ->
     exists f, pheno_fun p = Some f /\ (f org < id_count p)%nat) /\
  ((Z.of_nat (MapElitesConfig_GetIDCount phenotypes) < 2 ^ 64)%Z ->
   forall id, MapElitesConfig_GetID_size_t phenotypes org = Some id ->
     (0 <= id < MapElitesConfig_GetIDCount_size_t phenotypes)%Z).
Proof.
  split.
  - rewrite <- GetID_defined_iff, GetID_size_t_ideal.
    destruct (MapElitesConfig_GetID phenotypes org); cbn [option_map]; split;
      intros [x Hx]; first [discriminate | eexists; reflexivity].
  - intros Hfits id. destruct (GetID_size_t_no_wrap phenotypes org Hfits) as [-> ->].
    destruct (MapElitesConfig_GetID phenotypes org) as [id'|] eqn:Hrun; [|discriminate].
    cbn [option_map]. intros Heq. injection Heq as <-.
    pose proof (GetID_below_count phenotypes org id' Hrun) as Hlt. lia.
Qed.

(** X12. When the product of the [id_count]s fits a [size_t], the
    composite id determines every classifier's output: two organisms with
    the same [GetID] are put in the same bucket by each phenotype
    function, so organisms that differ in some phenotype never share an
    archive cell.  (Once [scale] has wrapped to 0 the later phenotypes
    no longer reach the id.) *)
Theorem MapElites_GetID_injective
  (phenotypes : list (MapElitesPhenotype ORG)) (o1 o2 : ORG) (id : Z) :
  (Z.of_nat (MapElitesConfig_GetIDCount phenotypes) < 2 ^ 64)%Z ->
  MapElitesConfig_GetID_size_t phenotypes o1 = Some id ->
  MapElitesConfig_GetID_size_t phenotypes o2 = Some id ->
  forall p f, In p phenotypes -> pheno_fun p = Some f -> f o1 = f o2.
Proof.
  intros Hfits H1 H2.
  rewrite (proj1 (GetID_size_t_no_wrap phenotypes o1 Hfits)) in H1.
  rewrite (proj1 (GetID_size_t_no_wrap phenotypes o2 Hfits)) in H2.
  destruct (MapElitesConfig_GetID phenotypes o1) as [i1|] eqn:Hr1; [|discriminate].
  destruct (MapElitesConfig_GetID phenotypes o2) as [i2|] eqn:Hr2; [|discriminate].
  cbn [option_map] in H1, H2.
  assert (i1 = i2) as -> by (apply Nat2Z.inj; congruence).
  exact (GetID_same_buckets phenotypes o1 o2 i2 Hr1 Hr2).
Qed.

(** X13. The 64-bit arithmetic of [GetID] and [GetIDCount] computes the
    mixed-radix id and the product of the [id_count]s modulo [2^64]; when
    the product of the [id_count]s fits in a [size_t] nothing wraps, and
    the id returned is below [GetIDCount()]. *)
Theorem MapElites_size_t_exact
  (phenotypes : list (MapElitesPhenotype ORG)) (org : ORG) :
  MapElitesConfig_GetID_size_t phenotypes org
  = option_map (fun id => size_t (Z.of_nat id)) (MapElitesConfig_GetID phenotypes org) /\
  MapElitesConfig_GetIDCount_size_t phenotypes
  = size_t (Z.of_nat (MapElitesConfig_GetIDCount phenotypes)) /\
  ((Z.of_nat (MapElitesConfig_GetIDCount phenotypes) < 2 ^ 64)%Z ->
   MapElitesConfig_GetID_size_t phenotypes org
   = option_map Z.of_nat (MapElitesConfig_GetID phenotypes org) /\
   MapElitesConfig_GetIDCount_size_t phenotypes
   = Z.of_nat (MapElitesConfig_GetIDCount phenotypes) /\
   forall id, MapElitesConfig_GetID_size_t phenotypes org = Some id ->
     (0 <= id < MapElitesConfig_GetIDCount_size_t phenotypes)%Z).
Proof.
  assert (Hid : MapElitesConfig_GetID_size_t phenotypes org
                = option_map (fun id => size_t (Z.of_nat id))
                    (MapElitesConfig_GetID phenotypes org)).
  { unfold MapElitesConfig_GetID_size_t, MapElitesConfig_GetID.
    change (match foldl (step_size_t org) (Some (0, 1)%Z) phenotypes with
            | Some (id, _) => Some id
            | None => None
            end
            = option_map (fun id => size_t (Z.of_nat id))
                match foldl (step org) (Some (0, 1)%nat) phenotypes with
                | Some (id, _) => Some id
                | None => None
                end).
    pose proof (GetID_size_t_fold org phenotypes (Some (0, 1)%nat)) as Hfold.
    cbn [option_map fst snd] in Hfold.
    change (size_t (Z.of_nat 0)) with 0%Z in Hfold.
    change (size_t (Z.of_nat 1)) with 1%Z in Hfold.
    rewrite Hfold.
    destruct (foldl (step org) (Some (0, 1)%nat) phenotypes) as [[id sc]|]; reflexivity. }
  assert (Hcount : MapElitesConfig_GetIDCount_size_t phenotypes
                   = size_t (Z.of_nat (MapElitesConfig_GetIDCount phenotypes))).
  { unfold MapElitesConfig_GetIDCount_size_t, MapElitesConfig_GetIDCount.
    rewrite <- GetIDCount_size_t_fold. reflexivity. }
  split; [exact Hid|]. split; [exact Hcount|].
  intros Hfits.
  assert (Hc : MapElitesConfig_GetIDCount_size_t phenotypes
               = Z.of_nat (MapElitesConfig_GetIDCount phenotypes)).
  { rewrite Hcount. unfold size_t. apply Z.mod_small. lia. }
  assert (Hi : MapElitesConfig_GetID_size_t phenotypes org
               = option_map Z.of_nat (MapElitesConfig_GetID phenotypes org)).
  { rewrite Hid.
    destruct (MapElitesConfig_GetID phenotypes org) as [id|] eqn:Hrun; [|reflexivity].
    pose proof (GetID_below_count phenotypes org id Hrun) as Hlt.
    cbn [option_map]. f_equal. unfold size_t. apply Z.mod_small. lia. }
  split; [exact Hi|]. split; [exact Hc|].
  intros id. rewrite Hi, Hc.
  destruct (MapElitesConfig_GetID phenotypes org) as [id'|] eqn:Hrun; [|discriminate].
  cbn [option_map]. intros Heq. injection Heq as <-.
  pose proof (GetID_below_count phenotypes org id' Hrun) as Hlt. lia.
Qed.

End MapElites.

Lemma MapElites_GetID_injective_witness :
  Z.to_nat (4 mod 3) = Z.to_nat (10 mod 3).
Proof.
  apply (MapElites_GetID_injective
           [{| pheno_fun := Some (fun z : Z => Z.to_nat (z mod 3)); id_count := 3 |};
            {| pheno_fun := Some (fun z : Z => Z.to_nat (z / 3 mod 2)); id_count := 2 |}]
           4%Z 10%Z 4%Z)
    with (p := {| pheno_fun := Some (fun z : Z => Z.to_nat (z mod 3)); id_count := 3 |})
         (f := fun z : Z => Z.to_nat (z mod 3)).
  - vm_compute. reflexivity.
  - vm_compute. reflexivity.
  - vm_compute. reflexivity.
  - left. reflexivity.
  - reflexivity.
Defined.

Lemma MapElites_size_t_exact_witness :
  MapElitesConfig_GetID_size_t
    [{| pheno_fun := Some (fun z : Z => Z.to_nat (z mod 3)); id_count := 3 |};
     {| pheno_fun := Some (fun z : Z => Z.to_nat (z / 3 mod 2)); id_count := 2 |}] 4%Z
  = Some 4%Z.
Proof.
  apply (proj1 (proj2 (proj2 (MapElites_size_t_exact
           [{| pheno_fun := Some (fun z : Z => Z.to_nat (z mod 3)); id_count := 3 |};
            {| pheno_fun := Some (fun z : Z => Z.to_nat (z / 3 mod 2)); id_count := 2 |}]
           4%Z)) ltac:(vm_compute; reflexivity))).
Defined.

Section Tournament.
Context {W ORG GENOME : Type} `{World W ORG GENOME}.

Lemma tournament_completes (t_size : nat) (w : W) :
  (0 < t_size)%nat -> exists w1 : W, tournament t_size w = Done tt w1.
Proof.
  intros Ht.
  destruct (SelectSpec.draw_entries_loop t_size 0 [] w) as (entries & w1 & Hrun & Hlen).
  simpl app in Hrun.
  unfold tournament, bind at 1. unfold draw_entries, for_range. rewrite Hrun.
  unfold bind at 1, ask.
  destruct entries as [|e0 rest]; [simpl in Hlen; lia|].
  cbn [tournament_winner].
  unfold bind, ask, call, ret. destruct (DoBirth _ _ _ _) as [o w2].
  exists w2. reflexivity.
Qed.

Lemma repeat_completes (body : M unit) (n : nat) :
  (forall w, exists w1, body w = Done tt w1) ->
  forall (a : nat) (w : W),
    exists w1, for_each (seq a n) (fun _ _ => body) tt w = Done tt w1.
Proof.
  intros Hbody. induction n as [|n IH]; intros a w.
  - exists w. reflexivity.
  - simpl seq. rewrite SelectSpec.for_each_cons.
    destruct (Hbody w) as [w1 ->]. apply IH.
Qed.

(** X14. [TournamentSelect] fails an assertion exactly when the
    tournament size or the number of tournaments is zero, and then the
    world is untouched; in every other case it runs to completion: no
    vector read inside a tournament can go out of range. *)
Theorem TournamentSelect_aborts_iff (t_size tourny_count : nat) (w : W) :
  (t_size = 0%nat \/ tourny_count = 0%nat ->
   TournamentSelect t_size tourny_count w = Aborted w) /\
  ((0 < t_size)%nat -> (0 < tourny_count)%nat ->
   exists w1 : W, TournamentSelect t_size tourny_count w = Done tt w1).
Proof.
  split.
  - intros [-> | ->]; [reflexivity|].
    unfold TournamentSelect, bind, emp_assert.
    destruct (0 <? t_size)%nat; reflexivity.
  - intros Ht Hn. unfold TournamentSelect, bind at 1, emp_assert.
    destruct (Nat.ltb_spec 0 t_size) as [_|]; [|lia].
    unfold bind at 1.
    destruct (Nat.ltb_spec 0 tourny_count) as [_|]; [|lia].
    unfold for_range. apply repeat_completes.
    intros w0. apply tournament_completes. exact Ht.
Qed.

End Tournament.

Lemma TournamentSelect_aborts_iff_witness :
  TournamentSelect 2 0 Population.two_orgs = Aborted Population.two_orgs /\
  exists w1, TournamentSelect 2 3 Population.two_orgs = Done tt w1.
Proof.
  destruct (TournamentSelect_aborts_iff 2 0 Population.two_orgs) as [Habort _].
  destruct (TournamentSelect_aborts_iff 2 3 Population.two_orgs) as [_ Hrun].
  split.
  - apply Habort. right. reflexivity.
  - apply Hrun; lia.
Defined.

Section Lexicase.
Context {W ORG GENOME : Type} `{World W ORG GENOME}.
Variable GetPermutation : Random.t -> nat -> list nat * Random.t.

(** *** Grouping by genotype *)

(** The key stored for list number [j]: the genome of its first member. *)
Let key_of (w : W) (j : nat) (l : list nat) : GENOME * nat :=
  (GetGenomeAt w (l !!! 0%nat), j).

Lemma concat_alter_snoc (x : nat) (lists : list (list nat)) :
  forall k, (k < length lists)%nat ->
    Permutation (concat (alter (fun l => l ++ [x]) k lists)) (x :: concat lists).
Proof.
  induction lists as [|l lists IH]; intros k Hk; [simpl in Hk; lia|].
  destruct k as [|k]; simpl.
  - rewrite <- app_assoc. simpl.
    rewrite <- Permutation_middle. reflexivity.
  - rewrite (IH k) by (simpl in Hk; lia).
    rewrite <- Permutation_middle. reflexivity.
Qed.

Lemma filter_seq_S (f : nat -> bool) (k : nat) :
  List.filter f (seq 0 (S k))
  = List.filter f (seq 0 k) ++ (if f k then [k] else []).
Proof.
  rewrite seq_S, List.filter_app. simpl. destruct (f k); reflexivity.
Qed.

Lemma find_genotype_Some (w : W) (gen : GENOME) (lists : list (list nat)) (k : nat) :
  find_genotype gen (imap (key_of w) lists) = Some k ->
  exists l, lists !! k = Some l /\
            genome_eqb gen (GetGenomeAt w (l !!! 0%nat)) = true.
Proof.
  unfold find_genotype.
  destruct (List.find _ _) as [kv|] eqn:Hfind; [|discriminate].
  intros Hk. injection Hk as <-.
  apply List.find_some in Hfind. destruct Hfind as [Hin Heq].
  apply list_elem_of_In, list_elem_of_lookup_1 in Hin. destruct Hin as [j Hj].
  rewrite list_lookup_imap in Hj.
  destruct (lists !! j) as [l|] eqn:Hl; [|discriminate].
  cbn in Hj. injection Hj as <-. cbn [snd fst key_of] in *.
  exists l. split; [exact Hl | exact Heq].
Qed.

Lemma find_genotype_None (w : W) (gen : GENOME) (lists : list (list nat)) :
  find_genotype gen (imap (key_of w) lists) = None ->
  forall j l, lists !! j = Some l ->
    genome_eqb gen (GetGenomeAt w (l !!! 0%nat)) = false.
Proof.
  unfold find_genotype.
  destruct (List.find _ _) as [kv|] eqn:Hfind; [discriminate|].
  intros _ j l Hl.
  apply (List.find_none _ _ Hfind (key_of w j l)).
  apply list_elem_of_In. apply (list_elem_of_lookup_2 _ j).
  rewrite list_lookup_imap, Hl. reflexivity.
Qed.

(** What holds of [genotype_counts] and [genotype_lists] after the slots
    below [k] have been looked at. *)
Let grouped (w : W) (k : nat) (acc : list (GENOME * nat) * list (list nat)) : Prop :=
  let (counts, lists) := acc in
  counts = imap (key_of w) lists /\
  Permutation (concat lists) (List.filter (IsOccupied w) (seq 0 k)) /\
  (forall l, In l lists ->
     l <> [] /\ StronglySorted lt l /\ List.Forall (fun m => (m < k)%nat) l /\
     forall m, In m l ->
       m = l !!! 0%nat \/
       genome_eqb (GetGenomeAt w m) (GetGenomeAt w (l !!! 0%nat)) = true) /\
  (forall i j li lj, (i < j)%nat -> lists !! i = Some li -> lists !! j = Some lj ->
     genome_eqb (GetGenomeAt w (lj !!! 0%nat)) (GetGenomeAt w (li !!! 0%nat)) = false).

Lemma sorted_snoc (l : list nat) (k : nat) :
  StronglySorted lt l -> List.Forall (fun m => (m < k)%nat) l ->
  StronglySorted lt (l ++ [k]).
Proof.
  induction l as [|x l IH]; intros Hs Hall; simpl.
  - constructor; constructor.
  - inversion Hs as [|? ? Hs' Hx]; subst. inversion Hall as [|? ? Hxk Hall']; subst.
    constructor; [apply IH; assumption|].
    apply List.Forall_app. split; [exact Hx|]. constructor; [exact Hxk | constructor].
Qed.

Lemma head_snoc (l : list nat) (x : nat) :
  l <> [] -> (l ++ [x]) !!! 0%nat = l !!! 0%nat.
Proof. destruct l; [congruence | reflexivity]. Qed.

Lemma group_step_grouped (w : W) (k : nat) (acc : list (GENOME * nat) * list (list nat)) :
  grouped w k acc -> grouped w (S k) (group_step w acc k).
Proof.
  destruct acc as [counts lists]. intros (Hc & Hp & Hl & Hd).
  assert (Hmono : forall l, List.Forall (fun m => (m < k)%nat) l ->
                            List.Forall (fun m => (m < S k)%nat) l).
  { intros l Hall. eapply List.Forall_impl; [|exact Hall]. cbv beta. intros; lia. }
  unfold group_step. destruct (IsOccupied w k) eqn:Hocc.
  2:{ unfold grouped. rewrite filter_seq_S, Hocc, app_nil_r.
      split; [exact Hc|]. split; [exact Hp|]. split; [|exact Hd].
      intros l Hin. destruct (Hl l Hin) as (H1 & H2 & H3 & H4). auto. }
  cbn zeta. rewrite Hc.
  destruct (find_genotype (GetGenomeAt w k) (imap (key_of w) lists)) as [j|] eqn:Hfind.
  - destruct (find_genotype_Some w _ lists j Hfind) as (lj & Hlj & Heq).
    assert (Hj : (j < length lists)%nat) by (eapply lookup_lt_Some; exact Hlj).
    assert (Hinj : In lj lists)
      by (apply list_elem_of_In; eapply list_elem_of_lookup_2; exact Hlj).
    destruct (Hl lj Hinj) as (Hne & Hsort & Hlt & Hmem).
    unfold grouped. split; [|split; [|split]].
    + apply list_eq. intros i. rewrite !list_lookup_imap.
      destruct (Nat.eq_dec i j) as [-> | Hij].
      * rewrite list_lookup_alter_eq, Hlj. cbn. unfold key_of.
        rewrite head_snoc by exact Hne. reflexivity.
      * rewrite list_lookup_alter_ne by congruence. reflexivity.
    + rewrite filter_seq_S, Hocc, concat_alter_snoc by exact Hj.
      rewrite <- Hp. apply Permutation_cons_append.
    + intros l Hin.
      apply list_elem_of_In, list_elem_of_lookup_1 in Hin. destruct Hin as [i Hi].
      destruct (Nat.eq_dec i j) as [-> | Hij].
      * rewrite list_lookup_alter_eq, Hlj in Hi. cbn in Hi. injection Hi as <-.
        rewrite head_snoc by exact Hne.
        split; [destruct lj; discriminate|].
        split; [apply sorted_snoc; assumption|].
        split.
        { apply List.Forall_app. split; [apply Hmono; exact Hlt|].
          constructor; [lia | constructor]. }
        intros m Hm. apply in_app_or in Hm. destruct Hm as [Hm | [<- | []]].
        -- apply Hmem. exact Hm.
        -- right. exact Heq.
      * rewrite list_lookup_alter_ne in Hi by congruence.
        assert (Hin : In l lists)
          by (apply list_elem_of_In; eapply list_elem_of_lookup_2; exact Hi).
        destruct (Hl l Hin) as (H1 & H2 & H3 & H4). auto.
    + intros a b la lb Hab Ha Hb.
      assert (Hhead : forall i li, alter (fun l => l ++ [k]) j lists !! i = Some li ->
                        exists li', lists !! i = Some li' /\
                                    li !!! 0%nat = li' !!! 0%nat).
      { intros i li Hi. destruct (Nat.eq_dec i j) as [-> | Hij].
        - rewrite list_lookup_alter_eq, Hlj in Hi. cbn in Hi. injection Hi as <-.
          exists lj. split; [exact Hlj | apply head_snoc; exact Hne].
        - rewrite list_lookup_alter_ne in Hi by congruence. exists li. auto. }
      destruct (Hhead a la Ha) as (la' & Ha' & ->).
      destruct (Hhead b lb Hb) as (lb' & Hb' & ->).
      exact (Hd a b la' lb' Hab Ha' Hb').
  - pose proof (find_genotype_None w _ lists Hfind) as Hnew.
    unfold grouped. split; [|split; [|split]].
    + rewrite imap_app. cbn. rewrite Nat.add_0_r. reflexivity.
    + rewrite filter_seq_S, Hocc, concat_app. simpl.
      apply Permutation_app_tail. exact Hp.
    + intros l Hin. apply in_app_or in Hin. destruct Hin as [Hin | [<- | []]].
      * destruct (Hl l Hin) as (H1 & H2 & H3 & H4). auto.
      * split; [discriminate|]. split; [repeat constructor|].
        split; [constructor; [lia | constructor]|].
        intros m [<- | []]. left. reflexivity.
    + intros a b la lb Hab Ha Hb.
      assert (Hb_len : (b < length (lists ++ [[k]]))%nat)
        by (eapply lookup_lt_Some; exact Hb).
      rewrite length_app in Hb_len. simpl in Hb_len.
      rewrite lookup_app_l in Ha by lia.
      destruct (Nat.eq_dec b (length lists)) as [-> | Hbl].
      * rewrite lookup_app_r, Nat.sub_diag in Hb by lia. cbn in Hb.
        injection Hb as <-. cbn. apply (Hnew a la Ha).
      * rewrite lookup_app_l in Hb by lia. exact (Hd a b la lb Hab Ha Hb).
Qed.

Lemma group_prefix_grouped (w : W) (k : nat) :
  grouped w k (foldl (group_step w) ([], []) (seq 0 k)).
Proof.
  induction k as [|k IH].
  - simpl. split; [reflexivity|]. split; [reflexivity|]. split.
    + intros l [].
    + intros i j li lj _ Hi. discriminate.
  - rewrite seq_S, foldl_snoc. simpl (0 + k)%nat.
    apply group_step_grouped. exact IH.
Qed.

(** X15. The grouping loop of [LexicaseSelect] partitions the occupied
    slots: the lists of [genotype_lists] taken together are the occupied
    slots, each exactly once; every list is non-empty and in ascending
    slot order, so that its first member -- the organism the fitness
    functions are evaluated on -- is its lowest slot; every later member
    compares equal in genome to the first; the first members of two
    different lists do not; and [genotype_counts] maps the genome of
    each list's first member to the position of that list. *)
Theorem group_genotypes_partition (w : W) :
  let counts := fst (group_genotypes w) in
  let lists := snd (group_genotypes w) in
  counts = imap (fun j l => (GetGenomeAt w (l !!! 0%nat), j)) lists /\
  Permutation (concat lists) (List.filter (IsOccupied w) (seq 0 (GetSize w))) /\
  (forall l, In l lists ->
     l <> [] /\ StronglySorted lt l /\
     forall m, In m l ->
       m = l !!! 0%nat \/
       genome_eqb (GetGenomeAt w m) (GetGenomeAt w (l !!! 0%nat)) = true) /\
  (forall i j li lj, (i < j)%nat -> lists !! i = Some li -> lists !! j = Some lj ->
     genome_eqb (GetGenomeAt w (lj !!! 0%nat)) (GetGenomeAt w (li !!! 0%nat)) = false).
Proof.
  pose proof (group_prefix_grouped w (GetSize w)) as Hg.
  unfold group_genotypes. cbn zeta.
  destruct (foldl (group_step w) ([], []) (seq 0 (GetSize w))) as [counts lists].
  destruct Hg as (Hc & Hp & Hl & Hd). cbn [fst snd].
  split; [exact Hc|]. split; [exact Hp|]. split; [|exact Hd].
  intros l Hin. destruct (Hl l Hin) as (H1 & H2 & _ & H4). auto.
Qed.

(** *** Choosing the organism that reproduces *)

(** The organisms of the surviving genotypes, in the order the search
    for the winner walks through them. *)
Let candidates (genotype_lists : list (list nat)) (cur_gens : list nat) : list nat :=
  concat (map (fun gen => genotype_lists !!! gen) cur_gens).

Lemma lexicase_options_fold (genotype_lists : list (list nat)) (cur_gens : list nat) :
  forall n : nat,
    foldl (fun options gen => (options + length (genotype_lists !!! gen))%nat) n cur_gens
    = (n + length (candidates genotype_lists cur_gens))%nat.
Proof.
  induction cur_gens as [|g cur IH]; intros n.
  - simpl. lia.
  - cbn [foldl]. rewrite IH. unfold candidates. cbn [map concat].
    rewrite length_app. lia.
Qed.

Lemma lexicase_options_length (genotype_lists : list (list nat)) (cur_gens : list nat) :
  lexicase_options genotype_lists cur_gens
  = length (candidates genotype_lists cur_gens).
Proof. unfold lexicase_options. rewrite lexicase_options_fold. reflexivity. Qed.

Lemma pick_winner_lookup (genotype_lists : list (list nat)) (cur_gens : list nat) :
  forall winner : nat,
    pick_winner genotype_lists cur_gens winner
    = match candidates genotype_lists cur_gens !! winner with
      | Some id => Z.of_nat id
      | None => (-1)%Z
      end.
Proof.
  induction cur_gens as [|g cur IH]; intros winner; [reflexivity|].
  cbn [pick_winner]. unfold candidates. cbn [map concat]. cbv zeta.
  destruct (Nat.ltb_spec winner (length (genotype_lists !!! g))) as [Hlt | Hge].
  - rewrite lookup_app_l by exact Hlt.
    destruct (lookup_lt_is_Some_2 (genotype_lists !!! g) winner Hlt) as [id Hid].
    rewrite Hid. f_equal. apply list_lookup_total_correct. exact Hid.
  - rewrite lookup_app_r by exact Hge. apply IH.
Qed.

(** X16. The search for the winner indexes the organisms of the
    surviving genotypes laid end to end: [options] is their number, and
    [repro_id] is the organism at position [winner], or [-1] when
    [winner] is past the end.  So a [winner] below [options] always
    yields an organism of a surviving genotype and the assertion
    [repro_id != -1] holds. *)
Theorem pick_winner_index (genotype_lists : list (list nat)) (cur_gens : list nat)
  (winner : nat) :
  let orgs := concat (map (fun gen => genotype_lists !!! gen) cur_gens) in
  lexicase_options genotype_lists cur_gens = length orgs /\
  pick_winner genotype_lists cur_gens winner
  = match orgs !! winner with
    | Some id => Z.of_nat id
    | None => (-1)%Z
    end /\
  ((winner < lexicase_options genotype_lists cur_gens)%nat ->
   exists gen id,
     In gen cur_gens /\ In id (genotype_lists !!! gen) /\
     pick_winner genotype_lists cur_gens winner = Z.of_nat id) /\
  ((lexicase_options genotype_lists cur_gens <= winner)%nat ->
   pick_winner genotype_lists cur_gens winner = (-1)%Z).
Proof.
  cbn zeta. fold (candidates genotype_lists cur_gens).
  split; [apply lexicase_options_length|].
  split; [apply pick_winner_lookup|].
  rewrite lexicase_options_length, pick_winner_lookup. split.
  - intros Hlt.
    destruct (lookup_lt_is_Some_2 _ winner Hlt) as [id Hid]. rewrite Hid.
    assert (Hin : In id (candidates genotype_lists cur_gens))
      by (apply list_elem_of_In; eapply list_elem_of_lookup_2; exact Hid).
    unfold candidates in Hin. apply in_concat in Hin.
    destruct Hin as (l & Hl & Hidl). apply in_map_iff in Hl.
    destruct Hl as (gen & <- & Hgen).
    exists gen, id. auto.
  - intros Hge. rewrite lookup_ge_None_2 by exact Hge. reflexivity.
Qed.

(** *** Filtering the genotypes *)

Lemma lexicase_maxima_ext (fitnesses : list (list Double.t)) (used : list nat) :
  forall S1 S2 : nat -> Prop,
    (forall g, S1 g <-> S2 g) ->
    forall g, lexicase_maxima fitnesses used S1 g <-> lexicase_maxima fitnesses used S2 g.
Proof.
  induction used as [|f used IH]; intros S1 S2 Hext g; [apply Hext|].
  cbn [lexicase_maxima]. apply IH. intros g'.
  split; intros [Hs Hmax]; (split; [apply Hext; exact Hs|]);
    intros g'' Hg''; apply Hmax; apply Hext; exact Hg''.
Qed.

Lemma lexicase_maxima_subset (fitnesses : list (list Double.t)) (used : list nat) :
  forall (S : nat -> Prop) (g : nat), lexicase_maxima fitnesses used S g -> S g.
Proof.
  induction used as [|f used IH]; intros S g Hg; [exact Hg|].
  cbn [lexicase_maxima] in Hg. apply IH in Hg. apply Hg.
Qed.

(** One step keeps, as a set, the genotypes that are best on the
    function. *)
Lemma lexicase_step_best (fit : list Double.t) (cur_gens : list nat) :
  cur_gens <> [] ->
  (forall g, In g cur_gens -> is_Some (fit !! g)) ->
  exists next : list nat,
    lexicase_step fit cur_gens = Some next /\
    next <> [] /\
    forall g, In g next <->
      In g cur_gens /\
      forall g', In g' cur_gens ->
        (Double.value (fit !!! g') <= Double.value (fit !!! g))%Q.
Proof.
  intros Hne Hdef. destruct cur_gens as [|g0 rest]; [congruence|].
  destruct (SelectSpec.lexicase_step_keeps_maxima fit g0 rest Hdef)
    as (m & next & Hrun & Hnext & Hmem & Hub).
  exists next. split; [exact Hrun|]. split; [exact Hnext|].
  intros g. rewrite Hmem. split.
  - intros [Hin Heq]. split; [exact Hin|].
    intros g' Hg'. rewrite Heq. apply Hub. exact Hg'.
  - intros [Hin Hmax]. split; [exact Hin|].
    destruct next as [|b next']; [congruence|].
    destruct (proj1 (Hmem b) (or_introl eq_refl)) as [Hb Hbm].
    apply Qle_antisym; [apply Hub; exact Hin|].
    rewrite <- Hbm. apply Hmax. exact Hb.
Qed.

Lemma lexicase_filter_run (fitnesses : list (list Double.t)) (order : list nat) :
  forall (cur_gens : list nat) (depth : Z),
    cur_gens <> [] ->
    (forall fit_id, In fit_id order ->
       exists fit, fitnesses !! fit_id = Some fit /\
                   forall g, In g cur_gens -> is_Some (fit !! g)) ->
    exists (survivors : list nat) (k : nat),
      lexicase_filter fitnesses order cur_gens depth
      = Some (survivors, (depth + Z.of_nat k)%Z) /\
      survivors <> [] /\
      (k <= length order)%nat /\
      (order <> [] -> (0 < k)%nat) /\
      forall g, In g survivors <->
        lexicase_maxima fitnesses (take k order) (fun g => In g cur_gens) g.
Proof.
  induction order as [|fit_id order IH]; intros cur_gens depth Hne Hcover.
  - exists cur_gens, 0%nat. cbn. rewrite Z.add_0_r.
    split; [reflexivity|]. split; [exact Hne|]. split; [lia|].
    split; [congruence|]. reflexivity.
  - destruct (Hcover fit_id (or_introl eq_refl)) as (fit & Hfit & Hdef).
    destruct (lexicase_step_best fit cur_gens Hne Hdef) as (next & Hstep & Hnext & Hmem).
    assert (Hfit' : fitnesses !!! fit_id = fit)
      by (apply list_lookup_total_correct; exact Hfit).
    cbn [lexicase_filter]. rewrite Hfit, Hstep.
    destruct (length next =? 1)%nat eqn:Hone.
    + exists next, 1%nat. split; [reflexivity|]. split; [exact Hnext|].
      split; [simpl; lia|]. split; [lia|].
      intros g. cbn [take lexicase_maxima]. rewrite Hfit'. apply Hmem.
    + destruct (IH next (depth + 1)%Z Hnext) as (survivors & k & Hrun & Hs & Hk & Hpos & Hset).
      { intros f Hf. destruct (Hcover f (or_intror Hf)) as (fit2 & Hfit2 & Hdef2).
        exists fit2. split; [exact Hfit2|].
        intros g Hg. apply Hdef2. apply Hmem. exact Hg. }
      exists survivors, (S k). rewrite Hrun.
      split; [f_equal; f_equal; lia|]. split; [exact Hs|].
      split; [simpl; lia|]. split; [lia|].
      intros g. rewrite Hset. cbn [take lexicase_maxima]. rewrite Hfit'.
      apply lexicase_maxima_ext. exact Hmem.
Qed.

(** X17. Given a non-empty list of genotypes and an order that names
    only fitness functions that cover them, the filtering loop never
    reads out of range and never ends with an empty list: it stops after
    [k] functions, at least one when the order is not empty, and as a
    set the survivors are the genotypes that are best on the first
    function, among those best on the second, and so on through the
    [k] functions used. *)
Theorem lexicase_filter_survivors (fitnesses : list (list Double.t)) (order : list nat) :
  forall (cur_gens : list nat) (depth : Z),
    cur_gens <> [] ->
    (forall fit_id, In fit_id order ->
       exists fit, fitnesses !! fit_id = Some fit /\
                   forall g, In g cur_gens -> is_Some (fit !! g)) ->
    exists (survivors : list nat) (k : nat),
      lexicase_filter fitnesses order cur_gens depth
      = Some (survivors, (depth + Z.of_nat k)%Z) /\
      survivors <> [] /\
      (k <= length order)%nat /\
      (order <> [] -> (0 < k)%nat) /\
      forall g, In g survivors <->
        lexicase_maxima fitnesses (take k order) (fun g => In g cur_gens) g.
Proof. apply lexicase_filter_run. Qed.

(** *** The order of the fitness functions *)

Lemma order_loop (num_funs : nat) (n : nat) :
  (0 < num_funs)%nat ->
  forall (a : nat) (acc : list nat) (w : W),
    exists (es : list nat) (w1 : W),
      for_each (seq a n)
        (fun _ order =>
           bind (draw (Random.GetUInt (Z.of_nat num_funs)))
                (fun x => ret (order ++ [Z.to_nat x])))
        acc w = Done (acc ++ es) w1 /\
      length es = n /\
      List.Forall (fun i => (i < num_funs)%nat) es.
Proof.
  intros Hnum. induction n as [|n IH]; intros a acc w.
  - exists [], w. rewrite app_nil_r. split; [reflexivity|]. split; [reflexivity | constructor].
  - simpl seq. rewrite SelectSpec.for_each_cons. cbv beta.
    pose proof (RandomExtra.GetUInt_bound (Z.of_nat num_funs) (GetRandom w) ltac:(lia))
      as [Hx _].
    replace (bind (draw (Random.GetUInt (Z.of_nat num_funs)))
                  (fun x => ret (acc ++ [Z.to_nat x])) w)
      with (let (x, r1) := Random.GetUInt (Z.of_nat num_funs) (GetRandom w) in
            @Done W _ (acc ++ [Z.to_nat x]) (SetRandom r1 w))
      by (unfold bind, draw, ret;
          destruct (Random.GetUInt (Z.of_nat num_funs) (GetRandom w)); reflexivity).
    destruct (Random.GetUInt (Z.of_nat num_funs) (GetRandom w)) as [x r1].
    cbn [fst] in Hx.
    destruct (IH (S a) (acc ++ [Z.to_nat x]) (SetRandom r1 w)) as (es & w1 & Hrun & Hlen & Hall).
    exists (Z.to_nat x :: es), w1. rewrite Hrun, <- app_assoc.
    split; [reflexivity|]. split; [simpl; lia|].
    constructor; [lia | exact Hall].
Qed.


(** *** The whole call *)

Lemma filter_none (f : nat -> bool) (l : list nat) :
  (forall x, In x l -> f x = false) -> List.filter f l = [].
Proof.
  induction l as [|x l IH]; intros Hall; [reflexivity|].
  simpl. rewrite (Hall x (or_introl eq_refl)).
  apply IH. intros y Hy. apply Hall. right. exact Hy.
Qed.

Lemma lexicase_order_valid (num_funs max_funs : nat) (w : W) :
  (forall r n, Permutation (fst (GetPermutation r n)) (seq 0 n)) ->
  (0 < num_funs)%nat -> (0 < max_funs)%nat ->
  exists (order : list nat) (w1 : W),
    lexicase_order GetPermutation num_funs max_funs w = Done order w1 /\
    order <> [] /\
    List.Forall (fun fit_id => (fit_id < num_funs)%nat) order.
Proof.
  intros Hperm Hnum Hmax. unfold lexicase_order.
  destruct (Nat.eqb_spec max_funs num_funs) as [_ | Hne].
  - unfold draw. specialize (Hperm (GetRandom w) num_funs).
    destruct (GetPermutation (GetRandom w) num_funs) as [order r1]. cbn [fst] in Hperm.
    exists order, (SetRandom r1 w). split; [reflexivity|]. split.
    + intros ->. apply Permutation_nil in Hperm.
      destruct num_funs; [lia | discriminate].
    + apply List.Forall_forall. intros i Hi.
      apply (Permutation_in _ Hperm) in Hi. apply in_seq in Hi. lia.
  - unfold for_range.
    destruct (order_loop num_funs max_funs Hnum 0 [] w) as (es & w1 & Hrun & Hlen & Hall).
    exists es, w1. split; [exact Hrun|]. split; [|exact Hall].
    intros ->. simpl in Hlen. lia.
Qed.

Lemma lexicase_round_completes (fitnesses : list (list Double.t))
  (genotype_lists : list (list nat)) (num_funs max_funs : nat) (w : W) :
  (forall r n, Permutation (fst (GetPermutation r n)) (seq 0 n)) ->
  (0 < num_funs)%nat -> (0 < max_funs)%nat ->
  genotype_lists <> [] ->
  (forall l, In l genotype_lists -> l <> []) ->
  (forall fit_id, (fit_id < num_funs)%nat ->
     exists fit, fitnesses !! fit_id = Some fit /\ length fit = length genotype_lists) ->
  exists w1 : W,
    lexicase_round GetPermutation fitnesses genotype_lists
      (seq 0 (length genotype_lists)) num_funs max_funs w = Done tt w1.
Proof.
  intros Hperm Hnum Hmax Hlists Hfull Hfit.
  destruct (lexicase_order_valid num_funs max_funs w Hperm Hnum Hmax)
    as (order & w1 & Horder & Hone & Hvalid).
  unfold lexicase_round, bind at 1. rewrite Horder.
  destruct (lexicase_filter_run fitnesses order (seq 0 (length genotype_lists)) (-1))
    as (cur & k & Hrun & Hcur & _ & _ & Hset).
  { destruct genotype_lists; [congruence | discriminate]. }
  { intros fit_id Hin.
    destruct (Hfit fit_id) as (fit & Hsome & Hlen).
    - exact (proj1 (List.Forall_forall _ _) Hvalid fit_id Hin).
    - exists fit. split; [exact Hsome|]. intros g Hg. apply in_seq in Hg.
      apply lookup_lt_is_Some_2. lia. }
  rewrite Hrun.
  assert (Hopt : (0 < lexicase_options genotype_lists cur)%nat).
  { rewrite lexicase_options_length. destruct cur as [|g cur']; [congruence|].
    assert (Hg : In g (seq 0 (length genotype_lists))).
    { apply (lexicase_maxima_subset fitnesses (take k order)
               (fun g => In g (seq 0 (length genotype_lists))) g).
      apply Hset. left. reflexivity. }
    apply in_seq in Hg.
    destruct (lookup_lt_is_Some_2 genotype_lists g ltac:(lia)) as [l Hl].
    assert (Hne : l <> [])
      by (apply Hfull; apply list_elem_of_In; eapply list_elem_of_lookup_2; exact Hl).
    unfold candidates. cbn [map concat]. rewrite length_app.
    rewrite (list_lookup_total_correct _ _ _ Hl). destruct l; [congruence | simpl; lia]. }
  unfold bind at 1, emp_assert.
  destruct (Nat.ltb_spec 0 (length cur)) as [_ | Hlen];
    [|destruct cur; [congruence | simpl in Hlen; lia]].
  unfold bind at 1, draw.
  pose proof (RandomExtra.GetUInt_bound (Z.of_nat (lexicase_options genotype_lists cur))
                (GetRandom w1) ltac:(lia)) as [Hw _].
  destruct (Random.GetUInt _ (GetRandom w1)) as [winner r1]. cbn [fst] in Hw.
  assert (Hpick : (pick_winner genotype_lists cur (Z.to_nat winner) =? -1)%Z = false).
  { rewrite pick_winner_lookup.
    destruct (lookup_lt_is_Some_2 (candidates genotype_lists cur) (Z.to_nat winner))
      as [id Hid]; [rewrite <- lexicase_options_length; lia|].
    rewrite Hid. apply Z.eqb_neq. lia. }
  unfold bind at 1. rewrite Hpick. cbn [negb].
  unfold bind, act, ask, call, ret.
  destruct (DoBirth _ _ _ _) as [o w2]. exists w2. reflexivity.
Qed.

Lemma lexicase_fitnesses_rows (w : W) (fit_funs : list (ORG -> Double.t))
  (genotype_lists : list (list nat)) (fit_id : nat) :
  (fit_id < length fit_funs)%nat ->
  exists fit, lexicase_fitnesses w fit_funs genotype_lists !! fit_id = Some fit /\
              length fit = length genotype_lists.
Proof.
  intros Hlt. destruct (lookup_lt_is_Some_2 fit_funs fit_id Hlt) as [f Hf].
  unfold lexicase_fitnesses. rewrite list_lookup_fmap, Hf. cbn.
  eexists. split; [reflexivity|]. apply length_map.
Qed.

(** X19. In a world with at least one organism and with at least one
    fitness function, [LexicaseSelect] runs to completion whatever
    [repro_count] and [max_funs] are, provided [GetPermutation] returns a
    permutation of the indices: no assertion fails and no vector is read
    out of range in any round. *)
Theorem LexicaseSelect_completes (fit_funs : list (ORG -> Double.t))
  (repro_count max_funs : nat) (w : W) :
  (forall r n, Permutation (fst (GetPermutation r n)) (seq 0 n)) ->
  (exists id, (id < GetSize w)%nat /\ IsOccupied w id = true) ->
  fit_funs <> [] ->
  exists w1 : W,
    LexicaseSelect GetPermutation fit_funs repro_count max_funs w = Done tt w1.
Proof.
  intros Hperm (id & Hid & Hocc) Hfuns.
  assert (Hnum : (0 < length fit_funs)%nat) by (destruct fit_funs; [congruence | simpl; lia]).
  unfold LexicaseSelect, bind at 1, ask, emp_assert.
  unfold bind at 1. destruct (Nat.ltb_spec 0 (GetSize w)) as [_|]; [|lia].
  unfold bind at 1. destruct (Nat.ltb_spec 0 (length fit_funs)) as [_|]; [|lia].
  unfold bind at 1. unfold bind at 1. cbv zeta.
  pose proof (group_prefix_grouped w (GetSize w)) as Hg.
  unfold group_genotypes.
  destruct (foldl (group_step w) ([], []) (seq 0 (GetSize w))) as [counts lists].
  destruct Hg as (_ & Hp & Hl & _). cbn [snd].
  assert (Hlists : lists <> []).
  { intros ->. simpl in Hp. apply Permutation_nil in Hp.
    assert (Hin : In id (List.filter (IsOccupied w) (seq 0 (GetSize w)))).
    { apply List.filter_In. split; [apply in_seq; lia | exact Hocc]. }
    rewrite Hp in Hin. destruct Hin. }
  unfold for_range. apply repeat_completes. intros w0.
  apply lexicase_round_completes.
  - exact Hperm.
  - exact Hnum.
  - destruct (Nat.eqb_spec max_funs 0); lia.
  - exact Hlists.
  - intros l Hin. apply (Hl l Hin).
  - intros fit_id Hlt. apply lexicase_fitnesses_rows. exact Hlt.
Qed.

(** X20. In a world without any organism, [LexicaseSelect] asked for
    at least one offspring gets past its two assertions, draws the order
    of the first round and then stops on the read of [cur_gens[0]] from
    an empty vector: nothing is born. *)
Theorem LexicaseSelect_empty_world_aborts (fit_funs : list (ORG -> Double.t))
  (repro_count max_funs : nat) (w : W) :
  (forall r n, Permutation (fst (GetPermutation r n)) (seq 0 n)) ->
  (0 < GetSize w)%nat ->
  (forall id, (id < GetSize w)%nat -> IsOccupied w id = false) ->
  fit_funs <> [] ->
  (0 < repro_count)%nat ->
  exists (order : list nat) (w1 : W),
    lexicase_order GetPermutation (length fit_funs)
      (if (max_funs =? 0)%nat then length fit_funs else max_funs) w = Done order w1 /\
    LexicaseSelect GetPermutation fit_funs repro_count max_funs w = Aborted w1.
Proof.
  intros Hperm Hsize Hempty Hfuns Hrepro.
  assert (Hnum : (0 < length fit_funs)%nat) by (destruct fit_funs; [congruence | simpl; lia]).
  set (max' := if (max_funs =? 0)%nat then length fit_funs else max_funs).
  assert (Hmax : (0 < max')%nat) by (unfold max'; destruct (Nat.eqb_spec max_funs 0); lia).
  destruct (lexicase_order_valid (length fit_funs) max' w Hperm Hnum Hmax)
    as (order & w1 & Horder & Hone & _).
  exists order, w1. split; [exact Horder|].
  unfold LexicaseSelect, bind at 1, ask, emp_assert.
  unfold bind at 1. destruct (Nat.ltb_spec 0 (GetSize w)) as [_|]; [|lia].
  unfold bind at 1. destruct (Nat.ltb_spec 0 (length fit_funs)) as [_|]; [|lia].
  unfold bind at 1. unfold bind at 1. cbv zeta. fold max'.
  pose proof (group_prefix_grouped w (GetSize w)) as Hg.
  unfold group_genotypes.
  destruct (foldl (group_step w) ([], []) (seq 0 (GetSize w))) as [counts lists].
  destruct Hg as (_ & Hp & Hl & _). cbn [snd].
  assert (Hnone : List.filter (IsOccupied w) (seq 0 (GetSize w)) = []).
  { apply filter_none. intros i Hi. apply in_seq in Hi. apply Hempty. lia. }
  rewrite Hnone in Hp. apply Permutation_sym, Permutation_nil in Hp.
  assert (Hlists : lists = []).
  { destruct lists as [|l lists']; [reflexivity|].
    destruct (Hl l (or_introl eq_refl)) as (Hne & _).
    simpl in Hp. destruct l; [congruence | discriminate]. }
  subst lists. cbn [length seq].
  destruct repro_count as [|n]; [lia|].
  unfold for_range. simpl seq. rewrite SelectSpec.for_each_cons.
  unfold lexicase_round, bind at 1. rewrite Horder.
  destruct order as [|fit_id order']; [congruence|].
  cbn [lexicase_filter].
  destruct (lexicase_fitnesses w fit_funs [] !! fit_id); reflexivity.
Qed.

End Lexicase.

Lemma lexicase_filter_survivors_witness :
  exists (survivors : list nat) (k : nat),
    lexicase_filter [[Population.dbl 5; Population.dbl 3]] [0]%nat [0; 1]%nat (-1)
    = Some (survivors, (-1 + Z.of_nat k)%Z) /\
    survivors <> [] /\
    (k <= 1)%nat /\
    ([0%nat] <> [] -> (0 < k)%nat) /\
    forall g, In g survivors <->
      lexicase_maxima [[Population.dbl 5; Population.dbl 3]] (take k [0%nat])
        (fun g => In g [0; 1]%nat) g.
Proof.
  apply (lexicase_filter_survivors [[Population.dbl 5; Population.dbl 3]] [0]%nat
           [0; 1]%nat (-1)).
  - discriminate.
  - intros fit_id [<- | []]. eexists. split; [reflexivity|].
    intros g [<- | [<- | []]]; eexists; reflexivity.
Defined.

Section EcoPools.
Context {W ORG GENOME : Type} `{World W ORG GENOME}.

Lemma readjust_None (info : eco_info) (pool_sizes : list Double.t) (ids : list nat) :
  foldl (eco_readjust info pool_sizes) None ids = None.
Proof. induction ids as [|ex ids IH]; [reflexivity | exact IH]. Qed.

Lemma readjust_step (info : eco_info) (pool_sizes : list Double.t)
  (base : list Double.t) (ex_id : nat) :
  eco_readjust info pool_sizes (Some base) ex_id
  = if (max_count info !!! ex_id =? 0)%nat then Some base
    else match pool_sizes !! ex_id with
         | None => None
         | Some pool =>
             Some (imap (fun org_id b =>
                           if Double.eqb ((extra_fitnesses info !!! ex_id) !!! org_id)
                                         (max_extra_fit info !!! ex_id)
                           then Double.add b
                                  (Double.div pool
                                     (Double.of_Z (Z.of_nat (max_count info !!! ex_id))))
                           else b)
                        base)
         end.
Proof. reflexivity. Qed.

Lemma readjust_fold (info : eco_info) (pool_sizes : list Double.t) (ids : list nat) :
  forall base : list Double.t,
    (foldl (eco_readjust info pool_sizes) (Some base) ids = None <->
     exists ex, In ex ids /\ max_count info !!! ex <> 0%nat /\ pool_sizes !! ex = None) /\
    (forall base', foldl (eco_readjust info pool_sizes) (Some base) ids = Some base' ->
                   length base' = length base).
Proof.
  induction ids as [|ex ids IH]; intros base.
  - simpl. split.
    + split; [discriminate | intros (ex & [] & _)].
    + intros base' Heq. injection Heq as <-. reflexivity.
  - cbn [foldl]. rewrite readjust_step.
    destruct (Nat.eqb_spec (max_count info !!! ex) 0) as [Hzero | Hpos].
    + destruct (IH base) as [Hnone Hlen]. split; [|exact Hlen].
      rewrite Hnone. split.
      * intros (ex' & Hin & Hbad). exists ex'. split; [right; exact Hin | exact Hbad].
      * intros (ex' & [<- | Hin] & Hc & Hp); [contradiction|].
        exists ex'. auto.
    + destruct (pool_sizes !! ex) as [pool|] eqn:Hpool.
      * set (base1 := imap _ base).
        assert (Hl1 : length base1 = length base) by apply length_imap.
        destruct (IH base1) as [Hnone Hlen]. split.
        -- rewrite Hnone. split.
           ++ intros (ex' & Hin & Hbad). exists ex'. split; [right; exact Hin | exact Hbad].
           ++ intros (ex' & [<- | Hin] & Hc & Hp); [congruence|].
              exists ex'. auto.
        -- intros base' Hrun. rewrite (Hlen base' Hrun). exact Hl1.
      * rewrite readjust_None. split.
        -- split; [|reflexivity]. intros _. exists ex. split; [left; reflexivity | auto].
        -- discriminate.
Qed.

Lemma max_count_zero_iff (w : W) (extra_funs : list (ORG -> Double.t))
  (ex_id : nat) (f : ORG -> Double.t) :
  extra_funs !! ex_id = Some f ->
  (max_count (eco_collect w extra_funs) !!! ex_id <> 0%nat <->
   exists org, (org < GetSize w)%nat /\ (0 <= Double.value (f (GetOrg w org)))%Q).
Proof.
  intros Hf.
  destruct (SelectSpec.eco_collect_spec w extra_funs ex_id f Hf) as (_ & Hscan & _).
  pose proof (SelectSpec.scan_invariant (extra_values w f)) as Hinv. cbn zeta in Hinv.
  destruct (foldl scan_step (Double.zero, 0%nat) (extra_values w f)) as [mx c].
  injection Hscan as Hmx Hc. rewrite Hc. clear Hmx Hc. cbn [fst snd] in Hinv.
  destruct Hinv as (Hub & H0 & Htied & Hz).
  split.
  - intros Hpos.
    assert (Hex : exists v, In v (extra_values w f) /\ (Double.value v == Double.value mx)%Q).
    { rewrite Htied in Hpos. unfold num_tied in Hpos.
      destruct (List.filter (fun u => Double.eqb u mx) (extra_values w f)) as [|v l] eqn:Hfil;
        [simpl in Hpos; congruence|].
      assert (Hv : In v (List.filter (fun u => Double.eqb u mx) (extra_values w f)))
        by (rewrite Hfil; left; reflexivity).
      apply List.filter_In in Hv. destruct Hv as [Hin Heq].
      exists v. split; [exact Hin | apply eqb_eq; exact Heq]. }
    destruct Hex as (v & Hin & Heq).
    apply SelectSpec.In_extra_values in Hin. destruct Hin as (org & Hlt & ->).
    exists org. split; [exact Hlt|]. rewrite Heq. exact H0.
  - intros (org & Hlt & Hnn) Hzero.
    specialize (Hz Hzero). subst mx.
    assert (Hin : In (f (GetOrg w org)) (extra_values w f))
      by (apply SelectSpec.In_extra_values; exists org; auto).
    assert (Heq : (Double.value (f (GetOrg w org)) == Double.value Double.zero)%Q).
    { apply Qle_antisym; [apply Hub; exact Hin|].
      rewrite value_zero. exact Hnn. }
    pose proof (SelectSpec.num_tied_pos _ _ _ Hin Heq) as Hp. lia.
Qed.

(** X21. The only vector read of [EcoSelect]'s fitness pass that can go
    out of range is [pool_sizes[ex_id]], and it does exactly when some
    supplemental function has no pool size and is non-negative on at
    least one organism; a function that is negative on every organism is
    skipped before its pool size is looked at.  When the pass completes,
    the adjusted fitness vector has one entry per slot.  With the
    single-value overload, which builds one pool size per function, the
    pass always completes. *)
Theorem eco_fitness_pool_reads (w : W) (extra_funs : list (ORG -> Double.t))
  (pool_sizes : list Double.t) :
  (eco_fitness w extra_funs pool_sizes = None <->
   exists ex_id f org,
     (length pool_sizes <= ex_id)%nat /\ extra_funs !! ex_id = Some f /\
     (org < GetSize w)%nat /\ (0 <= Double.value (f (GetOrg w org)))%Q) /\
  (forall base, eco_fitness w extra_funs pool_sizes = Some base ->
                length base = GetSize w) /\
  (forall pool : Double.t,
     is_Some (eco_fitness w extra_funs (replicate (length extra_funs) pool))).
Proof.
  assert (Hiff : forall pools,
    eco_fitness w extra_funs pools = None <->
    exists ex_id f org,
      (length pools <= ex_id)%nat /\ extra_funs !! ex_id = Some f /\
      (org < GetSize w)%nat /\ (0 <= Double.value (f (GetOrg w org)))%Q).
  { intros pools. unfold eco_fitness. cbv zeta.
    rewrite (proj1 (readjust_fold _ pools _ _)). split.
    - intros (ex & Hin & Hc & Hp). apply in_seq in Hin.
      destruct (lookup_lt_is_Some_2 extra_funs ex ltac:(lia)) as [f Hf].
      apply (max_count_zero_iff w extra_funs ex f Hf) in Hc.
      destruct Hc as (org & Hlt & Hnn).
      exists ex, f, org. split; [apply lookup_ge_None; exact Hp | auto].
    - intros (ex & f & org & Hlen & Hf & Hlt & Hnn).
      exists ex. split; [|split].
      + apply in_seq. apply lookup_lt_Some in Hf. lia.
      + apply (max_count_zero_iff w extra_funs ex f Hf). exists org. auto.
      + apply lookup_ge_None. exact Hlen. }
  split; [apply Hiff|]. split.
  - intros base Hrun. unfold eco_fitness in Hrun. cbv zeta in Hrun.
    rewrite (proj2 (readjust_fold _ pool_sizes _ _) base Hrun).
    destruct (SelectSpec.collect_prefix w extra_funs (GetSize w) (le_n _)) as ((Hlen & _) & _).
    exact Hlen.
  - intros pool.
    destruct (eco_fitness w extra_funs (replicate (length extra_funs) pool)) as [base|] eqn:Hrun;
      [eexists; reflexivity|].
    apply Hiff in Hrun. destruct Hrun as (ex & f & org & Hlen & Hf & _).
    rewrite length_replicate in Hlen. apply lookup_lt_Some in Hf. lia.
Qed.

End EcoPools.


Lemma LexicaseSelect_completes_witness :
  exists w1 : Population.t,
    LexicaseSelect Population.identity_permutation
      [Population.by_distance; Population.by_genome] 2 0 Population.two_orgs
    = Done tt w1.
Proof.
  apply (LexicaseSelect_completes Population.identity_permutation
           [Population.by_distance; Population.by_genome] 2 0 Population.two_orgs).
  - intros r n. reflexivity.
  - exists 0%nat. split; [vm_compute; lia | reflexivity].
  - discriminate.
Defined.

Lemma LexicaseSelect_empty_world_aborts_witness :
  exists (order : list nat) (w1 : Population.t),
    lexicase_order Population.identity_permutation 1 1
      (Population.make [None; None] [Population.dbl 0; Population.dbl 0] 1 true)
    = Done order w1 /\
    LexicaseSelect Population.identity_permutation [Population.by_genome] 1 0
      (Population.make [None; None] [Population.dbl 0; Population.dbl 0] 1 true)
    = Aborted w1.
Proof.
  apply (LexicaseSelect_empty_world_aborts Population.identity_permutation
           [Population.by_genome] 1 0
           (Population.make [None; None] [Population.dbl 0; Population.dbl 0] 1 true)).
  - intros r n. reflexivity.
  - vm_compute. lia.
  - intros [|[|id]] Hid; [reflexivity | reflexivity | vm_compute in Hid; lia].
  - discriminate.
  - lia.
Defined.

End SelectExtra.
